(** * Andy-math/optimizer: trust-region driver and PCG inner solver

    A shallow embedding of the inner solver [_implimentation] and the
    wrapper [pcg] of [optimizer/pcg.py] and of the driver [trust_region]
    of [optimizer/trust_region.py], together with the properties that
    the specification states about them.

    Numbers come in two embeddings.  In the first a float64 is a
    rational number ([Q]) and every operation is exact; it carries the
    properties that rest on the control flow and the structure of the
    code alone (which point is returned, which flag, which assertion can
    fail, how the driver's variables move), and these do not change when
    the operations round.  In the second ([F64], [FLinneq], [FPCG]) a
    float64 is an IEEE 754 binary64 number and every operation rounds to
    nearest even, with underflow, overflow, infinities and nan; it
    carries the statements whose truth depends on rounding: the radius
    test of the inner solver and the shifted constraint bundle.  Python
    integers are [Z], loop indices of [range] are [nat]; in the exact
    embedding the bounds of the constraint bundle may be infinite and
    have their own type ([ext]).

    Exceptions are values ([result]).  The inner solver is a pure
    function; the driver threads the two variables that its closure
    [make_hess] updates through a state and error monad ([M]) and keeps
    its other locals in a record.  Code outside the two files (the
    feasibility predicate of [numerical.linneq], the gradient and Hessian
    estimators, the subproblem solver's policy helpers) enters as
    section variables.  The driver is stated for a subproblem solver that
    returns a status; a call of the solver that raises ends the run of
    the driver with that exception and is outside its statements.  The
    calls of [options.output] only display an iteration and are left
    out. *)

From Stdlib Require Import List ZArith QArith Qabs Qminmax Qpower Bool Lia.
From Stdlib Require Import Reals Qreals Lra Lqa.
From Stdlib Require SpecFloat.
Import ListNotations.

Open Scope Q_scope.

(* ------------------------------------------------------------------ *)
(** ** Exceptions *)

(** The [assert] statements of the two files, by place. *)
Inductive assertion : Type :=
| hessian_not_up_to_date   (* trust_region.py:123, in make_hess *)
| start_is_feasible        (* trust_region.py:131 *)
| fval_is_not_None         (* trust_region.py:180 *)
| size_is_not_None         (* trust_region.py:181 *)
| constraint_check_passes. (* the bind_checker input checks *)

Inductive exn : Type :=
| TypeError                       (* a dyn_typing shape check failed *)
| AssertionError (a : assertion)
| UnboundLocalError               (* a local read before any assignment *)
| ValueError                      (* numpy.max of an empty array *)
| ZeroDivisionError               (* float / float with a zero divisor *)
| NonFinite.                      (* an array division produced inf or nan *)

Inductive result (A : Type) : Type :=
| Ok (a : A)
| Raise (e : exn).
Arguments Ok {A} a.
Arguments Raise {A} e.

Definition bind {A B : Type} (m : result A) (k : A -> result B) : result B :=
  match m with
  | Ok a => k a
  | Raise e => Raise e
  end.

Notation "x <- m ;; k" := (bind m (fun x => k))
  (at level 61, m at next level, right associativity).

(* ------------------------------------------------------------------ *)
(** ** Numbers and arrays *)

Definition Qlt_bool (a b : Q) : bool := negb (Qle_bool b a).

(** [a / b] on two Python floats: raises on a zero divisor. *)
Definition fdiv (a b : Q) : result Q :=
  if Qeq_bool b 0 then Raise ZeroDivisionError else Ok (a / b).

Definition vec : Type := list Q.
Definition matrix : Type := list vec.   (* list of rows *)

Definition zeros (n : nat) : vec := repeat 0 n.

Fixpoint map2 {A B C : Type} (f : A -> B -> C) (u : list A) (v : list B) : list C :=
  match u, v with
  | a :: u', b :: v' => f a b :: map2 f u' v'
  | _, _ => []
  end.

Definition vneg (v : vec) : vec := map Qopp v.
Definition vadd (u v : vec) : vec := map2 Qplus u v.
Definition vsub (u v : vec) : vec := map2 Qminus u v.
Definition vscale (a : Q) (v : vec) : vec := map (Qmult a) v.
Definition vsum (v : vec) : Q := fold_right Qplus 0 v.
Definition dot (u v : vec) : Q := vsum (map2 Qmult u v).
Definition matvec (M : matrix) (v : vec) : vec := map (fun row => dot row v) M.

(** [r / R] on two arrays.  numpy yields inf or nan where [R] is zero;
    such a component stays non-finite in [z], [direct] and every later
    trial point, and the output check [assertNoInfNaN] rejects whatever
    the solver would return.  The model stops at the division. *)
Fixpoint vdiv (u v : vec) : result vec :=
  match u, v with
  | a :: u', b :: v' =>
      if Qeq_bool b 0 then Raise NonFinite
      else t <- vdiv u' v' ;; Ok (a / b :: t)
  | _, _ => Ok []
  end.

(** [numpy.max(numpy.abs(z))]. *)
Definition max_abs (v : vec) : result Q :=
  match v with
  | [] => Raise ValueError
  | a :: t => Ok (fold_left Qmax (map Qabs t) (Qabs a))
  end.

(** [numpy.sqrt(numpy.finfo(float64).eps)]: eps is 2^-52, its root 2^-26. *)
Definition eps : Q := 1 # (2 ^ 52).
Definition sqrt_eps : Q := 1 # (2 ^ 26).

(** [numpy.linalg.norm(v) > d] in exact arithmetic, that is
    [sqrt (v . v) > d], without the root: a root exceeds [d] when [d] is
    negative or the radicand exceeds the square of [d] ([norm_gt_sqrt]
    below relates it to the real root).  The test as float64 evaluates
    it is [F64.ltb d (F64.norm v)]. *)
Definition norm_gt (v : vec) (d : Q) : bool :=
  Qlt_bool d 0 || Qlt_bool (d * d) (dot v v).

(** The Euclidean norm, as a real number. *)
Definition norm2 (v : vec) : R := sqrt (Q2R (dot v v)).

(* ------------------------------------------------------------------ *)
(** ** Constraint bundles *)

Module Linneq.

(** An entry of [lb] or [ub]: a float that may be infinite. *)
Inductive ext : Type :=
| NegInf
| Fin (q : Q)
| PosInf.

(** [e - q] for a finite [q]. *)
Definition ext_sub (e : ext) (q : Q) : ext :=
  match e with
  | NegInf => NegInf
  | Fin a => Fin (a - q)
  | PosInf => PosInf
  end.

(** [e <= q] and [q <= e] for a finite [q]. *)
Definition ext_le_fin (e : ext) (q : Q) : bool :=
  match e with
  | NegInf => true
  | Fin a => Qle_bool a q
  | PosInf => false
  end.

Definition fin_le_ext (q : Q) (e : ext) : bool :=
  match e with
  | NegInf => false
  | Fin a => Qle_bool q a
  | PosInf => true
  end.

(** The 4-tuple [(A, b, lb, ub)]. *)
Record constraints : Type := Constraints {
  A : matrix;
  b : vec;
  lb : list ext;
  ub : list ext
}.

(** The shapes that the dyn_typing decorators demand for dimension [n]:
    [A] is m-by-n, [b] has length m, [lb] and [ub] have length [n]. *)
Definition shape_ok (n : nat) (c : constraints) : bool :=
  forallb (fun row => Nat.eqb (length row) n) (A c)
  && Nat.eqb (length (b c)) (length (A c))
  && Nat.eqb (length (lb c)) n
  && Nat.eqb (length (ub c)) n.

Fixpoint forallb2 {X Y : Type} (f : X -> Y -> bool) (u : list X) (v : list Y) : bool :=
  match u, v with
  | a :: u', b :: v' => f a b && forallb2 f u' v'
  | _, _ => true
  end.

(** Modelled from the spec: [numerical.linneq.check], which is imported
    by both files and not part of them.  The spec gives its meaning:
    a point is feasible when [A x <= b] and [lb <= x <= ub]. *)
Definition check (p : vec) (c : constraints) : bool :=
  forallb2 Qle_bool (matvec (A c) p) (b c)
  && forallb2 ext_le_fin (lb c) p
  && forallb2 fin_le_ext p (ub c).

(** trust_region.py:117-118, inside [get_info]:
    [_constr_shifted = (A, b - A @ x, lb - x, ub - x)], with exact
    differences; [FLinneq.shift] rounds them as the program does. *)
Definition shift (c : constraints) (x : vec) : constraints :=
  {| A := A c;
     b := vsub (b c) (matvec (A c) x);
     lb := map2 ext_sub (lb c) x;
     ub := map2 ext_sub (ub c) x |}.

End Linneq.

(* ------------------------------------------------------------------ *)
(** ** pcg.py *)

Module PCG.

Import Linneq.

Inductive PCG_Flag : Type :=
| RESIDUAL_CONVERGENCE
| NEGATIVE_CURVATURE
| OUT_OF_TRUST_REGION
| VIOLATE_CONSTRAINTS
| POLICY_ONLY.

Definition flag_eqb (a b : PCG_Flag) : bool :=
  match a, b with
  | RESIDUAL_CONVERGENCE, RESIDUAL_CONVERGENCE
  | NEGATIVE_CURVATURE, NEGATIVE_CURVATURE
  | OUT_OF_TRUST_REGION, OUT_OF_TRUST_REGION
  | VIOLATE_CONSTRAINTS, VIOLATE_CONSTRAINTS
  | POLICY_ONLY, POLICY_ONLY => true
  | _, _ => false
  end.

(** class PCG_Status.  [size] is [sqrt (x @ x)] when [x] is present. *)
Record PCG_Status : Type := Build_PCG_Status {
  x : option vec;
  fval : option Q;
  iter : Z;
  flag : PCG_Flag;
  size : option Q
}.

(** The tuple [(p, direct, iter, flag)] returned by [_implimentation]. *)
Definition output : Type := (vec * option vec * nat * PCG_Flag)%type.

(** The variables that the loop of [_implimentation] carries around. *)
Record cg_state : Type := CG {
  p : vec;        (* best point so far *)
  r : vec;        (* residual *)
  z : vec;        (* preconditioned residual *)
  direct : vec;   (* search direction *)
  inner1 : Q
}.

(** What one pass through a loop body does: leave the function through
    a [return], or fall through to the next pass. *)
Inductive step (S : Type) : Type :=
| Exit (out : output)
| Next (s : S).
Arguments Exit {S} out.
Arguments Next {S} s.

Section Implimentation.

(** [numerical.linneq.check] and [numerical.linneq.constraint_check]
    belong to another package; the solver is modelled for any two. *)
Variable check : vec -> constraints -> bool.
Variable constraint_check : constraints -> bool.

Variables (H : matrix) (R : vec) (constraints : Linneq.constraints) (delta : Q).

(** pcg.py:110-145, the body of [for iter in range(n)], in exact
    arithmetic; [FPCG.iteration] is the same body over binary64. *)
Definition iteration (iter : nat) (s : cg_state) : result (step cg_state) :=
  m <- max_abs (z s) ;;
  if Qlt_bool m sqrt_eps then
    Ok (Exit (p s, None, iter, RESIDUAL_CONVERGENCE))
  else
    let ww := matvec H (direct s) in
    let denom := dot (direct s) ww in
    if Qle_bool denom 0 then
      Ok (Exit (p s, Some (direct s), iter, NEGATIVE_CURVATURE))
    else
      let alpha := inner1 s / denom in
      let pnew := vadd (p s) (vscale alpha (direct s)) in
      if norm_gt pnew delta then
        Ok (Exit (p s, Some (direct s), iter, OUT_OF_TRUST_REGION))
      else if negb (check pnew constraints) then
        Ok (Exit (p s, Some (direct s), iter, VIOLATE_CONSTRAINTS))
      else
        let r' := vsub (r s) (vscale alpha ww) in
        z' <- vdiv r' R ;;
        let inner2 := inner1 s in
        let inner1' := dot r' z' in
        beta <- fdiv inner1' inner2 ;;
        Ok (Next {| p := pnew;
                    r := r';
                    z := z';
                    direct := vadd z' (vscale beta (direct s));
                    inner1 := inner1' |}).

(** The [for] statement over the remaining indices, followed by the
    [return] of line 147.  [last] is the binding of the loop variable
    [iter]: unbound before the first pass, the index of the latest pass
    afterwards. *)
Fixpoint for_range (indices : list nat) (last : option nat) (s : cg_state)
  : result output :=
  match indices with
  | [] =>
      match last with
      | None => Raise UnboundLocalError
      | Some iter => Ok (p s, None, iter, RESIDUAL_CONVERGENCE)
      end
  | iter :: rest =>
      st <- iteration iter s ;;
      match st with
      | Exit out => Ok out
      | Next s' => for_range rest (Some iter) s'
      end
  end.

(** The input shapes of the [dyn_check_5] decorator, with [N = len(g)]. *)
Definition dyn_check (g : vec) : bool :=
  let n := length g in
  Nat.eqb (length H) n
  && forallb (fun row => Nat.eqb (length row) n) H
  && Nat.eqb (length R) n
  && shape_ok n constraints.

(** pcg.py:101-107, the variables with which the loop is entered; [z0]
    is the quotient [r / R]. *)
Definition initial (g z0 : vec) : cg_state :=
  let n := length g in
  let r0 := vneg g in
  {| p := zeros n; r := r0; z := z0; direct := z0; inner1 := dot r0 z0 |}.

(** pcg.py:67-147.  The finiteness assertions of the two checkers hold
    for every rational and are left out. *)
Definition _implimentation (g : vec) : result output :=
  if negb (dyn_check g) then Raise TypeError
  else if negb (constraint_check constraints) then
    Raise (AssertionError constraint_check_passes)
  else
    let n := length g in
    z0 <- vdiv (vneg g) R ;;
    for_range (seq 0 n) None (initial g z0).

(** [completes indices s s']: started with the variables [s], the passes
    for [indices] all fall through to the next one (none of them leaves
    through a [return]) and the variables end up as [s']. *)
Inductive completes : list nat -> cg_state -> cg_state -> Prop :=
| completes_nil (s : cg_state) : completes [] s s
| completes_cons (i : nat) (rest : list nat) (s s1 s' : cg_state) :
    iteration i s = Ok (Next s1) ->
    completes rest s1 s' ->
    completes (i :: rest) s s'.

End Implimentation.

End PCG.

(* ------------------------------------------------------------------ *)
(** ** trust_region.py *)

Module TrustRegion.

Import Linneq.

(** The [Gradient] bundle of grad_maker: the vector and its infinity norm. *)
Record Gradient : Type := Build_Gradient {
  value : vec;
  infnorm : Q
}.

Module Trust_Region_Result.

(** class Trust_Region_Result(NamedTuple). *)
Record t : Type := mk {
  x : vec;
  iter : Z;
  delta : Q;
  gradient : Gradient;
  success : bool
}.

End Trust_Region_Result.

(** [Union[Literal["x.shape[0]"], int]]. *)
Inductive Shaking : Type :=
| x_shape_0
| Fixed (k : Z).

(** options.py, class Trust_Region_Options. *)
Record Trust_Region_Options : Type := {
  border_abstol : Q;
  tol_step : Q;
  tol_grad : Q;
  abstol_fval : option Q;
  max_stall_iter : option Z;
  init_delta : Q;
  max_iter : Z;
  check_rel : Q;
  check_abs : option Q;
  check_iter : option Z;
  shaking : Shaking;
  display : bool
}.

(** The class defaults together with [__init__(self, *, max_iter)]. *)
Definition default_options (max_iter : Z) : Trust_Region_Options :=
  {| border_abstol := 1 # (10 ^ 10);
     tol_step := 1 # (10 ^ 10);
     tol_grad := 1 # (10 ^ 6);
     abstol_fval := None;
     max_stall_iter := None;
     init_delta := 1;
     max_iter := max_iter;
     check_rel := 1 # 100;
     check_abs := None;
     check_iter := None;
     shaking := x_shape_0;
     display := true |}.

(** The two variables that [make_hess] reaches through [nonlocal]. *)
Record closure : Type := Closure {
  hessian_is_up_to_date : bool;
  times_after_hessian_shaking : Z
}.

(** The local variables of [trust_region] that live across iterations. *)
Record locals : Type := Locals {
  iter : Z;
  x : vec;
  fval : Q;
  grad : Gradient;
  H : matrix;
  _constr_shifted : constraints;
  delta : Q;
  init_grad_infnorm : Q;
  old_fval : Q;
  stall_iter : Z
}.

Definition set_iter (l : locals) (v : Z) : locals :=
  Locals v (x l) (fval l) (grad l) (H l) (_constr_shifted l) (delta l)
         (init_grad_infnorm l) (old_fval l) (stall_iter l).
Definition set_H (l : locals) (v : matrix) : locals :=
  Locals (iter l) (x l) (fval l) (grad l) v (_constr_shifted l) (delta l)
         (init_grad_infnorm l) (old_fval l) (stall_iter l).
Definition set_delta (l : locals) (v : Q) : locals :=
  Locals (iter l) (x l) (fval l) (grad l) (H l) (_constr_shifted l) v
         (init_grad_infnorm l) (old_fval l) (stall_iter l).
Definition set_point (l : locals) (x' : vec) (f' : Q) (g' : Gradient) (c' : constraints)
  : locals :=
  Locals (iter l) x' f' g' (H l) c' (delta l)
         (init_grad_infnorm l) (old_fval l) (stall_iter l).
Definition set_stall (l : locals) (old : Q) (n : Z) : locals :=
  Locals (iter l) (x l) (fval l) (grad l) (H l) (_constr_shifted l) (delta l)
         (init_grad_infnorm l) old n.

(** Computations that read and write the closure and may raise. *)
Definition M (X : Type) : Type := closure -> result (X * closure).

Definition ret {X : Type} (a : X) : M X := fun c => Ok (a, c).
Definition raise {X : Type} (e : exn) : M X := fun _ => Raise e.
Definition get : M closure := fun c => Ok (c, c).
Definition put (c : closure) : M unit := fun _ => Ok (tt, c).
Definition mbind {X Y : Type} (m : M X) (k : X -> M Y) : M Y :=
  fun c => match m c with
           | Ok (a, c') => k a c'
           | Raise e => Raise e
           end.

Notation "x <~ m ;; k" := (mbind m (fun x => k))
  (at level 61, m at next level, right associativity).

(** Did the run stop at the assertion inside [make_hess]? *)
Definition make_hess_assertion_failed {X : Type} (r : result X) : bool :=
  match r with
  | Raise (AssertionError hessian_not_up_to_date) => true
  | _ => false
  end.

(** A computation that does not stop there, whatever the closure. *)
Definition assertion_free {X : Type} (m : M X) : Prop :=
  forall c, make_hess_assertion_failed (m c) = false.

(** Did the run use up its passes without reaching a [return]? *)
Definition out_of_fuel {X S : Type} (r : result (option X * S)) : bool :=
  match r with
  | Ok (None, _) => true
  | _ => false
  end.

(** How a pass through the [while True] body ends. *)
Inductive outcome : Type :=
| Return (res : Trust_Region_Result.t)
| Continue (l : locals).

(** trust_region.py:189-193. *)
Definition ratio_of (reduce pcg_fval : Q) : Q :=
  if Qle_bool 0 reduce then 0
  else if Qle_bool reduce pcg_fval then 1
  else reduce / pcg_fval.

Section Driver.

(** The callables and the collaborators that are not in the two files.
    [make_gradient] and [make_hessian] stand for the functions of
    grad_maker applied to the user's [gradient]; [make_gradient] also
    receives the three numbers of its [GradientCheck].  [pcg] is the
    subproblem solver [pcg.pcg], whose own collaborators
    ([subspace_decay] and the two preconditioners) are outside the two
    files; the driver is modelled for any solver. *)
Variable objective : vec -> Q.
Variable make_gradient :
  vec -> constraints -> Trust_Region_Options -> Z -> ext -> Q -> Gradient.
Variable make_hessian : vec -> constraints -> Trust_Region_Options -> matrix.
Variable pcg : vec -> matrix -> constraints -> Q -> PCG.PCG_Status.
Variable check : vec -> constraints -> bool.
Variable constraint_check : constraints -> vec -> bool.

Variable constraints : Linneq.constraints.
Variable opts : Trust_Region_Options.

(** trust_region.py:105-119. *)
Definition get_info (x : vec) (iter : Z) (grad_infnorm : ext) (init_grad_infnorm : Q)
  : Gradient * Linneq.constraints :=
  let new_grad := make_gradient x constraints opts iter grad_infnorm init_grad_infnorm in
  (new_grad, shift constraints x).

(** trust_region.py:121-127. *)
Definition make_hess (x : vec) : M matrix :=
  c <~ get ;;
  if hessian_is_up_to_date c then raise (AssertionError hessian_not_up_to_date)
  else
    let H := make_hessian x constraints opts in
    _ <~ put {| hessian_is_up_to_date := true; times_after_hessian_shaking := 0 |} ;;
    ret H.

(** trust_region.py:164-178: the solver returned no step. *)
Definition no_step (l : locals) : M outcome :=
  c <~ get ;;
  if hessian_is_up_to_date c then
    ret (Continue (set_delta l (delta l / 4)))
  else
    H' <~ make_hess (x l) ;;
    ret (Continue (set_H l H')).

(** trust_region.py:194-200. *)
Definition radius_update (l : locals) (ratio size : Q) : M locals :=
  if Qle_bool (3 # 4) ratio && Qle_bool ((9 # 10) * delta l) size then
    ret (set_delta l (delta l * 2))
  else if Qle_bool ratio (1 # 4) then
    c <~ get ;;
    if hessian_is_up_to_date c then
      ret (set_delta l (size / 4))
    else
      H' <~ make_hess (x l) ;;
      ret (set_H l H')
  else ret l.

(** trust_region.py:203-209. *)
Definition acceptance (l : locals) (new_x : vec) (new_fval : Q) : M locals :=
  if Qlt_bool new_fval (fval l) then
    c <~ get ;;
    _ <~ put {| hessian_is_up_to_date := false;
                times_after_hessian_shaking := times_after_hessian_shaking c |} ;;
    let '(g, cs) :=
      get_info new_x (iter l) (Fin (infnorm (grad l))) (init_grad_infnorm l) in
    let l' := set_point l new_x new_fval g cs in
    let stalled :=
      match abstol_fval opts with
      | Some a => Qlt_bool (old_fval l' - fval l') a
      | None => false
      end in
    if stalled then ret (set_stall l' (old_fval l') (stall_iter l' + 1)%Z)
    else ret (set_stall l' (fval l') 0%Z)
  else ret l.

(** trust_region.py:215-223.  The left summand is a [return]. *)
Definition residual_check (l : locals) (flag : PCG.PCG_Flag) (size : Q)
  : M (Trust_Region_Result.t + locals) :=
  if PCG.flag_eqb flag PCG.RESIDUAL_CONVERGENCE then
    c <~ get ;;
    if hessian_is_up_to_date c then
      if Qlt_bool (infnorm (grad l)) (tol_grad opts) then
        ret (inl (Trust_Region_Result.mk (x l) (iter l) (delta l) (grad l) true))
      else if Qlt_bool size (tol_step opts) then
        ret (inl (Trust_Region_Result.mk (x l) (iter l) (delta l) (grad l) true))
      else ret (inr l)
    else
      H' <~ make_hess (x l) ;;
      ret (inr (set_H l H'))
  else ret (inr l).

(** trust_region.py:225-229. *)
Definition stall_check (l : locals) : M outcome :=
  let stalled :=
    match max_stall_iter opts with
    | Some m => (m <=? stall_iter l)%Z
    | None => false
    end in
  if stalled then
    c <~ get ;;
    if hessian_is_up_to_date c then
      ret (Return (Trust_Region_Result.mk (x l) (iter l) (delta l) (grad l) true))
    else
      H' <~ make_hess (x l) ;;
      ret (Continue (set_H l H'))
  else ret (Continue l).

(** trust_region.py:180-229: the solver returned the step [px]. *)
Definition candidate (l : locals) (pcg_status : PCG.PCG_Status) (px : vec) : M outcome :=
  match PCG.fval pcg_status with
  | None => raise (AssertionError fval_is_not_None)
  | Some pcg_fval =>
  match PCG.size pcg_status with
  | None => raise (AssertionError size_is_not_None)
  | Some size =>
      let new_x := vadd (x l) px in
      let new_fval := objective new_x in
      let reduce := new_fval - fval l in
      let ratio := ratio_of reduce pcg_fval in
      l1 <~ radius_update l ratio size ;;
      l2 <~ acceptance l1 new_x new_fval ;;
      o <~ residual_check l2 (PCG.flag pcg_status) size ;;
      match o with
      | inl res => ret (Return res)
      | inr l3 => stall_check l3
      end
  end end.

(** The two tests at the top of the loop, lines 147 and 151, as one. *)
Definition gives_up (l : locals) : bool :=
  Qlt_bool (delta l) (tol_step opts) || (max_iter opts <? iter l)%Z.

Section Loop.

(** trust_region.py:96-98, fixed before the loop. *)
Variable hessian_shaking : Z.

(** trust_region.py:146-229, one pass through [while True]. *)
Definition loop_body (l : locals) : M outcome :=
  if Qlt_bool (delta l) (tol_step opts) then
    ret (Return (Trust_Region_Result.mk (x l) (iter l) (delta l) (grad l) false))
  else if (max_iter opts <? iter l)%Z then
    ret (Return (Trust_Region_Result.mk (x l) (iter l) (delta l) (grad l) false))
  else
    c <~ get ;;
    l1 <~ (if (hessian_shaking <=? times_after_hessian_shaking c)%Z
              && negb (hessian_is_up_to_date c)
           then H' <~ make_hess (x l) ;; ret (set_H l H')
           else ret l) ;;
    let pcg_status := pcg (value (grad l1)) (H l1) (_constr_shifted l1) (delta l1) in
    let l2 := set_iter l1 (iter l1 + 1)%Z in
    c <~ get ;;
    _ <~ put {| hessian_is_up_to_date := hessian_is_up_to_date c;
                times_after_hessian_shaking := (times_after_hessian_shaking c + 1)%Z |} ;;
    match PCG.x pcg_status with
    | None => no_step l2
    | Some px => candidate l2 pcg_status px
    end.

(** [while True], for at most [fuel] passes; [None] when they are used up. *)
Fixpoint main_loop (fuel : nat) (l : locals) : M (option Trust_Region_Result.t) :=
  match fuel with
  | O => ret None
  | S fuel' =>
      o <~ loop_body l ;;
      match o with
      | Return res => ret (Some res)
      | Continue l' => main_loop fuel' l'
      end
  end.

(** [loop_top l0 c0 l c]: when the loop is entered with [l0] and [c0],
    some pass of it is entered with the variables [l] and [c]. *)
Inductive loop_top (l0 : locals) (c0 : closure) : locals -> closure -> Prop :=
| top_first : loop_top l0 c0 l0 c0
| top_next (l : locals) (c : closure) (l' : locals) (c' : closure) :
    loop_top l0 c0 l c ->
    loop_body l c = Ok (Continue l', c') ->
    loop_top l0 c0 l' c'.

End Loop.

(** trust_region.py:129-144. *)
Definition initialise (x : vec) : M locals :=
  let iter := 0%Z in
  let delta := init_delta opts in
  if negb (check x constraints) then raise (AssertionError start_is_feasible)
  else
    let fval := objective x in
    let '(grad, cs) := get_info x iter PosInf 0 in
    H <~ make_hess x ;;
    ret {| iter := iter; x := x; fval := fval; grad := grad; H := H;
           _constr_shifted := cs; delta := delta;
           init_grad_infnorm := infnorm grad;
           old_fval := fval; stall_iter := 0%Z |}.

(** The input shapes of the [dyn_check_5] decorator, with [N = len(x)]. *)
Definition dyn_check (x : vec) : bool := shape_ok (length x) constraints.

(** trust_region.py:96-98. *)
Definition hessian_shaking (x : vec) : Z :=
  match shaking opts with
  | x_shape_0 => Z.of_nat (length x)
  | Fixed k => k
  end.

(** The closure as lines 99-100 set it. *)
Definition fresh_closure : closure :=
  {| hessian_is_up_to_date := false; times_after_hessian_shaking := 0 |}.

(** trust_region.py:70-229 with the loop cut off after [fuel] passes.
    The output check [assertNoInfNaN(output.x)] holds of every vector of
    rationals and is left out. *)
Definition trust_region_fuel (fuel : nat) (x : vec)
  : result (option Trust_Region_Result.t * closure) :=
  if negb (dyn_check x) then Raise TypeError
  else if negb (constraint_check constraints x) then
    Raise (AssertionError constraint_check_passes)
  else
    (l <~ initialise x ;; main_loop (hessian_shaking x) fuel l) fresh_closure.

(** [iter] grows by one in every pass and a pass with [iter > max_iter]
    returns, so this many passes are always enough
    ([trust_region_returns] below). *)
Definition enough_fuel : nat := S (Z.to_nat (max_iter opts + 1)).

Definition trust_region (x : vec) : result (option Trust_Region_Result.t * closure) :=
  trust_region_fuel enough_fuel x.

End Driver.

End TrustRegion.

(* ------------------------------------------------------------------ *)
(** ** A one-dimensional instance

    The collaborators of the driver, filled in for the objective
    [f(x) = x^2 / 2] on the real line without constraints.  In one
    dimension [sqrt (x @ x)] is the absolute value, so the status of the
    subproblem solver can be built exactly. *)

Module Quadratic1D.

Import Linneq.

Definition objective (x : vec) : Q :=
  match x with
  | [a] => a * a / 2
  | _ => 0
  end.

Definition infinity_norm (v : vec) : Q := fold_right (fun a m => Qmax (Qabs a) m) 0 v.

(** The gradient of [f] at [x] is [x]. *)
Definition make_gradient (x : vec) (_ : constraints) (_ : TrustRegion.Trust_Region_Options)
  (_ : Z) (_ : ext) (_ : Q) : TrustRegion.Gradient :=
  {| TrustRegion.value := x; TrustRegion.infnorm := infinity_norm x |}.

Definition make_hessian (_ : vec) (_ : constraints) (_ : TrustRegion.Trust_Region_Options)
  : matrix := [[1]].

Definition constraint_check (_ : constraints) : bool := true.

(** The quadratic model, [fval] of pcg.py:196-197. *)
Definition model (g : vec) (H : matrix) (p : vec) : Q :=
  dot g p + dot (vscale (1 # 2) p) (matvec H p).

(** The inner solver with the preconditioner [R = 1], and the status
    built from its result as pcg.py:227-230 does. *)
Definition pcg (g : vec) (H : matrix) (c : constraints) (delta : Q) : PCG.PCG_Status :=
  match PCG._implimentation check constraint_check H [1] c delta g with
  | Ok (p1, _, iter, exit1) =>
      if forallb (fun a => Qeq_bool a 0) p1 then
        PCG.Build_PCG_Status None None (Z.of_nat iter) exit1 None
      else
        PCG.Build_PCG_Status (Some p1) (Some (model g H p1)) (Z.of_nat iter) exit1
                             (Some (infinity_norm p1))
  | Raise _ => PCG.Build_PCG_Status None None 0 PCG.POLICY_ONLY None
  end.

Definition unconstrained : constraints :=
  {| A := []; b := []; lb := [NegInf]; ub := [PosInf] |}.

Definition trust_region (opts : TrustRegion.Trust_Region_Options) (x : vec) :=
  TrustRegion.trust_region objective make_gradient make_hessian pcg check
    (fun c _ => constraint_check c) unconstrained opts x.

(** Options that let the stall detector fire after one accepted step. *)
Definition stall_options : TrustRegion.Trust_Region_Options :=
  let d := TrustRegion.default_options 10 in
  {| TrustRegion.border_abstol := TrustRegion.border_abstol d;
     TrustRegion.tol_step := TrustRegion.tol_step d;
     TrustRegion.tol_grad := TrustRegion.tol_grad d;
     TrustRegion.abstol_fval := Some 1;
     TrustRegion.max_stall_iter := Some 1%Z;
     TrustRegion.init_delta := TrustRegion.init_delta d;
     TrustRegion.max_iter := TrustRegion.max_iter d;
     TrustRegion.check_rel := TrustRegion.check_rel d;
     TrustRegion.check_abs := TrustRegion.check_abs d;
     TrustRegion.check_iter := TrustRegion.check_iter d;
     TrustRegion.shaking := TrustRegion.shaking d;
     TrustRegion.display := TrustRegion.display d |}.

(** The loop variables of [_implimentation] on [g = (-1)], [H = (1)],
    [R = (1)], [delta = 10] after its single pass. *)
Definition after_one_pass : PCG.cg_state :=
  {| PCG.p := [1]; PCG.r := [0]; PCG.z := [0]; PCG.direct := [0]; PCG.inner1 := 0 |}.

(** The step must stay between -1 and 1/2. *)
Definition bounded : constraints :=
  {| A := [[1]]; b := [1 # 2]; lb := [Fin (-1)]; ub := [PosInf] |}.

(** The problem of dimension 0: every array is empty. *)
Definition empty : constraints := {| A := []; b := []; lb := []; ub := [] |}.

(** A bundle in the plane: one linear constraint, a finite and an
    infinite bound on each side. *)
Definition planar : constraints :=
  {| A := [[1; 2]]; b := [10]; lb := [Fin 0; NegInf]; ub := [Fin 5; PosInf] |}.

(** The driver's variables at the minimiser [x = 0], where the gradient
    vanishes and the solver returns no step. *)
Definition at_minimum : TrustRegion.locals :=
  {| TrustRegion.iter := 1;
     TrustRegion.x := [0];
     TrustRegion.fval := 0;
     TrustRegion.grad := {| TrustRegion.value := [0]; TrustRegion.infnorm := 0 |};
     TrustRegion.H := [[1]];
     TrustRegion._constr_shifted := unconstrained;
     TrustRegion.delta := 2;
     TrustRegion.init_grad_infnorm := 1;
     TrustRegion.old_fval := 0;
     TrustRegion.stall_iter := 0 |}.

(** The driver's variables in the run from [x = 1] with the default
    options: on entry to the loop, after the first pass (the Newton step
    to the minimiser is accepted and the radius doubled) and after the
    second (no step, the radius is divided by 4). *)
Definition run_start : TrustRegion.locals :=
  {| TrustRegion.iter := 0;
     TrustRegion.x := [1];
     TrustRegion.fval := 1 # 2;
     TrustRegion.grad := {| TrustRegion.value := [1]; TrustRegion.infnorm := 1 |};
     TrustRegion.H := [[1]];
     TrustRegion._constr_shifted := unconstrained;
     TrustRegion.delta := 1;
     TrustRegion.init_grad_infnorm := 1;
     TrustRegion.old_fval := 1 # 2;
     TrustRegion.stall_iter := 0 |}.

Definition run_pass1 : TrustRegion.locals :=
  {| TrustRegion.iter := 1;
     TrustRegion.x := [0];
     TrustRegion.fval := 0 # 2;
     TrustRegion.grad := {| TrustRegion.value := [0]; TrustRegion.infnorm := 0 |};
     TrustRegion.H := [[1]];
     TrustRegion._constr_shifted := unconstrained;
     TrustRegion.delta := 2;
     TrustRegion.init_grad_infnorm := 1;
     TrustRegion.old_fval := 0 # 2;
     TrustRegion.stall_iter := 0 |}.

Definition run_pass2 : TrustRegion.locals :=
  {| TrustRegion.iter := 2;
     TrustRegion.x := [0];
     TrustRegion.fval := 0 # 2;
     TrustRegion.grad := {| TrustRegion.value := [0]; TrustRegion.infnorm := 0 |};
     TrustRegion.H := [[1]];
     TrustRegion._constr_shifted := unconstrained;
     TrustRegion.delta := 2 # 4;
     TrustRegion.init_grad_infnorm := 1;
     TrustRegion.old_fval := 0 # 2;
     TrustRegion.stall_iter := 0 |}.

(** A current Hessian, [n] passes after the last refresh. *)
Definition current (n : Z) : TrustRegion.closure :=
  {| TrustRegion.hessian_is_up_to_date := true;
     TrustRegion.times_after_hessian_shaking := n |}.

(** A stale Hessian, [n] passes after the last refresh. *)
Definition stale (n : Z) : TrustRegion.closure :=
  {| TrustRegion.hessian_is_up_to_date := false;
     TrustRegion.times_after_hessian_shaking := n |}.

End Quadratic1D.

(* ------------------------------------------------------------------ *)
(** ** pcg.py, the policy wrapper *)

(** Two vectors with equal entries; the entries of a computed vector
    are fractions that need not be in lowest terms. *)
Definition veq (u v : vec) : Prop := Forall2 Qeq u v.

(** [v @ M] for a one-dimensional [v]: the rows of [M], each scaled by
    its entry of [v], added up. *)
Definition vecmat (v : vec) (M : matrix) : vec :=
  fold_right vadd (zeros (length v)) (map2 vscale v M).

Module Policy.

Import Linneq PCG.

(** The [assert] statements of [pcg] and its checkers, by place. *)
Inductive assertion_site : Type :=
| direct_is_None          (* pcg.py:215 *)
| direct_is_not_None      (* pcg.py:217 *)
| ret1_fval_is_not_None   (* pcg.py:242 *)
| ret2_fval_is_not_None   (* pcg.py:243 *)
| output_fval_is_not_None (* pcg.py:162 *)
| output_fval_is_None.    (* pcg.py:166 *)

Inductive error : Type :=
| Solver (e : exn)                 (* raised inside [_implimentation] or by a decorator *)
| Assertion (a : assertion_site).

Inductive outcome (X : Type) : Type :=
| Done (a : X)
| Failed (e : error).
Arguments Done {X} a.
Arguments Failed {X} e.

Definition obind {X Y : Type} (m : outcome X) (k : X -> outcome Y) : outcome Y :=
  match m with
  | Done a => k a
  | Failed e => Failed e
  end.

Notation "x <-- m ;; k" := (obind m (fun x => k))
  (at level 61, m at next level, right associativity).

Definition lift {X : Type} (m : result X) : outcome X :=
  match m with
  | Ok a => Done a
  | Raise e => Failed (Solver e)
  end.

(** Did the call stop at one of the assertions of the wrapper? *)
Definition assertion_failed {X : Type} (o : outcome X) : bool :=
  match o with
  | Failed (Assertion _) => true
  | _ => false
  end.

Section Wrapper.

(** [math.sqrt], the helpers of [optimizer._internals.pcg] and the two
    functions of [numerical.linneq] are outside the file. *)
Variable sqrt : Q -> Q.
Variable subspace_decay :
  vec -> matrix -> vec -> vec -> Q -> constraints -> PCG_Flag -> option vec * PCG_Flag.
Variable hessian_precon : matrix -> vec.
Variable gradient_precon : vec -> vec.
Variable check : vec -> constraints -> bool.
Variable constraint_check : constraints -> bool.

(** pcg.py:199-200, also the [size] of line 38. *)
Definition norm2 (x : vec) : Q := sqrt (dot x x).

(** pcg.py:27-38, [PCG_Status.__init__]. *)
Definition new_status (x : option vec) (fval : option Q) (iter : Z) (flag : PCG_Flag)
  : PCG_Status :=
  {| x := x;
     fval := fval;
     iter := iter;
     flag := flag;
     size := match x with None => None | Some v => Some (norm2 v) end |}.

Section Pcg.

Variables (g : vec) (H : matrix) (constraints : Linneq.constraints) (delta : Q).

(** pcg.py:196-197: [g.T @ p + (0.5 * p).T @ H @ p], the products taken
    from the left. *)
Definition fval (p : vec) : Q :=
  dot g p + dot (vecmat (vscale (1 # 2) p) H) p.

(** The test of lines 221 and 225: is [(fa, pa)] better than [(fb, pb)],
    the model value first and the norm second. *)
Definition improves (fa : Q) (pa : vec) (fb : Q) (pb : vec) : bool :=
  Qlt_bool fa fb || (Qeq_bool fa fb && Qlt_bool (norm2 pa) (norm2 pb)).

(** [numpy.all(p1 == 0)]. *)
Definition all_zero (p : vec) : bool := forallb (fun a => Qeq_bool a 0) p.

(** pcg.py:214-222: the follow-up along the direction of an early exit.
    Yields the triple [(p1, fval1, exit1)] as line 223 finds it. *)
Definition follow_up (p1 : vec) (direct : option vec) (exit1 : PCG_Flag)
  : outcome (vec * Q * PCG_Flag) :=
  let fval1 := fval p1 in
  if flag_eqb exit1 RESIDUAL_CONVERGENCE then
    match direct with
    | None => Done (p1, fval1, exit1)
    | Some _ => Failed (Assertion direct_is_None)
    end
  else
    match direct with
    | None => Failed (Assertion direct_is_not_None)
    | Some d =>
        let '(p2, exit2) := subspace_decay g H p1 d delta constraints exit1 in
        match p2 with
        | Some q =>
            let fval2 := fval q in
            if Qlt_bool fval2 fval1 || (Qeq_bool fval1 fval2 && Qlt_bool (norm2 q) (norm2 p1))
            then Done (q, fval2, exit2)
            else Done (p1, fval1, exit1)
        | None => Done (p1, fval1, exit1)
        end
    end.

(** pcg.py:202-230.  When [R] has a zero entry the quotient [-g / R] is
    not finite and the call of [_implimentation] that follows raises;
    the model stops at the quotient, as [vdiv] does. *)
Definition best_policy (R : vec) : outcome PCG_Status :=
  z <-- lift (vdiv (vneg g) R) ;;
  let '(p0, exit0) :=
    subspace_decay g H (zeros (length g)) z delta constraints POLICY_ONLY in
  out <-- lift (_implimentation check constraint_check H R constraints delta g) ;;
  let '(p1, direct, iter, exit1) := out in
  best <-- follow_up p1 direct exit1 ;;
  let '(p1', fval1, exit1') := best in
  let second :=
    if all_zero p1' then new_status None None (Z.of_nat iter) exit1'
    else new_status (Some p1') (Some fval1) (Z.of_nat iter) exit1' in
  match p0 with
  | Some q =>
      let fval0 := fval q in
      if improves fval0 q fval1 p1' then Done (new_status (Some q) (Some fval0) 0 exit0)
      else Done second
  | None => Done second
  end.

(** pcg.py:235-249, the choice between the two results. *)
Definition choose (ret1 ret2 : PCG_Status) : outcome PCG_Status :=
  match x ret1, x ret2 with
  | None, None => Done ret1
  | None, Some _ => Done ret2
  | Some _, None => Done ret1
  | Some x1, Some x2 =>
      match PCG.fval ret1 with
      | None => Failed (Assertion ret1_fval_is_not_None)
      | Some f1 =>
      match PCG.fval ret2 with
      | None => Failed (Assertion ret2_fval_is_not_None)
      | Some f2 =>
          if Qlt_bool f1 f2 || (Qeq_bool f1 f2 && Qle_bool (norm2 x1) (norm2 x2))
          then Done ret1
          else Done ret2
      end end
  end.

(** pcg.py:160-166, [_pcg_output_check]; the finiteness assertions hold
    for every rational. *)
Definition output_check (output : PCG_Status) : outcome PCG_Status :=
  match x output, PCG.fval output with
  | Some _, None => Failed (Assertion output_fval_is_not_None)
  | None, Some _ => Failed (Assertion output_fval_is_None)
  | _, _ => Done output
  end.

(** The input shapes of the [dyn_check_4] decorator, with [N = len(g)]. *)
Definition dyn_check : bool :=
  let n := length g in
  Nat.eqb (length H) n
  && forallb (fun row => Nat.eqb (length row) n) H
  && shape_ok n constraints.

(** pcg.py:173-249. *)
Definition pcg : outcome PCG_Status :=
  if negb dyn_check then Failed (Solver TypeError)
  else if negb (constraint_check constraints) then
    Failed (Solver (AssertionError constraint_check_passes))
  else
    ret1 <-- best_policy (hessian_precon H) ;;
    ret2 <-- best_policy (gradient_precon g) ;;
    ret <-- choose ret1 ret2 ;;
    output_check ret.

End Pcg.

End Wrapper.

End Policy.

(* ------------------------------------------------------------------ *)
(** ** Statuses of the policy wrapper *)

(** A status made by [PCG_Status.__init__] from a step and its model
    value, or from no step at all: [x], [fval] and [size] are present
    together, [fval] is the model value of [x] and [size] its norm. *)
Definition built_from (sqrt : Q -> Q) (g : vec) (H : matrix) (st : PCG.PCG_Status) : Prop :=
  match PCG.x st with
  | Some v => PCG.fval st = Some (Policy.fval g H v) /\
              PCG.size st = Some (Policy.norm2 sqrt v)
  | None => PCG.fval st = None /\ PCG.size st = None
  end.

(** Did the driver stop at one of its assertions on the status,
    trust_region.py:180-181? *)
Definition status_assertion_failed {X : Type} (r : result X) : bool :=
  match r with
  | Raise (AssertionError fval_is_not_None) => true
  | Raise (AssertionError size_is_not_None) => true
  | _ => false
  end.

(* ------------------------------------------------------------------ *)
(** ** Invariants of the driver *)

(** What the variables of [trust_region] satisfy between the statements
    of the main loop, for a run started at [x0].  [good] is a property
    of points and [fine] a property of radii that the run is to keep. *)
Definition driver_invariant
  (objective : vec -> Q)
  (make_gradient :
     vec -> Linneq.constraints -> TrustRegion.Trust_Region_Options -> Z -> Linneq.ext -> Q ->
     TrustRegion.Gradient)
  (make_hessian : vec -> Linneq.constraints -> TrustRegion.Trust_Region_Options -> matrix)
  (constraints : Linneq.constraints) (opts : TrustRegion.Trust_Region_Options)
  (good : vec -> Prop) (fine : Q -> Prop) (x0 : vec)
  (l : TrustRegion.locals) (c : TrustRegion.closure) : Prop :=
  TrustRegion.fval l = objective (TrustRegion.x l) /\
  (exists i e n0,
     TrustRegion.grad l = make_gradient (TrustRegion.x l) constraints opts i e n0) /\
  TrustRegion._constr_shifted l = Linneq.shift constraints (TrustRegion.x l) /\
  (TrustRegion.hessian_is_up_to_date c = true ->
   TrustRegion.H l = make_hessian (TrustRegion.x l) constraints opts) /\
  TrustRegion.fval l <= objective x0 /\
  (0 <= TrustRegion.iter l <= Z.max 0 (TrustRegion.max_iter opts + 1))%Z /\
  good (TrustRegion.x l) /\
  fine (TrustRegion.delta l).

(** What a pass of the main loop leaves behind: the invariant for the
    variables with which the loop goes on, or a result made of variables
    that satisfy it. *)
Definition pass_keeps
  (objective : vec -> Q)
  (make_gradient :
     vec -> Linneq.constraints -> TrustRegion.Trust_Region_Options -> Z -> Linneq.ext -> Q ->
     TrustRegion.Gradient)
  (make_hessian : vec -> Linneq.constraints -> TrustRegion.Trust_Region_Options -> matrix)
  (constraints : Linneq.constraints) (opts : TrustRegion.Trust_Region_Options)
  (good : vec -> Prop) (fine : Q -> Prop) (x0 : vec)
  (o : TrustRegion.outcome) (c' : TrustRegion.closure) : Prop :=
  match o with
  | TrustRegion.Return res =>
      exists l',
        driver_invariant objective make_gradient make_hessian constraints opts
          good fine x0 l' c' /\
        res = TrustRegion.Trust_Region_Result.mk
                (TrustRegion.x l') (TrustRegion.iter l') (TrustRegion.delta l')
                (TrustRegion.grad l') (TrustRegion.Trust_Region_Result.success res)
  | TrustRegion.Continue l' =>
      driver_invariant objective make_gradient make_hessian constraints opts
        good fine x0 l' c'
  end.

(* ------------------------------------------------------------------ *)
(** ** Invariants of the inner solver *)

(** What the loop variables of [_implimentation] satisfy at the top of
    every pass, for a problem of dimension [n]: the four vectors have
    length [n], [r] is the negative gradient [-(g + H p)] of the model at
    [p], [z] is [r / R], [inner1] is [r . z], and it is also
    [r . direct]. *)
Definition cg_invariant (n : nat) (g : vec) (H : matrix) (R : vec) (s : PCG.cg_state)
  : Prop :=
  length (PCG.p s) = n /\
  length (PCG.r s) = n /\
  length (PCG.z s) = n /\
  length (PCG.direct s) = n /\
  veq (PCG.r s) (vneg (vadd g (matvec H (PCG.p s)))) /\
  vdiv (PCG.r s) R = Ok (PCG.z s) /\
  PCG.inner1 s = dot (PCG.r s) (PCG.z s) /\
  dot (PCG.r s) (PCG.direct s) == PCG.inner1 s.

(* ------------------------------------------------------------------ *)
(** ** A problem in the plane *)

(** Stand-ins for the collaborators of [pcg] that are outside the file,
    and a problem of dimension 2 to run them on. *)
Module Planar.

Import Linneq.

(** For [math.sqrt]: exact on a quotient of two squares, rounded down
    elsewhere. *)
Definition sqrt (q : Q) : Q := Z.sqrt (Qnum q) # Pos.sqrt (Qden q).

(** For [subspace_decay]: the full step along [direct] when it stays in
    the region and satisfies the constraints, else half of it when that
    does, else no point. *)
Definition subspace_decay (g : vec) (H : matrix) (origin direct : vec) (delta : Q)
  (c : constraints) (fl : PCG.PCG_Flag) : option vec * PCG.PCG_Flag :=
  let full := vadd origin direct in
  let half := vadd origin (vscale (1 # 2) direct) in
  if negb (norm_gt full delta) && check full c then (Some full, fl)
  else if negb (norm_gt half delta) && check half c then (Some half, fl)
  else (None, fl).

(** For the two preconditioners: no scaling. *)
Definition hessian_precon (H : matrix) : vec := map (fun _ => 1) H.
Definition gradient_precon (g : vec) : vec := map (fun _ => 1) g.

Definition pcg (g : vec) (H : matrix) (c : constraints) (delta : Q)
  : Policy.outcome PCG.PCG_Status :=
  Policy.pcg sqrt subspace_decay hessian_precon gradient_precon check
    Quadratic1D.constraint_check g H c delta.

Definition identity : matrix := [[1; 0]; [0; 1]].

(** [p1 + p2 <= 2], [-1 <= p1] and [p2 <= 4]. *)
Definition box : constraints :=
  {| A := [[1; 1]]; b := [2]; lb := [Fin (-1); NegInf]; ub := [PosInf; Fin 4] |}.

(** A solver that never finds a step. *)
Definition never (_ : vec) (_ : matrix) (_ : constraints) (_ : Q) : PCG.PCG_Status :=
  PCG.Build_PCG_Status None None 0 PCG.POLICY_ONLY None.

(** The status that [pcg] returns for [g = (-1, -2)], [H = identity] and
    [delta = 10] under [box]: half of the steepest-descent step. *)
Definition half_step : PCG.PCG_Status :=
  {| PCG.x := Some [1 # 2; 2 # 2];
     PCG.fval := Some (-7680 # 4096);
     PCG.iter := 0;
     PCG.flag := PCG.VIOLATE_CONSTRAINTS;
     PCG.size := Some (4 # 4) |}.

(** The status that [pcg] returns for [g = (-1)], [H = (1)] and
    [delta = 10] under [Quadratic1D.bounded]. *)
Definition half_step_1d : PCG.PCG_Status :=
  {| PCG.x := Some [1 # 2];
     PCG.fval := Some (-6 # 16);
     PCG.iter := 0;
     PCG.flag := PCG.VIOLATE_CONSTRAINTS;
     PCG.size := Some (1 # 2) |}.

End Planar.

(* ------------------------------------------------------------------ *)
(** ** Binary64 *)

Module F64.

(** IEEE 754 binary64: 53 bits of mantissa, infinities at exponent 1024;
    every operation rounds to nearest, ties to even. *)
Definition prec : Z := 53.
Definition emax : Z := 1024.

Definition float : Type := SpecFloat.spec_float.

Definition pos_zero : float := SpecFloat.S754_zero false.
Definition pos_inf : float := SpecFloat.S754_infinity false.
Definition neg_inf : float := SpecFloat.S754_infinity true.

(** The float nearest to [m * 2^e]. *)
Definition of_dyadic (m e : Z) : float := SpecFloat.binary_normalize prec emax m e false.

Definition add : float -> float -> float := SpecFloat.SFadd prec emax.
Definition sub : float -> float -> float := SpecFloat.SFsub prec emax.
Definition mul : float -> float -> float := SpecFloat.SFmul prec emax.
Definition div : float -> float -> float := SpecFloat.SFdiv prec emax.
Definition sqrt : float -> float := SpecFloat.SFsqrt prec emax.
Definition neg : float -> float := SpecFloat.SFopp.
Definition abs : float -> float := SpecFloat.SFabs.
Definition ltb : float -> float -> bool := SpecFloat.SFltb.
Definition leb : float -> float -> bool := SpecFloat.SFleb.
Definition eqb : float -> float -> bool := SpecFloat.SFeqb.

Definition is_nan (a : float) : bool :=
  match a with
  | SpecFloat.S754_nan => true
  | _ => false
  end.

Definition is_finite (a : float) : bool :=
  match a with
  | SpecFloat.S754_zero _ | SpecFloat.S754_finite _ _ _ => true
  | _ => false
  end.

(** The number that a finite float in canonical form stands for. *)
Definition to_Q (a : float) : option Q :=
  match a with
  | SpecFloat.S754_zero _ => Some 0
  | SpecFloat.S754_finite s m e =>
      if SpecFloat.bounded prec emax m e
      then Some (inject_Z (if s then Z.neg m else Z.pos m) * 2 ^ e)
      else None
  | _ => None
  end.

(** [a / b] on two Python floats: raises on a zero divisor. *)
Definition pdiv (a b : float) : result float :=
  if eqb b pos_zero then Raise ZeroDivisionError else Ok (div a b).

Definition fvec : Type := list float.
Definition fmatrix : Type := list fvec.

Definition zeros (n : nat) : fvec := repeat pos_zero n.
Definition vneg (v : fvec) : fvec := map neg v.
Definition vadd (u v : fvec) : fvec := map2 add u v.
Definition vsub (u v : fvec) : fvec := map2 sub u v.
Definition vscale (a : float) (v : fvec) : fvec := map (mul a) v.
Definition vdiv (u v : fvec) : fvec := map2 div u v.

(** [u @ v]: the products are accumulated in index order.  numpy leaves
    the order to its BLAS; for one or two entries every order gives the
    same float. *)
Definition dot (u v : fvec) : float := fold_left add (map2 mul u v) pos_zero.
Definition matvec (M : fmatrix) (v : fvec) : fvec := map (fun row => dot row v) M.

(** [numpy.linalg.norm(v)] for a vector: [sqrt(v.dot(v))]. *)
Definition norm (v : fvec) : float := sqrt (dot v v).

(** [numpy.maximum]: a nan operand wins. *)
Definition fmax (a b : float) : float :=
  if is_nan a then a else if is_nan b then b else if ltb a b then b else a.

(** [numpy.max(numpy.abs(z))]. *)
Definition max_abs (v : fvec) : result float :=
  match v with
  | [] => Raise ValueError
  | a :: t => Ok (fold_left fmax (map abs t) (abs a))
  end.

(** [assertNoInfNaN]. *)
Definition all_finite (v : fvec) : bool := forallb is_finite v.

(** [numpy.sqrt(numpy.finfo(float64).eps)] is [2^-26]. *)
Definition sqrt_eps : float := of_dyadic 1 (-26).

End F64.

(* ------------------------------------------------------------------ *)
(** ** Constraint bundles in binary64 *)

(** The constraint bundle with float entries; infinite bounds are the
    floats [inf] and [-inf]. *)
Module FLinneq.

Import F64.

Record constraints : Type := Constraints {
  A : fmatrix;
  b : fvec;
  lb : fvec;
  ub : fvec
}.

Definition shape_ok (n : nat) (c : constraints) : bool :=
  forallb (fun row => Nat.eqb (length row) n) (A c)
  && Nat.eqb (length (b c)) (length (A c))
  && Nat.eqb (length (lb c)) n
  && Nat.eqb (length (ub c)) n.

(** Modelled from the spec: [numerical.linneq.check] on floats:
    [A x <= b] and [lb <= x <= ub], entry by entry. *)
Definition check (p : fvec) (c : constraints) : bool :=
  Linneq.forallb2 leb (matvec (A c) p) (b c)
  && Linneq.forallb2 leb (lb c) p
  && Linneq.forallb2 leb p (ub c).

(** trust_region.py:117-118, inside [get_info]:
    [_constr_shifted = (A, b - A @ x, lb - x, ub - x)], each difference
    rounded. *)
Definition shift (c : constraints) (x : fvec) : constraints :=
  {| A := A c;
     b := vsub (b c) (matvec (A c) x);
     lb := vsub (lb c) x;
     ub := vsub (ub c) x |}.

End FLinneq.

(* ------------------------------------------------------------------ *)
(** ** pcg.py in binary64 *)

(** [_implimentation] with the operations of numpy and of Python floats:
    an array division by zero yields inf or nan and goes on, a division
    of two Python floats by zero raises, and the two checkers reject
    arrays that are not finite ([NonFinite]). *)
Module FPCG.

Import F64.

Definition output : Type := (fvec * option fvec * nat * PCG.PCG_Flag)%type.

Record cg_state : Type := CG {
  p : fvec;
  r : fvec;
  z : fvec;
  direct : fvec;
  inner1 : float
}.

Inductive step : Type :=
| Exit (out : output)
| Next (s : cg_state).

Section Implimentation.

Variable check : fvec -> FLinneq.constraints -> bool.
Variable constraint_check : FLinneq.constraints -> bool.

Variables (H : fmatrix) (R : fvec) (constraints : FLinneq.constraints) (delta : float).

(** pcg.py:110-145. *)
Definition iteration (iter : nat) (s : cg_state) : result step :=
  m <- max_abs (z s) ;;
  if ltb m sqrt_eps then
    Ok (Exit (p s, None, iter, PCG.RESIDUAL_CONVERGENCE))
  else
    let ww := matvec H (direct s) in
    let denom := dot (direct s) ww in
    if leb denom pos_zero then
      Ok (Exit (p s, Some (direct s), iter, PCG.NEGATIVE_CURVATURE))
    else
      alpha <- pdiv (inner1 s) denom ;;
      let pnew := vadd (p s) (vscale alpha (direct s)) in
      if ltb delta (norm pnew) then
        Ok (Exit (p s, Some (direct s), iter, PCG.OUT_OF_TRUST_REGION))
      else if negb (check pnew constraints) then
        Ok (Exit (p s, Some (direct s), iter, PCG.VIOLATE_CONSTRAINTS))
      else
        let r' := vsub (r s) (vscale alpha ww) in
        let z' := vdiv r' R in
        let inner2 := inner1 s in
        let inner1' := dot r' z' in
        beta <- pdiv inner1' inner2 ;;
        Ok (Next {| p := pnew;
                    r := r';
                    z := z';
                    direct := vadd z' (vscale beta (direct s));
                    inner1 := inner1' |}).

Fixpoint for_range (indices : list nat) (last : option nat) (s : cg_state)
  : result output :=
  match indices with
  | [] =>
      match last with
      | None => Raise UnboundLocalError
      | Some iter => Ok (p s, None, iter, PCG.RESIDUAL_CONVERGENCE)
      end
  | iter :: rest =>
      st <- iteration iter s ;;
      match st with
      | Exit out => Ok out
      | Next s' => for_range rest (Some iter) s'
      end
  end.

Definition dyn_check (g : fvec) : bool :=
  let n := length g in
  Nat.eqb (length H) n
  && forallb (fun row => Nat.eqb (length row) n) H
  && Nat.eqb (length R) n
  && FLinneq.shape_ok n constraints.

(** pcg.py:101-107. *)
Definition initial (g : fvec) : cg_state :=
  let r0 := vneg g in
  let z0 := vdiv r0 R in
  {| p := zeros (length g); r := r0; z := z0; direct := z0; inner1 := dot r0 z0 |}.

(** pcg.py:54-60, [_impl_output_check]. *)
Definition output_check (out : output) : bool :=
  let '(pt, d, _, _) := out in
  all_finite pt && match d with Some v => all_finite v | None => true end.

(** pcg.py:67-147 with its two decorators. *)
Definition _implimentation (g : fvec) : result output :=
  if negb (dyn_check g) then Raise TypeError
  else if negb (all_finite g && forallb all_finite H && all_finite R) then Raise NonFinite
  else if negb (constraint_check constraints) then
    Raise (AssertionError constraint_check_passes)
  else if negb (is_finite delta) then Raise NonFinite
  else
    out <- for_range (seq 0 (length g)) None (initial g) ;;
    if output_check out then Ok out else Raise NonFinite.

End Implimentation.

End FPCG.

(* ------------------------------------------------------------------ *)
(** ** Floats and rationals *)

(** A float stands for a rational, a bound for a rational or an infinity. *)
Definition represents (a : F64.float) (q : Q) : Prop :=
  match F64.to_Q a with
  | Some q' => q' == q
  | None => False
  end.

Definition represents_bound (a : F64.float) (e : Linneq.ext) : Prop :=
  match e with
  | Linneq.NegInf => a = F64.neg_inf
  | Linneq.PosInf => a = F64.pos_inf
  | Linneq.Fin q => represents a q
  end.

Definition exact_vec (v : F64.fvec) (q : vec) : Prop := Forall2 represents v q.
Definition exact_matrix (M : F64.fmatrix) (Mq : matrix) : Prop := Forall2 exact_vec M Mq.
Definition exact_bundle (c : FLinneq.constraints) (cq : Linneq.constraints) : Prop :=
  exact_matrix (FLinneq.A c) (Linneq.A cq) /\
  exact_vec (FLinneq.b c) (Linneq.b cq) /\
  Forall2 represents_bound (FLinneq.lb c) (Linneq.lb cq) /\
  Forall2 represents_bound (FLinneq.ub c) (Linneq.ub cq).

(** The size of a finite float: mantissa times power of two. *)
Definition magnitude (m : positive) (e : Z) : Q := inject_Z (Z.pos m) * 2 ^ e.

(* ------------------------------------------------------------------ *)
(** ** Inputs on which rounding shows *)

Module Rounding.

Import F64.

Definition constraint_check (_ : FLinneq.constraints) : bool := true.

Definition one : float := of_dyadic 1 0.

(** [2^-30], [2^-600] and [2^-700]. *)
Definition small : float := of_dyadic 1 (-30).
Definition tiny : float := of_dyadic 1 (-600).
Definition tinier : float := of_dyadic 1 (-700).

Definition identity : fmatrix := [[one; pos_zero]; [pos_zero; one]].

(** No constraint, in dimension 1 and 2. *)
Definition free1 : FLinneq.constraints :=
  {| FLinneq.A := []; FLinneq.b := []; FLinneq.lb := [neg_inf]; FLinneq.ub := [pos_inf] |}.
Definition free2 : FLinneq.constraints :=
  {| FLinneq.A := []; FLinneq.b := [];
     FLinneq.lb := [neg_inf; neg_inf]; FLinneq.ub := [pos_inf; pos_inf] |}.

(** The floats that Python writes 0.1, 0.7 and 0.6, and the rationals
    they are. *)
Definition tenth : float := of_dyadic 7205759403792794 (-56).
Definition seven_tenths : float := of_dyadic 6305039478318694 (-53).
Definition six_tenths : float := of_dyadic 5404319552844595 (-53).
Definition tenth_exactly : Q := 7205759403792794 # (2 ^ 56).
Definition seven_tenths_exactly : Q := 6305039478318694 # (2 ^ 53).
Definition six_tenths_exactly : Q := 5404319552844595 # (2 ^ 53).

(** The bundle [0.1 <= x], in floats and in rationals. *)
Definition above_tenth : FLinneq.constraints :=
  {| FLinneq.A := []; FLinneq.b := []; FLinneq.lb := [tenth]; FLinneq.ub := [pos_inf] |}.
Definition above_tenth_exactly : Linneq.constraints :=
  {| Linneq.A := []; Linneq.b := [];
     Linneq.lb := [Linneq.Fin tenth_exactly]; Linneq.ub := [Linneq.PosInf] |}.

(** [Quadratic1D.planar] in floats. *)
Definition planar : FLinneq.constraints :=
  {| FLinneq.A := [[one; of_dyadic 2 0]];
     FLinneq.b := [of_dyadic 10 0];
     FLinneq.lb := [pos_zero; neg_inf];
     FLinneq.ub := [of_dyadic 5 0; pos_inf] |}.

End Rounding.

(* ================================================================== *)
(** * Properties *)

(** ** Comparisons and norms *)

Lemma Qlt_bool_true (a b : Q) : Qlt_bool a b = true <-> a < b.
Proof.
  unfold Qlt_bool. rewrite negb_true_iff.
  split; intro Hab.
  - apply Qnot_le_lt. intro Hle. apply Qle_bool_iff in Hle. congruence.
  - destruct (Qle_bool b a) eqn:E; [|reflexivity].
    apply Qle_bool_iff in E. exfalso. exact (Qlt_not_le _ _ Hab E).
Qed.

Lemma Qlt_bool_false (a b : Q) : Qlt_bool a b = false <-> b <= a.
Proof.
  unfold Qlt_bool. rewrite negb_false_iff. apply Qle_bool_iff.
Qed.

Lemma Qle_bool_false (a b : Q) : Qle_bool a b = false <-> b < a.
Proof.
  split; intro Hab.
  - apply Qnot_le_lt. intro Hle. apply Qle_bool_iff in Hle. congruence.
  - destruct (Qle_bool a b) eqn:E; [|reflexivity].
    apply Qle_bool_iff in E. exfalso. exact (Qlt_not_le _ _ Hab E).
Qed.

Lemma vsum_squares_nonneg (v : vec) : 0 <= dot v v.
Proof.
  unfold dot. induction v as [|a v IH]; simpl.
  - apply Qle_refl.
  - assert (Ha : 0 <= a * a).
    { destruct (Qlt_le_dec a 0) as [Hn|Hp].
      - setoid_replace (a * a) with ((- a) * (- a)) by ring.
        apply Qmult_le_0_compat; apply (Qopp_le_compat a 0); apply Qlt_le_weak; exact Hn.
      - apply Qmult_le_0_compat; exact Hp. }
    setoid_replace 0 with (0 + 0) by ring.
    apply Qplus_le_compat; assumption.
Qed.

(** What a failed radius test says about the trial point. *)
Lemma norm_gt_false (v : vec) (d : Q) :
  norm_gt v d = false -> 0 <= d /\ dot v v <= d * d.
Proof.
  unfold norm_gt. intro Hf. apply orb_false_iff in Hf. destruct Hf as [H1 H2].
  split; [apply Qlt_bool_false in H1 | apply Qlt_bool_false in H2]; assumption.
Qed.

Lemma sqrt_le_of_square_le (s d : Q) :
  0 <= d -> s <= d * d -> (sqrt (Q2R s) <= Q2R d)%R.
Proof.
  intros Hd Hs.
  apply Qle_Rle in Hd. apply Qle_Rle in Hs.
  rewrite Q2R_mult in Hs.
  replace (Q2R 0) with 0%R in Hd by (unfold Q2R; simpl; Lra.lra).
  rewrite <- (sqrt_square (Q2R d)) by exact Hd.
  apply sqrt_le_1_alt. exact Hs.
Qed.

(** [norm_gt] is the comparison of the real Euclidean norm with [d]. *)
Lemma norm_gt_sqrt (v : vec) (d : Q) :
  norm_gt v d = true <-> (Q2R d < norm2 v)%R.
Proof.
  unfold norm2.
  assert (H0 : Q2R 0 = 0%R) by (unfold Q2R; simpl; Lra.lra).
  pose proof (vsum_squares_nonneg v) as Hnn. apply Qle_Rle in Hnn. rewrite H0 in Hnn.
  destruct (norm_gt v d) eqn:E.
  - split; [intros _ | reflexivity].
    unfold norm_gt in E. apply orb_true_iff in E. destruct E as [E|E].
    + apply Qlt_bool_true in E. apply Qlt_Rlt in E. rewrite H0 in E.
      pose proof (sqrt_pos (Q2R (dot v v))). Lra.lra.
    + apply Qlt_bool_true in E. apply Qlt_Rlt in E. rewrite Q2R_mult in E.
      destruct (Rlt_le_dec (Q2R d) 0) as [Hn|Hp].
      * pose proof (sqrt_pos (Q2R (dot v v))). Lra.lra.
      * rewrite <- (sqrt_square (Q2R d)) by exact Hp.
        apply sqrt_lt_1_alt. split; [|exact E].
        apply Rmult_le_pos; exact Hp.
  - split; [discriminate | intro Hlt; exfalso].
    apply norm_gt_false in E. destruct E as [Hd Hs].
    pose proof (sqrt_le_of_square_le _ _ Hd Hs). Lra.lra.
Qed.

(** The constant of the residual test is the root of the machine epsilon. *)
Lemma sqrt_eps_is_root : (sqrt (Q2R eps) = Q2R sqrt_eps)%R.
Proof.
  assert (Hsq : Q2R eps = (Q2R sqrt_eps * Q2R sqrt_eps)%R).
  { rewrite <- Q2R_mult. apply Qeq_eqR. reflexivity. }
  rewrite Hsq. apply sqrt_square.
  unfold Q2R, sqrt_eps. simpl.
  apply Rmult_le_pos; [Lra.lra|].
  apply Rlt_le, Rinv_0_lt_compat. apply IZR_lt. reflexivity.
Qed.

(* ------------------------------------------------------------------ *)
(** ** The PCG inner solver *)

Section ImplimentationFacts.

Import PCG.

Variable check : vec -> Linneq.constraints -> bool.
Variable constraint_check : Linneq.constraints -> bool.
Variables (Hm : matrix) (R : vec) (c : Linneq.constraints) (delta : Q).

(** A pass that leaves through a [return] hands back the point it was
    entered with, under its own index; the residual exit carries no
    direction and every other exit carries the current one. *)
Lemma iteration_exit (i : nat) (s : cg_state) (out : output) :
  iteration check Hm R c delta i s = Ok (Exit out) ->
  exists d fl,
    out = (p s, d, i, fl) /\
    (fl = RESIDUAL_CONVERGENCE /\ d = None \/
     flag_eqb fl RESIDUAL_CONVERGENCE = false /\ fl <> POLICY_ONLY /\ d = Some (direct s)).
Proof.
  unfold iteration, bind, fdiv. intro Hrun.
  destruct (max_abs (z s)); [|discriminate].
  repeat match type of Hrun with
         | (if ?b then _ else _) = _ => destruct b
         | match ?m with Ok _ => _ | Raise _ => _ end = _ => destruct m
         end;
    inversion Hrun; subst; eexists; eexists; (split; [reflexivity|]);
    solve [left; split; reflexivity
          | right; split; [reflexivity|split; [discriminate|reflexivity]]].
Qed.

(** A pass that falls through has replaced the point by a trial point
    that passed the radius test and the feasibility test. *)
Lemma iteration_next (i : nat) (s s' : cg_state) :
  iteration check Hm R c delta i s = Ok (Next s') ->
  norm_gt (p s') delta = false /\ check (p s') c = true.
Proof.
  unfold iteration, bind, fdiv. intro Hrun.
  destruct (max_abs (z s)); [|discriminate].
  destruct (Qlt_bool _ _); [discriminate|].
  destruct (Qle_bool _ _); [discriminate|].
  destruct (norm_gt _ _) eqn:Hnorm; [discriminate|].
  destruct (check _ _) eqn:Hchk; [|discriminate].
  simpl in Hrun.
  destruct (vdiv _ _); [|discriminate].
  destruct (Qeq_bool _ _); [discriminate|].
  inversion Hrun; subst; simpl. split; assumption.
Qed.

(** Loop invariant: whatever holds of the entry point and of every
    trial point that passes both tests holds of the returned point. *)
Lemma for_range_invariant (P : vec -> Prop) :
  (forall v, norm_gt v delta = false -> check v c = true -> P v) ->
  forall indices last s out,
    P (p s) ->
    for_range check Hm R c delta indices last s = Ok out ->
    P (fst (fst (fst out))).
Proof.
  intros Hacc. induction indices as [|i rest IH]; intros last s out Hp Hrun; simpl in Hrun.
  - destruct last; inversion Hrun; subst; exact Hp.
  - unfold bind in Hrun.
    destruct (iteration check Hm R c delta i s) as [[o|s1]|e] eqn:Hit; [| |discriminate].
    + inversion Hrun; subst.
      destruct (iteration_exit _ _ _ Hit) as (d & fl & -> & _). exact Hp.
    + apply (IH (Some i) s1 out); [|exact Hrun].
      destruct (iteration_next _ _ _ Hit) as [Hn Hc].
      apply Hacc; assumption.
Qed.

(** The reported iteration is the index of a pass that was entered, or
    the binding the loop variable had before. *)
Lemma for_range_iter (indices : list nat) :
  forall last s pt d it fl,
    for_range check Hm R c delta indices last s = Ok (pt, d, it, fl) ->
    In it indices \/ last = Some it.
Proof.
  induction indices as [|i rest IH]; intros last s pt d it fl Hrun; simpl in Hrun.
  - destruct last; inversion Hrun; subst. right; reflexivity.
  - unfold bind in Hrun.
    destruct (iteration check Hm R c delta i s) as [[o|s1]|e] eqn:Hit; [| |discriminate].
    + inversion Hrun; subst.
      destruct (iteration_exit _ _ _ Hit) as (d' & fl' & Heq & _).
      inversion Heq; subst. left; left; reflexivity.
    + destruct (IH _ _ _ _ _ _ Hrun) as [Hin|Heq].
      * left; right; exact Hin.
      * inversion Heq; subst. left; left; reflexivity.
Qed.

(** The direction is absent exactly on RESIDUAL_CONVERGENCE, which is
    what [best_policy] asserts on lines 214-217 of pcg.py. *)
Lemma implimentation_direct (g pt : vec) (d : option vec) (it : nat) (fl : PCG_Flag) :
  _implimentation check constraint_check Hm R c delta g = Ok (pt, d, it, fl) ->
  if flag_eqb fl RESIDUAL_CONVERGENCE then d = None else d <> None.
Proof.
  unfold _implimentation, bind. intro Hrun.
  destruct (negb (dyn_check _ _ _ _)); [discriminate|].
  destruct (negb (constraint_check c)); [discriminate|].
  destruct (vdiv _ _) as [z0|]; [|discriminate].
  revert Hrun. generalize (initial g z0) (@None nat).
  induction (seq 0 (length g)) as [|i rest IH]; intros s last Hrun; simpl in Hrun.
  - destruct last; inversion Hrun; subst. reflexivity.
  - unfold bind in Hrun.
    destruct (iteration check Hm R c delta i s) as [[o|s1]|e] eqn:Hit; [| |discriminate].
    + inversion Hrun; subst.
      destruct (iteration_exit _ _ _ Hit) as (d' & fl' & Heq & Hcases).
      inversion Heq; subst.
      destruct Hcases as [[-> ->]|(Hfl & _ & ->)]; [reflexivity|].
      rewrite Hfl. discriminate.
    + exact (IH _ _ Hrun).
Qed.

(** The solver never reports the iteration count [n]. *)
Lemma implimentation_iter_below_n (g pt : vec) (d : option vec) (it : nat) (fl : PCG_Flag) :
  _implimentation check constraint_check Hm R c delta g = Ok (pt, d, it, fl) ->
  (it < length g)%nat.
Proof.
  unfold _implimentation, bind. intro Hrun.
  destruct (negb (dyn_check _ _ _ _)); [discriminate|].
  destruct (negb (constraint_check c)); [discriminate|].
  destruct (vdiv _ _); [|discriminate].
  apply for_range_iter in Hrun. destruct Hrun as [Hin|Heq]; [|discriminate].
  apply in_seq in Hin. lia.
Qed.

Lemma last_cons_default {X : Type} (l : list X) :
  forall a d, List.last (a :: l) d = List.last l a.
Proof.
  induction l as [|b l IH]; intros a d.
  - reflexivity.
  - change (List.last (a :: b :: l) d) with (List.last (b :: l) d).
    rewrite (IH b d), (IH b a). reflexivity.
Qed.

(** When every pass falls through, the loop returns the binding that
    the loop variable has in the end: the last index, if there is one. *)
Lemma for_range_completes (indices : list nat) (s s' : cg_state) :
  completes check Hm R c delta indices s s' ->
  forall last,
    for_range check Hm R c delta indices last s =
      match List.last (map Some indices) last with
      | None => Raise UnboundLocalError
      | Some i => Ok (p s', None, i, RESIDUAL_CONVERGENCE)
      end.
Proof.
  induction 1 as [s|i rest s s1 s' Hit Hrest IH]; intro last.
  - reflexivity.
  - cbn [for_range]. rewrite Hit. cbn [bind]. rewrite IH.
    cbn [map]. rewrite last_cons_default. reflexivity.
Qed.

Lemma last_index_of_range (k : nat) :
  List.last (map Some (seq 0 (S k))) None = Some k.
Proof.
  rewrite seq_S, map_app. simpl. apply last_last.
Qed.

(** C2: when the shifted constraints accept the zero vector, they accept
    the step returned by the inner solver, whichever flag is returned. *)
Theorem implimentation_feasible
  (g pt : vec) (d : option vec) (it : nat) (fl : PCG_Flag) :
  check (zeros (length g)) c = true ->
  _implimentation check constraint_check Hm R c delta g = Ok (pt, d, it, fl) ->
  check pt c = true.
Proof.
  intros Hzero Hrun.
  unfold _implimentation, bind in Hrun.
  destruct (negb (dyn_check _ _ _ _)); [discriminate|].
  destruct (negb (constraint_check c)); [discriminate|].
  destruct (vdiv _ _) as [z0|]; [|discriminate].
  apply (for_range_invariant (fun v => check v c = true)) in Hrun.
  - exact Hrun.
  - intros v _ Hv. exact Hv.
  - exact Hzero.
Qed.

(** What the code does when all [n >= 1] passes of the loop complete
    without a [return]: it returns [(p, None, n - 1, RESIDUAL_CONVERGENCE)],
    because after the loop the variable [iter] holds the index of the
    last pass. *)
Lemma implimentation_full_run (g z0 : vec) (s' : cg_state) (k : nat) :
  length g = S k ->
  dyn_check Hm R c g = true ->
  constraint_check c = true ->
  vdiv (vneg g) R = Ok z0 ->
  completes check Hm R c delta (seq 0 (S k)) (initial g z0) s' ->
  _implimentation check constraint_check Hm R c delta g =
    Ok (p s', None, k, RESIDUAL_CONVERGENCE).
Proof.
  intros Hlen Hshape Hcc Hz Hall.
  unfold _implimentation. rewrite Hshape, Hcc, Hz. cbn [negb bind].
  rewrite Hlen.
  rewrite (for_range_completes _ _ _ Hall).
  rewrite last_index_of_range. reflexivity.
Qed.

Lemma vdiv_of_zeros (u : vec) :
  Forall (fun a => a == 0) u ->
  forall w, Forall (fun a => 0 < a) w ->
  exists t, vdiv u w = Ok t /\ Forall (fun a => a == 0) t /\
            length t = Nat.min (length u) (length w).
Proof.
  induction 1 as [|a u Ha Hu IH]; intros w Hw.
  - exists []. simpl. auto.
  - destruct Hw as [|b w Hb Hw].
    + exists []. simpl. auto.
    + destruct (IH w Hw) as (t & Ht & Hz & Hlen).
      exists (a / b :: t). simpl.
      assert (Hb0 : Qeq_bool b 0 = false).
      { destruct (Qeq_bool b 0) eqn:E; [|reflexivity].
        apply Qeq_bool_iff in E. rewrite E in Hb. discriminate Hb. }
      rewrite Hb0, Ht. simpl. repeat split.
      * constructor; [|exact Hz]. rewrite Ha. unfold Qdiv. ring.
      * rewrite Hlen. reflexivity.
Qed.

Lemma fold_max_of_zeros (t : vec) :
  Forall (fun a => a == 0) t ->
  forall acc, acc == 0 -> fold_left Qmax t acc == 0.
Proof.
  induction 1 as [|a t Ha Ht IH]; intros acc Hacc; simpl.
  - exact Hacc.
  - apply IH. destruct (Q.max_spec acc a) as [[_ E]|[_ E]]; rewrite E; assumption.
Qed.

Lemma max_abs_of_zeros (a : Q) (t : vec) :
  Forall (fun q => q == 0) (a :: t) ->
  exists m, max_abs (a :: t) = Ok m /\ m == 0.
Proof.
  intro Hall. inversion Hall as [|? ? Ha Ht]; subst.
  eexists. split; [reflexivity|].
  apply fold_max_of_zeros.
  - clear -Ht. induction Ht as [|q t Hq Ht IH]; simpl; constructor; [|exact IH].
    rewrite Hq. reflexivity.
  - rewrite Ha. reflexivity.
Qed.

(** The statement of C9 for every dimension [n >= 1]: on the zero
    gradient with a strictly positive preconditioner the solver returns
    [p = 0] with RESIDUAL_CONVERGENCE at iteration 0, whatever [H] is. *)
Lemma implimentation_zero_gradient (k : nat) :
  dyn_check Hm R c (zeros (S k)) = true ->
  constraint_check c = true ->
  Forall (fun a => 0 < a) R ->
  _implimentation check constraint_check Hm R c delta (zeros (S k)) =
    Ok (zeros (S k), None, 0%nat, RESIDUAL_CONVERGENCE).
Proof.
  intros Hshape Hcc Hpos.
  assert (HlenR : length R = S k).
  { unfold dyn_check in Hshape. unfold zeros in Hshape. rewrite repeat_length in Hshape.
    apply andb_true_iff in Hshape. destruct Hshape as [Hshape _].
    apply andb_true_iff in Hshape. destruct Hshape as [_ HR].
    apply Nat.eqb_eq. exact HR. }
  unfold _implimentation. rewrite Hshape, Hcc. cbn [negb].
  assert (Hneg : Forall (fun a => a == 0) (vneg (zeros (S k)))).
  { unfold vneg, zeros. apply Forall_forall. intros a Ha.
    apply in_map_iff in Ha. destruct Ha as (b & <- & Hb).
    apply repeat_spec in Hb. subst b. reflexivity. }
  destruct (vdiv_of_zeros _ Hneg R Hpos) as (z0 & Hz & Hz0 & Hlen).
  rewrite Hz. cbn [bind].
  assert (Hlz : length z0 = S k).
  { rewrite Hlen, HlenR. unfold vneg, zeros.
    rewrite length_map, repeat_length. apply Nat.min_id. }
  destruct z0 as [|a t]; [discriminate|].
  destruct (max_abs_of_zeros a t Hz0) as (m & Hm0 & Hmz).
  unfold zeros. rewrite repeat_length.
  change (seq 0 (S k)) with (0%nat :: seq 1 k).
  cbn [for_range]. unfold iteration, initial. cbn [z p]. rewrite Hm0. cbn [bind].
  assert (Hlt : Qlt_bool m sqrt_eps = true).
  { apply Qlt_bool_true. rewrite Hmz. reflexivity. }
  rewrite Hlt. cbn [bind]. rewrite repeat_length. reflexivity.
Qed.

(** C9, at the gradient of length 0: no pass is made, the loop variable
    is unbound and the solver raises instead of returning [p = 0] with
    RESIDUAL_CONVERGENCE at iteration 0. *)
Theorem implimentation_empty_gradient_raises :
  Linneq.shape_ok 0 c = true ->
  constraint_check c = true ->
  _implimentation check constraint_check [] [] c delta [] = Raise UnboundLocalError.
Proof.
  intros Hshape Hcc.
  unfold _implimentation, dyn_check. simpl.
  rewrite Hshape, Hcc. reflexivity.
Qed.

End ImplimentationFacts.

(* ------------------------------------------------------------------ *)
(** ** The shifted constraint bundle *)

Section Shift.

Import Linneq.

Lemma bool_eq_of_iff (a b : bool) : (a = true <-> b = true) -> a = b.
Proof.
  destruct a, b; intros [H1 H2]; try reflexivity.
  - symmetry. apply H1. reflexivity.
  - apply H2. reflexivity.
Qed.

Lemma dot_vadd (row : vec) :
  forall x p, length x = length row -> length p = length row ->
  dot row (vadd x p) == dot row x + dot row p.
Proof.
  unfold dot, vadd.
  induction row as [|a row IH]; intros x p Hx Hp.
  - simpl. ring.
  - destruct x as [|b x]; [discriminate|]. destruct p as [|d p]; [discriminate|].
    simpl in *. rewrite IH by congruence. ring.
Qed.

Lemma shift_rows (x p : vec) (Hp : length p = length x) :
  forall (M : matrix) (bv : vec),
    forallb (fun row => Nat.eqb (length row) (length x)) M = true ->
    length bv = length M ->
    forallb2 Qle_bool (matvec M (vadd x p)) bv =
    forallb2 Qle_bool (matvec M p) (vsub bv (matvec M x)).
Proof.
  induction M as [|row M IH]; intros bv Hrows Hlen.
  - reflexivity.
  - destruct bv as [|bi bv]; [discriminate|].
    simpl in Hrows. apply andb_true_iff in Hrows. destruct Hrows as [Hrow Hrows].
    apply Nat.eqb_eq in Hrow.
    simpl. rewrite IH by (simpl in Hlen; congruence). f_equal.
    apply bool_eq_of_iff. rewrite !Qle_bool_iff.
    rewrite dot_vadd by congruence.
    unfold Qminus. split; intro Hle; Lqa.lra.
Qed.

Lemma shift_lower (lbv : list ext) :
  forall x p, length x = length lbv -> length p = length lbv ->
  forallb2 ext_le_fin lbv (vadd x p) = forallb2 ext_le_fin (map2 ext_sub lbv x) p.
Proof.
  induction lbv as [|e lbv IH]; intros x p Hx Hp.
  - reflexivity.
  - destruct x as [|a x]; [discriminate|]. destruct p as [|d p]; [discriminate|].
    simpl in *. rewrite IH by congruence. f_equal.
    destruct e as [|q|]; simpl; try reflexivity.
    apply bool_eq_of_iff. rewrite !Qle_bool_iff.
    unfold Qminus. split; intro Hle; Lqa.lra.
Qed.

Lemma shift_upper (ubv : list ext) :
  forall x p, length x = length ubv -> length p = length ubv ->
  forallb2 fin_le_ext (vadd x p) ubv = forallb2 fin_le_ext p (map2 ext_sub ubv x).
Proof.
  induction ubv as [|e ubv IH]; intros x p Hx Hp.
  - destruct x; [|discriminate]. destruct p; reflexivity.
  - destruct x as [|a x]; [discriminate|]. destruct p as [|d p]; [discriminate|].
    simpl in *. rewrite IH by congruence. f_equal.
    destruct e as [|q|]; simpl; try reflexivity.
    apply bool_eq_of_iff. rewrite !Qle_bool_iff.
    unfold Qminus. split; intro Hle; Lqa.lra.
Qed.

(** In exact arithmetic [x + p] satisfies a bundle exactly when [p]
    satisfies the bundle shifted to [x]. *)
Lemma check_shift (c : constraints) (x p : vec) :
  shape_ok (length x) c = true ->
  length p = length x ->
  check (vadd x p) c = check p (shift c x).
Proof.
  intros Hshape Hp. unfold shape_ok in Hshape.
  apply andb_true_iff in Hshape. destruct Hshape as [Hshape Hub].
  apply andb_true_iff in Hshape. destruct Hshape as [Hshape Hlb].
  apply andb_true_iff in Hshape. destruct Hshape as [Hrows Hb].
  apply Nat.eqb_eq in Hub, Hlb, Hb.
  unfold check, shift. cbn [A b lb ub].
  rewrite (shift_rows x p Hp _ _ Hrows Hb).
  rewrite (shift_lower (lb c) x p) by congruence.
  rewrite (shift_upper (ub c) x p) by congruence.
  reflexivity.
Qed.

End Shift.

(* ------------------------------------------------------------------ *)
(** ** The trust-region driver *)

Section DriverFacts.

Import Linneq TrustRegion.

Variable objective : vec -> Q.
Variable make_gradient :
  vec -> constraints -> Trust_Region_Options -> Z -> ext -> Q -> Gradient.
Variable make_hessian : vec -> constraints -> Trust_Region_Options -> matrix.
Variable pcg : vec -> matrix -> constraints -> Q -> PCG.PCG_Status.
Variable check : vec -> constraints -> bool.
Variable constraint_check : constraints -> vec -> bool.
Variable constraints : Linneq.constraints.
Variable opts : Trust_Region_Options.

Local Abbreviation make_hess := (TrustRegion.make_hess make_hessian constraints opts).
Local Abbreviation no_step := (TrustRegion.no_step make_hessian constraints opts).
Local Abbreviation radius_update := (TrustRegion.radius_update make_hessian constraints opts).
Local Abbreviation acceptance := (TrustRegion.acceptance make_gradient constraints opts).
Local Abbreviation residual_check := (TrustRegion.residual_check make_hessian constraints opts).
Local Abbreviation stall_check := (TrustRegion.stall_check make_hessian constraints opts).
Local Abbreviation candidate :=
  (TrustRegion.candidate objective make_gradient make_hessian constraints opts).
Local Abbreviation loop_body :=
  (TrustRegion.loop_body objective make_gradient make_hessian pcg constraints opts).
Local Abbreviation main_loop :=
  (TrustRegion.main_loop objective make_gradient make_hessian pcg constraints opts).
Local Abbreviation loop_top :=
  (TrustRegion.loop_top objective make_gradient make_hessian pcg constraints opts).
Local Abbreviation initialise :=
  (TrustRegion.initialise objective make_gradient make_hessian check constraints opts).
Local Abbreviation trust_region_fuel :=
  (TrustRegion.trust_region_fuel objective make_gradient make_hessian pcg check
     constraint_check constraints opts).
Local Abbreviation trust_region :=
  (TrustRegion.trust_region objective make_gradient make_hessian pcg check
     constraint_check constraints opts).
Local Abbreviation fresh := {| hessian_is_up_to_date := true; times_after_hessian_shaking := 0 |}.
Local Abbreviation gives_up := (TrustRegion.gives_up opts).

Ltac run_monad :=
  unfold mbind, get, put, ret, raise in *; cbn beta iota in *.

Ltac split_if :=
  match goal with
  | |- context [if ?b then _ else _] => destruct b eqn:?
  | H : context [if ?b then _ else _] |- _ => destruct b eqn:?
  end.

Lemma mbind_ok {X Y : Type} (m : M X) (k : X -> M Y) (c c' : closure) (y : Y) :
  mbind m k c = Ok (y, c') ->
  exists a c1, m c = Ok (a, c1) /\ k a c1 = Ok (y, c').
Proof.
  unfold mbind. destruct (m c) as [[a c1]|e]; [|discriminate].
  intro Hk. exists a, c1. split; [reflexivity|exact Hk].
Qed.

(** *** [make_hess] *)

Lemma make_hess_stale (v : vec) (c : closure) :
  hessian_is_up_to_date c = false ->
  make_hess v c = Ok (make_hessian v constraints opts, fresh).
Proof.
  intro Hup. unfold TrustRegion.make_hess. run_monad. rewrite Hup. reflexivity.
Qed.

Lemma make_hess_fresh (v : vec) (c : closure) :
  hessian_is_up_to_date c = true ->
  make_hess v c = Raise (AssertionError hessian_not_up_to_date).
Proof.
  intro Hup. unfold TrustRegion.make_hess. run_monad. rewrite Hup. reflexivity.
Qed.

Lemma make_hess_ok (v : vec) (c c' : closure) (Hn : matrix) :
  make_hess v c = Ok (Hn, c') ->
  hessian_is_up_to_date c = false /\ Hn = make_hessian v constraints opts /\ c' = fresh.
Proof.
  destruct (hessian_is_up_to_date c) eqn:Hup; intro Hrun.
  - rewrite (make_hess_fresh _ _ Hup) in Hrun. discriminate.
  - rewrite (make_hess_stale _ _ Hup) in Hrun. inversion Hrun; subst. auto.
Qed.

(** *** The assertion of [make_hess] *)

Lemma assertion_free_bind {X Y : Type} (m : M X) (k : X -> M Y) :
  assertion_free m -> (forall a, assertion_free (k a)) -> assertion_free (mbind m k).
Proof.
  intros Hm Hk c. unfold mbind. specialize (Hm c).
  destruct (m c) as [[a c1]|e]; [apply Hk | exact Hm].
Qed.

Ltac guarded :=
  intros c; run_monad;
  repeat match goal with
         | |- context [if hessian_is_up_to_date ?c then _ else _] =>
             let E := fresh "Hup" in
             destruct (hessian_is_up_to_date c) eqn:E;
             [| rewrite ?(make_hess_stale _ _ E)]; cbn beta iota
         | |- context [if ?b then _ else _] => destruct b eqn:?
         end;
  try reflexivity.

Lemma no_step_assertion_free (l : locals) : assertion_free (no_step l).
Proof. unfold TrustRegion.no_step. guarded. Qed.

Lemma radius_update_assertion_free (l : locals) (ratio size : Q) :
  assertion_free (radius_update l ratio size).
Proof. unfold TrustRegion.radius_update. guarded. Qed.

Lemma acceptance_assertion_free (l : locals) (new_x : vec) (new_fval : Q) :
  assertion_free (acceptance l new_x new_fval).
Proof.
  unfold TrustRegion.acceptance. intros c. run_monad.
  destruct (Qlt_bool new_fval (fval l)); [|reflexivity].
  destruct (get_info _ _ _ _ _ _ _) as [g cs].
  split_if; reflexivity.
Qed.

Lemma residual_check_assertion_free (l : locals) (fl : PCG.PCG_Flag) (size : Q) :
  assertion_free (residual_check l fl size).
Proof. unfold TrustRegion.residual_check. guarded. Qed.

Lemma stall_check_assertion_free (l : locals) : assertion_free (stall_check l).
Proof. unfold TrustRegion.stall_check. guarded. Qed.

Lemma candidate_assertion_free (l : locals) (st : PCG.PCG_Status) (px : vec) :
  assertion_free (candidate l st px).
Proof.
  unfold TrustRegion.candidate.
  destruct (PCG.fval st); [|intro; reflexivity].
  destruct (PCG.size st); [|intro; reflexivity].
  apply assertion_free_bind; [apply radius_update_assertion_free|]. intro l1.
  apply assertion_free_bind; [apply acceptance_assertion_free|]. intro l2.
  apply assertion_free_bind; [apply residual_check_assertion_free|]. intros [res|l3].
  - intro; reflexivity.
  - apply stall_check_assertion_free.
Qed.

Lemma loop_body_assertion_free (hs : Z) (l : locals) : assertion_free (loop_body hs l).
Proof.
  unfold TrustRegion.loop_body.
  destruct (Qlt_bool _ _); [intro; reflexivity|].
  destruct (_ <? _)%Z; [intro; reflexivity|].
  intro c. unfold mbind at 1. unfold get at 1. cbn beta iota.
  assert (Hrest : forall l1, assertion_free
    (c0 <~ get;;
     _ <~ put {| hessian_is_up_to_date := hessian_is_up_to_date c0;
                 times_after_hessian_shaking := (times_after_hessian_shaking c0 + 1)%Z |};;
     match PCG.x (pcg (value (grad l1)) (H l1) (_constr_shifted l1) (delta l1)) with
     | Some px => candidate (set_iter l1 (iter l1 + 1)%Z)
                    (pcg (value (grad l1)) (H l1) (_constr_shifted l1) (delta l1)) px
     | None => no_step (set_iter l1 (iter l1 + 1)%Z)
     end)).
  { intros l1 c0. unfold mbind at 1 2. unfold get, put. cbn beta iota.
    destruct (PCG.x _); [apply candidate_assertion_free | apply no_step_assertion_free]. }
  destruct ((hs <=? times_after_hessian_shaking c)%Z && negb (hessian_is_up_to_date c)) eqn:E.
  - apply andb_true_iff in E. destruct E as [_ E]. apply negb_true_iff in E.
    unfold mbind at 1 2. rewrite (make_hess_stale _ _ E). unfold ret at 1. cbn beta iota.
    apply Hrest.
  - unfold mbind at 1. unfold ret at 1. cbn beta iota. apply Hrest.
Qed.

Lemma main_loop_assertion_free (hs : Z) (fuel : nat) :
  forall l, assertion_free (main_loop hs fuel l).
Proof.
  induction fuel as [|fuel IH]; intro l.
  - intro; reflexivity.
  - cbn [TrustRegion.main_loop].
    apply assertion_free_bind; [apply loop_body_assertion_free|].
    intros [res|l']; [intro; reflexivity | apply IH].
Qed.

(** *** Initialisation *)

Lemma initialise_fresh (x0 : vec) :
  initialise x0 (fresh_closure) = Raise (AssertionError start_is_feasible) \/
  exists l0, initialise x0 (fresh_closure) = Ok (l0, fresh) /\
             iter l0 = 0%Z /\ x l0 = x0 /\ delta l0 = init_delta opts.
Proof.
  unfold TrustRegion.initialise.
  destruct (negb (check _ _)); [left; reflexivity|right].
  destruct (get_info _ _ _ _ _ _ _) as [g cs].
  unfold mbind. rewrite make_hess_stale by reflexivity.
  eexists. split; [reflexivity|]. auto.
Qed.

(** C10: at every call of [make_hess] in the driver the flag
    [hessian_is_up_to_date] is false, so no execution of [trust_region]
    (cut off after any number of passes) stops at the assertion inside
    [make_hess]. *)
Theorem trust_region_make_hess_assertion_holds (fuel : nat) (x0 : vec) :
  make_hess_assertion_failed (trust_region_fuel fuel x0) = false.
Proof.
  unfold TrustRegion.trust_region_fuel.
  destruct (negb (dyn_check _ _)); [reflexivity|].
  destruct (negb (constraint_check _ _)); [reflexivity|].
  unfold mbind.
  destruct (initialise_fresh x0) as [Hinit|(l0 & Hinit & _)]; rewrite Hinit.
  - reflexivity.
  - apply main_loop_assertion_free.
Qed.

(** *** The [return] statements *)

Lemma no_step_continues (l : locals) (c c' : closure) (o : outcome) :
  no_step l c = Ok (o, c') ->
  exists l', o = Continue l' /\ iter l' = iter l.
Proof.
  unfold TrustRegion.no_step. run_monad.
  destruct (hessian_is_up_to_date c) eqn:Hup.
  - intro Hrun. inversion Hrun; subst. eexists. split; reflexivity.
  - rewrite (make_hess_stale _ _ Hup). cbn beta iota.
    intro Hrun. inversion Hrun; subst. eexists. split; reflexivity.
Qed.

Lemma radius_update_iter (l l' : locals) (ratio size : Q) (c c' : closure) :
  radius_update l ratio size c = Ok (l', c') -> iter l' = iter l.
Proof.
  unfold TrustRegion.radius_update. run_monad.
  destruct (_ && _).
  - intro Hrun. inversion Hrun; subst. reflexivity.
  - destruct (Qle_bool ratio _).
    + destruct (hessian_is_up_to_date c) eqn:Hup.
      * intro Hrun. inversion Hrun; subst. reflexivity.
      * rewrite (make_hess_stale _ _ Hup). cbn beta iota.
        intro Hrun. inversion Hrun; subst. reflexivity.
    + intro Hrun. inversion Hrun; subst. reflexivity.
Qed.

Lemma acceptance_iter (l l' : locals) (new_x : vec) (new_fval : Q) (c c' : closure) :
  acceptance l new_x new_fval c = Ok (l', c') -> iter l' = iter l.
Proof.
  unfold TrustRegion.acceptance. run_monad.
  destruct (Qlt_bool new_fval (fval l)).
  - destruct (get_info _ _ _ _ _ _ _) as [g cs].
    destruct (match abstol_fval opts with Some _ => _ | None => _ end);
      intro Hrun; inversion Hrun; subst; reflexivity.
  - intro Hrun. inversion Hrun; subst. reflexivity.
Qed.

(** The two [return]s of the residual check report success, and the
    flag is true when they are reached. *)
Lemma residual_check_spec (l : locals) (fl : PCG.PCG_Flag) (size : Q)
      (c c' : closure) (o : Trust_Region_Result.t + locals) :
  residual_check l fl size c = Ok (o, c') ->
  match o with
  | inl res => res = Trust_Region_Result.mk (x l) (iter l) (delta l) (grad l) true /\
               hessian_is_up_to_date c' = true
  | inr l' => iter l' = iter l
  end.
Proof.
  unfold TrustRegion.residual_check. run_monad.
  destruct (PCG.flag_eqb _ _).
  - destruct (hessian_is_up_to_date c) eqn:Hup.
    + destruct (Qlt_bool (infnorm _) _); [|destruct (Qlt_bool size _)];
        intro Hrun; inversion Hrun; subst; auto.
    + rewrite (make_hess_stale _ _ Hup). cbn beta iota.
      intro Hrun. inversion Hrun; subst. reflexivity.
  - intro Hrun. inversion Hrun; subst. reflexivity.
Qed.

(** So does the [return] of the stall check. *)
Lemma stall_check_spec (l : locals) (c c' : closure) (o : outcome) :
  stall_check l c = Ok (o, c') ->
  match o with
  | Return res => res = Trust_Region_Result.mk (x l) (iter l) (delta l) (grad l) true /\
                  hessian_is_up_to_date c' = true
  | Continue l' => iter l' = iter l
  end.
Proof.
  unfold TrustRegion.stall_check. run_monad.
  destruct (match max_stall_iter opts with Some _ => _ | None => _ end).
  - destruct (hessian_is_up_to_date c) eqn:Hup.
    + intro Hrun. inversion Hrun; subst. auto.
    + rewrite (make_hess_stale _ _ Hup). cbn beta iota.
      intro Hrun. inversion Hrun; subst. reflexivity.
  - intro Hrun. inversion Hrun; subst. reflexivity.
Qed.

Lemma candidate_spec (l : locals) (st : PCG.PCG_Status) (px : vec)
      (c c' : closure) (o : outcome) :
  candidate l st px c = Ok (o, c') ->
  match o with
  | Return res => Trust_Region_Result.success res = true /\
                  hessian_is_up_to_date c' = true
  | Continue l' => iter l' = iter l
  end.
Proof.
  unfold TrustRegion.candidate.
  destruct (PCG.fval st) as [pf|]; [|discriminate].
  destruct (PCG.size st) as [size|]; [|discriminate].
  intro Hrun.
  apply mbind_ok in Hrun. destruct Hrun as (l1 & c1 & Hradius & Hrun).
  apply mbind_ok in Hrun. destruct Hrun as (l2 & c2 & Haccept & Hrun).
  apply mbind_ok in Hrun. destruct Hrun as (o3 & c3 & Hresidual & Hrun).
  apply radius_update_iter in Hradius. apply acceptance_iter in Haccept.
  apply residual_check_spec in Hresidual.
  destruct o3 as [res|l3].
  - unfold ret in Hrun. inversion Hrun; subst.
    destruct Hresidual as [-> Hup]. split; [reflexivity|exact Hup].
  - apply stall_check_spec in Hrun. destruct o as [res|l'].
    + destruct Hrun as [-> Hup]. split; [reflexivity|exact Hup].
    + congruence.
Qed.

Lemma gives_up_iff (l : locals) :
  gives_up l = true <-> delta l < tol_step opts \/ (max_iter opts < iter l)%Z.
Proof.
  unfold TrustRegion.gives_up. rewrite orb_true_iff, Qlt_bool_true, Z.ltb_lt. reflexivity.
Qed.

(** A pass entered with a collapsed radius or an exhausted iteration
    budget returns failure with the variables as they are. *)
Lemma loop_body_gives_up (hs : Z) (l : locals) (c : closure) :
  gives_up l = true ->
  loop_body hs l c =
    Ok (Return (Trust_Region_Result.mk (x l) (iter l) (delta l) (grad l) false), c).
Proof.
  unfold TrustRegion.gives_up, TrustRegion.loop_body. intro Hg.
  destruct (Qlt_bool _ _); [reflexivity|].
  simpl in Hg. rewrite Hg. reflexivity.
Qed.

(** Any other pass returns success with a current Hessian, or goes on
    with [iter] increased by one. *)
Lemma loop_body_goes_on (hs : Z) (l : locals) (c c' : closure) (o : outcome) :
  gives_up l = false ->
  loop_body hs l c = Ok (o, c') ->
  match o with
  | Return res => Trust_Region_Result.success res = true /\
                  hessian_is_up_to_date c' = true
  | Continue l' => iter l' = (iter l + 1)%Z
  end.
Proof.
  unfold TrustRegion.gives_up, TrustRegion.loop_body. intro Hg.
  apply orb_false_iff in Hg. destruct Hg as [Hd Hi]. rewrite Hd, Hi.
  intro Hrun.
  apply mbind_ok in Hrun. destruct Hrun as (c0 & c1 & Hget & Hrun).
  apply mbind_ok in Hrun. destruct Hrun as (l1 & c2 & Hrefresh & Hrun).
  assert (Hl1 : iter l1 = iter l).
  { destruct (_ && _).
    - apply mbind_ok in Hrefresh. destruct Hrefresh as (Hn & c3 & _ & Hret).
      unfold ret in Hret. inversion Hret; subst. reflexivity.
    - unfold ret in Hrefresh. inversion Hrefresh; subst. reflexivity. }
  apply mbind_ok in Hrun. destruct Hrun as (c3 & c4 & _ & Hrun).
  apply mbind_ok in Hrun. destruct Hrun as (u & c5 & _ & Hrun).
  destruct (PCG.x _) as [px|].
  - apply candidate_spec in Hrun. destruct o as [res|l']; [exact Hrun|].
    rewrite Hrun. simpl. rewrite Hl1. reflexivity.
  - apply no_step_continues in Hrun. destruct Hrun as (l' & -> & Hit).
    rewrite Hit. simpl. rewrite Hl1. reflexivity.
Qed.

Lemma loop_body_continue_bound (hs : Z) (l l' : locals) (c c' : closure) :
  loop_body hs l c = Ok (Continue l', c') ->
  (iter l <= max_iter opts)%Z /\ iter l' = (iter l + 1)%Z.
Proof.
  intro Hrun. destruct (gives_up l) eqn:Hg.
  - rewrite (loop_body_gives_up hs l c Hg) in Hrun. discriminate.
  - split; [|exact (loop_body_goes_on _ _ _ _ _ Hg Hrun)].
    unfold TrustRegion.gives_up in Hg. apply orb_false_iff in Hg. destruct Hg as [_ Hi].
    apply Z.ltb_ge in Hi. exact Hi.
Qed.

(** *** The loop *)

(** A run that returns does so from a pass that the loop entered. *)
Lemma main_loop_last_pass (hs : Z) (fuel : nat) :
  forall l0 c0 l c res cf,
    loop_top hs l0 c0 l c ->
    main_loop hs fuel l c = Ok (Some res, cf) ->
    exists l' c', loop_top hs l0 c0 l' c' /\ loop_body hs l' c' = Ok (Return res, cf).
Proof.
  induction fuel as [|fuel IH]; intros l0 c0 l c res cf Htop Hrun.
  - discriminate.
  - cbn [TrustRegion.main_loop] in Hrun.
    apply mbind_ok in Hrun. destruct Hrun as (o & c1 & Hbody & Hrun).
    destruct o as [r|l1].
    + unfold ret in Hrun. inversion Hrun; subst. exists l, c. split; assumption.
    + apply (IH l0 c0 l1 c1); [|exact Hrun].
      apply (TrustRegion.top_next _ _ _ _ _ _ _ _ _ _ _ _ _ Htop Hbody).
Qed.

(** With more passes than [max_iter + 1 - iter] the loop reaches a
    [return] or raises; it does not use up its passes. *)
Lemma main_loop_enough_fuel (hs : Z) (fuel : nat) :
  forall l c,
    (Z.to_nat (max_iter opts + 1 - iter l) < fuel)%nat ->
    out_of_fuel (main_loop hs fuel l c) = false.
Proof.
  induction fuel as [|fuel IH]; intros l c Hfuel.
  - lia.
  - cbn [TrustRegion.main_loop]. unfold mbind.
    destruct (loop_body hs l c) as [[[res|l'] c']|e] eqn:Hbody; try reflexivity.
    apply loop_body_continue_bound in Hbody. destruct Hbody as [Hle Hnext].
    apply IH. rewrite Hnext. lia.
Qed.

(** The driver returns: the passes that [trust_region] allows itself
    are never used up. *)
Lemma trust_region_returns (x0 : vec) :
  out_of_fuel (trust_region x0) = false.
Proof.
  unfold TrustRegion.trust_region, TrustRegion.trust_region_fuel.
  destruct (negb (dyn_check _ _)); [reflexivity|].
  destruct (negb (constraint_check _ _)); [reflexivity|].
  unfold mbind.
  destruct (initialise_fresh x0) as [Hinit|(l0 & Hinit & Hiter & _)]; rewrite Hinit.
  - reflexivity.
  - apply main_loop_enough_fuel. rewrite Hiter. unfold enough_fuel. lia.
Qed.

(** From a returned result back to the pass that returned it. *)
Lemma trust_region_last_pass (fuel : nat) (x0 : vec)
      (res : Trust_Region_Result.t) (cf : closure) :
  trust_region_fuel fuel x0 = Ok (Some res, cf) ->
  exists l0 l c,
    initialise x0 (fresh_closure) = Ok (l0, fresh) /\
    loop_top (hessian_shaking opts x0) l0 fresh l c /\
    loop_body (hessian_shaking opts x0) l c = Ok (Return res, cf).
Proof.
  unfold TrustRegion.trust_region_fuel.
  destruct (negb (dyn_check _ _)); [discriminate|].
  destruct (negb (constraint_check _ _)); [discriminate|].
  unfold mbind.
  destruct (initialise_fresh x0) as [Hinit|(l0 & Hinit & _)]; rewrite Hinit.
  - discriminate.
  - intro Hrun.
    destruct (main_loop_last_pass _ _ l0 fresh l0 fresh res cf
                (TrustRegion.top_first _ _ _ _ _ _ _ _ _) Hrun)
      as (l & c & Htop & Hbody).
    exists l0, l, c. auto.
Qed.

(** C3: when [trust_region] returns a result with [success = true],
    [hessian_is_up_to_date] is true at the moment of the return. *)
Theorem trust_region_success_on_current_hessian
  (fuel : nat) (x0 : vec) (res : Trust_Region_Result.t) (cf : closure) :
  trust_region_fuel fuel x0 = Ok (Some res, cf) ->
  Trust_Region_Result.success res = true ->
  hessian_is_up_to_date cf = true.
Proof.
  intros Hrun Hsuccess.
  destruct (trust_region_last_pass _ _ _ _ Hrun) as (l0 & l & c & _ & _ & Hbody).
  destruct (gives_up l) eqn:Hg.
  - rewrite (loop_body_gives_up _ l c Hg) in Hbody.
    inversion Hbody; subst. discriminate Hsuccess.
  - exact (proj2 (loop_body_goes_on _ _ _ _ _ Hg Hbody)).
Qed.

(** More passes do not change a result. *)
Lemma main_loop_more_fuel (hs : Z) (fuel : nat) :
  forall l c res cf,
    main_loop hs fuel l c = Ok (Some res, cf) ->
    forall fuel',
      out_of_fuel (main_loop hs fuel' l c) = false ->
      main_loop hs fuel' l c = Ok (Some res, cf).
Proof.
  induction fuel as [|fuel IH]; intros l c res cf Hrun fuel' Hfuel.
  - discriminate.
  - destruct fuel' as [|fuel']; [discriminate|].
    cbn [TrustRegion.main_loop] in *. unfold mbind in *.
    destruct (loop_body hs l c) as [[[r|l1] c1]|e]; try discriminate.
    + exact Hrun.
    + apply (IH _ _ _ _ Hrun). exact Hfuel.
Qed.

(** What a pass at the top of the loop returns, the loop returns. *)
Lemma main_loop_from_top (hs : Z) (l0 : locals) (c0 : closure) (l : locals) (c : closure) :
  loop_top hs l0 c0 l c ->
  forall fuel res cf,
    main_loop hs fuel l c = Ok (Some res, cf) ->
    exists fuel', main_loop hs fuel' l0 c0 = Ok (Some res, cf).
Proof.
  induction 1 as [|l c l' c' Htop IH Hbody]; intros fuel res cf Hrun.
  - exists fuel. exact Hrun.
  - apply (IH (S fuel)). cbn [TrustRegion.main_loop]. unfold mbind.
    rewrite Hbody. exact Hrun.
Qed.

(** C8: [trust_region] returns a result with [success = false] exactly
    when a pass of the main loop is entered with [delta < tol_step] or
    [iter > max_iter].  First part: a returned failure comes from such a
    pass and carries its [x], [iter], [delta] and [grad], and every other
    [return] of the driver reports success.  Second part: when the loop
    enters a pass in which one of the two tests holds, the driver returns
    failure with the variables of that pass. *)
Theorem trust_region_failure_exits (x0 : vec) :
  (forall fuel res cf,
     trust_region_fuel fuel x0 = Ok (Some res, cf) ->
     exists l0 l c,
       initialise x0 (fresh_closure) = Ok (l0, fresh) /\
       loop_top (hessian_shaking opts x0) l0 fresh l c /\
       loop_body (hessian_shaking opts x0) l c = Ok (Return res, cf) /\
       (Trust_Region_Result.success res = false <->
          delta l < tol_step opts \/ (max_iter opts < iter l)%Z) /\
       (Trust_Region_Result.success res = false ->
          res = Trust_Region_Result.mk (x l) (iter l) (delta l) (grad l) false /\ cf = c))
  /\
  (forall l0 l c,
     dyn_check constraints x0 = true ->
     constraint_check constraints x0 = true ->
     initialise x0 (fresh_closure) = Ok (l0, fresh) ->
     loop_top (hessian_shaking opts x0) l0 fresh l c ->
     delta l < tol_step opts \/ (max_iter opts < iter l)%Z ->
     trust_region x0 =
       Ok (Some (Trust_Region_Result.mk (x l) (iter l) (delta l) (grad l) false), c)).
Proof.
  split.
  - intros fuel res cf Hrun.
    destruct (trust_region_last_pass _ _ _ _ Hrun) as (l0 & l & c & Hinit & Htop & Hbody).
    exists l0, l, c. repeat split; try assumption.
    + intro Hfail. apply gives_up_iff.
      destruct (gives_up l) eqn:Hg; [reflexivity|].
      destruct (loop_body_goes_on _ _ _ _ _ Hg Hbody) as [Hs _]. congruence.
    + intro Hcond. apply gives_up_iff in Hcond.
      rewrite (loop_body_gives_up _ l c Hcond) in Hbody.
      inversion Hbody; subst. reflexivity.
    + destruct (gives_up l) eqn:Hg.
      * rewrite (loop_body_gives_up _ l c Hg) in Hbody.
        inversion Hbody; subst. reflexivity.
      * destruct (loop_body_goes_on _ _ _ _ _ Hg Hbody) as [Hs _]. congruence.
    + destruct (gives_up l) eqn:Hg.
      * rewrite (loop_body_gives_up _ l c Hg) in Hbody.
        inversion Hbody; subst. reflexivity.
      * destruct (loop_body_goes_on _ _ _ _ _ Hg Hbody) as [Hs _]. congruence.
  - intros l0 l c Hshape Hcc Hinit Htop Hcond.
    apply gives_up_iff in Hcond.
    assert (Hone : main_loop (hessian_shaking opts x0) 1 l c =
                   Ok (Some (Trust_Region_Result.mk (x l) (iter l) (delta l) (grad l) false), c)).
    { cbn [TrustRegion.main_loop]. unfold mbind.
      rewrite (loop_body_gives_up _ l c Hcond). reflexivity. }
    destruct (main_loop_from_top _ _ _ _ _ Htop _ _ _ Hone) as (fuel' & Hrun).
    pose proof (trust_region_returns x0) as Hret.
    unfold TrustRegion.trust_region, TrustRegion.trust_region_fuel in *.
    rewrite Hshape, Hcc in *. cbn [negb] in *.
    unfold mbind in *. rewrite Hinit in *.
    exact (main_loop_more_fuel _ _ _ _ _ _ Hrun _ Hret).
Qed.

Lemma no_step_stale (l : locals) (c : closure) :
  hessian_is_up_to_date c = false ->
  no_step l c = Ok (Continue (set_H l (make_hessian (x l) constraints opts)), fresh).
Proof.
  intro Hup. unfold TrustRegion.no_step. run_monad.
  rewrite Hup, (make_hess_stale _ _ Hup). reflexivity.
Qed.

(** C4, as the code has it: in the no-step branch with a stale Hessian,
    [H] is recomputed at the current [x], and the recomputation, being a
    call of [make_hess], sets [times_after_hessian_shaking] to 0 and
    [hessian_is_up_to_date] to true; no other variable changes. *)
Theorem no_step_stale_hessian_resets_counter (l : locals) (c : closure) :
  hessian_is_up_to_date c = false ->
  exists l' c',
    no_step l c = Ok (Continue l', c') /\
    H l' = make_hessian (x l) constraints opts /\
    times_after_hessian_shaking c' = 0%Z /\
    hessian_is_up_to_date c' = true /\
    l' = set_H l (H l').
Proof.
  intro Hup. eexists. eexists.
  split; [exact (no_step_stale l c Hup)|].
  repeat split.
Qed.

(** The same for a whole pass that takes this branch: the counter is
    incremented after the solver call and is 0 when the pass ends. *)
Lemma loop_body_no_step_stale (hs : Z) (l : locals) (c : closure) :
  gives_up l = false ->
  hessian_is_up_to_date c = false ->
  (times_after_hessian_shaking c < hs)%Z ->
  PCG.x (pcg (value (grad l)) (H l) (_constr_shifted l) (delta l)) = None ->
  loop_body hs l c =
    Ok (Continue (set_H (set_iter l (iter l + 1)%Z) (make_hessian (x l) constraints opts)),
        {| hessian_is_up_to_date := true; times_after_hessian_shaking := 0 |}).
Proof.
  intros Hg Hup Hlt Hnone.
  unfold TrustRegion.gives_up in Hg. apply orb_false_iff in Hg. destruct Hg as [Hd Hi].
  unfold TrustRegion.loop_body. rewrite Hd, Hi.
  apply Z.leb_gt in Hlt.
  unfold mbind at 1. unfold get at 1. cbn beta iota.
  rewrite Hlt. cbn [andb].
  unfold mbind at 1. unfold ret at 1. cbn beta iota.
  unfold mbind at 1. unfold get at 1. cbn beta iota.
  unfold mbind at 1. unfold put at 1. cbn beta iota.
  rewrite Hnone.
  rewrite no_step_stale by exact Hup.
  reflexivity.
Qed.




End DriverFacts.

(* ------------------------------------------------------------------ *)
(** ** The properties at concrete inputs *)

Section Instances.

Import Linneq Quadratic1D.

(** The same gradient under [p <= 1/2] and [-1 <= p]: the trial point
    [(1)] violates the constraint and the solver returns [p = (0)]. *)
Lemma implimentation_feasible_witness :
  check (zeros (length [-1])) bounded = true /\
  PCG._implimentation check constraint_check [[1]] [1] bounded 10 [-1]
    = Ok ([0], Some [1], 0%nat, PCG.VIOLATE_CONSTRAINTS) /\
  check [0] bounded = true.
Proof.
  split; [vm_compute; reflexivity|]. split; [vm_compute; reflexivity|].
  apply (implimentation_feasible check constraint_check [[1]] [1] bounded 10
           [-1] [0] (Some [1]) 0%nat PCG.VIOLATE_CONSTRAINTS).
  - vm_compute; reflexivity.
  - vm_compute; reflexivity.
Defined.

Lemma one_pass_completes :
  PCG.completes check [[1]] [1] unconstrained 10 (seq 0 1)
    (PCG.initial [-1] [1]) after_one_pass.
Proof.
  apply (PCG.completes_cons check [[1]] [1] unconstrained 10 0%nat [] _ after_one_pass).
  - vm_compute; reflexivity.
  - apply PCG.completes_nil.
Qed.

(** C5, at [g = (-1)], [H = (1)], [R = (1)], [delta = 10]: the single
    pass of the loop completes without a [return], so all [n = 1]
    iterations are done, and the solver returns
    [(p, None, 0, RESIDUAL_CONVERGENCE)]: it reports [n - 1], not [n]. *)
Theorem implimentation_full_run_reports_last_index :
  PCG.completes check [[1]] [1] unconstrained 10 (seq 0 (length [-1]))
    (PCG.initial [-1] [1]) after_one_pass /\
  PCG._implimentation check constraint_check [[1]] [1] unconstrained 10 [-1]
    = Ok ([1], None, 0%nat, PCG.RESIDUAL_CONVERGENCE) /\
  PCG._implimentation check constraint_check [[1]] [1] unconstrained 10 [-1]
    <> Ok (PCG.p after_one_pass, None, length [-1], PCG.RESIDUAL_CONVERGENCE).
Proof.
  split; [exact one_pass_completes|].
  split; [vm_compute; reflexivity|].
  vm_compute. intro Heq. discriminate Heq.
Qed.

(** The general statement at the same input. *)
Lemma implimentation_full_run_example :
  PCG._implimentation check constraint_check [[1]] [1] unconstrained 10 [-1]
    = Ok (PCG.p after_one_pass, None, 0%nat, PCG.RESIDUAL_CONVERGENCE).
Proof.
  apply (implimentation_full_run check constraint_check [[1]] [1] unconstrained 10
           [-1] [1] after_one_pass 0).
  - reflexivity.
  - reflexivity.
  - reflexivity.
  - vm_compute; reflexivity.
  - exact one_pass_completes.
Qed.

Lemma implimentation_empty_gradient_raises_witness :
  shape_ok 0 empty = true /\
  constraint_check empty = true /\
  PCG._implimentation check constraint_check [] [] empty 1 [] = Raise UnboundLocalError.
Proof.
  split; [reflexivity|]. split; [reflexivity|].
  apply (implimentation_empty_gradient_raises check constraint_check empty 1); reflexivity.
Defined.

(** The zero gradient in the plane: the first residual test succeeds. *)
Lemma implimentation_zero_gradient_example :
  PCG._implimentation check constraint_check [[2; 0]; [0; 1]] [1; 3]
    {| A := []; b := []; lb := [NegInf; NegInf]; ub := [PosInf; PosInf] |} 1 [0; 0]
    = Ok ([0; 0], None, 0%nat, PCG.RESIDUAL_CONVERGENCE).
Proof.
  apply (implimentation_zero_gradient check constraint_check [[2; 0]; [0; 1]] [1; 3] _ 1 1).
  - reflexivity.
  - reflexivity.
  - repeat constructor.
Qed.

(** The run from [x = 1] with the stall detector armed: the first step
    reaches the minimiser, the residual check refreshes the Hessian and
    the stall check returns success. *)
Lemma trust_region_success_on_current_hessian_witness :
  let res := TrustRegion.Trust_Region_Result.mk [0] 1 2
               {| TrustRegion.value := [0]; TrustRegion.infnorm := 0 |} true in
  let cf := {| TrustRegion.hessian_is_up_to_date := true;
               TrustRegion.times_after_hessian_shaking := 0 |} in
  trust_region stall_options [1] = Ok (Some res, cf) /\
  TrustRegion.Trust_Region_Result.success res = true /\
  TrustRegion.hessian_is_up_to_date cf = true.
Proof.
  intros res cf.
  split; [vm_compute; reflexivity|]. split; [reflexivity|].
  apply (trust_region_success_on_current_hessian
           objective make_gradient make_hessian pcg check
           (fun c _ => constraint_check c) unconstrained stall_options
           (TrustRegion.enough_fuel stall_options) [1] res cf).
  - vm_compute; reflexivity.
  - reflexivity.
Defined.

(** The run from [x = 1] with [max_iter = 1] enters its third pass with
    [iter = 2]. *)
Lemma third_pass_is_entered :
  TrustRegion.loop_top objective make_gradient make_hessian pcg unconstrained
    (TrustRegion.default_options 1)
    (TrustRegion.hessian_shaking (TrustRegion.default_options 1) [1])
    run_start (current 0) run_pass2 (current 1).
Proof.
  apply (TrustRegion.top_next _ _ _ _ _ _ _ _ _ run_pass1 (current 0)).
  - apply (TrustRegion.top_next _ _ _ _ _ _ _ _ _ run_start (current 0)).
    + apply TrustRegion.top_first.
    + vm_compute; reflexivity.
  - vm_compute; reflexivity.
Qed.

(** That pass returns failure: both parts of the statement at this run. *)
Lemma trust_region_failure_exits_witness :
  let opts := TrustRegion.default_options 1 in
  let res := TrustRegion.Trust_Region_Result.mk [0] 2 (2 # 4)
               {| TrustRegion.value := [0]; TrustRegion.infnorm := 0 |} false in
  (trust_region opts [1] = Ok (Some res, current 1) /\
   exists l0 l c,
     TrustRegion.initialise objective make_gradient make_hessian check unconstrained opts [1]
       (TrustRegion.fresh_closure) = Ok (l0, current 0) /\
     TrustRegion.loop_top objective make_gradient make_hessian pcg unconstrained opts
       (TrustRegion.hessian_shaking opts [1]) l0 (current 0) l c /\
     TrustRegion.loop_body objective make_gradient make_hessian pcg unconstrained opts
       (TrustRegion.hessian_shaking opts [1]) l c = Ok (TrustRegion.Return res, current 1) /\
     (TrustRegion.Trust_Region_Result.success res = false <->
        TrustRegion.delta l < TrustRegion.tol_step opts \/
        (TrustRegion.max_iter opts < TrustRegion.iter l)%Z) /\
     (TrustRegion.Trust_Region_Result.success res = false ->
        res = TrustRegion.Trust_Region_Result.mk (TrustRegion.x l) (TrustRegion.iter l)
                (TrustRegion.delta l) (TrustRegion.grad l) false /\ current 1 = c))
  /\
  (TrustRegion.dyn_check unconstrained [1] = true /\
   constraint_check unconstrained = true /\
   TrustRegion.initialise objective make_gradient make_hessian check unconstrained opts [1]
     (TrustRegion.fresh_closure) = Ok (run_start, current 0) /\
   (TrustRegion.delta run_pass2 < TrustRegion.tol_step opts \/
    (TrustRegion.max_iter opts < TrustRegion.iter run_pass2)%Z) /\
   trust_region opts [1] = Ok (Some res, current 1)).
Proof.
  intros opts res.
  pose proof (trust_region_failure_exits
                objective make_gradient make_hessian pcg check
                (fun c _ => constraint_check c) unconstrained opts [1]) as [Hfrom Hto].
  split.
  - split; [vm_compute; reflexivity|].
    apply (Hfrom (TrustRegion.enough_fuel opts) res (current 1)).
    vm_compute; reflexivity.
  - split; [reflexivity|]. split; [reflexivity|].
    split; [vm_compute; reflexivity|].
    split; [right; reflexivity|].
    apply (Hto run_start run_pass2 (current 1)).
    + reflexivity.
    + reflexivity.
    + vm_compute; reflexivity.
    + exact third_pass_is_entered.
    + right. reflexivity.
Defined.

(** C4 as the spec states it fails here: at the minimiser the solver
    returns no step; the branch is entered with a stale Hessian and the
    counter at 2, and left with the counter at 0.  The same holds for
    the whole pass, entered with the counter at 1. *)
Lemma no_step_stale_counter_not_kept :
  PCG.x (pcg [0] [[1]] unconstrained 2) = None /\
  TrustRegion.no_step make_hessian unconstrained (TrustRegion.default_options 10)
      at_minimum (stale 2)
    = Ok (TrustRegion.Continue at_minimum,
          {| TrustRegion.hessian_is_up_to_date := true;
             TrustRegion.times_after_hessian_shaking := 0 |}) /\
  TrustRegion.loop_body objective make_gradient make_hessian pcg unconstrained
      (TrustRegion.default_options 10) 5 at_minimum (stale 1)
    = Ok (TrustRegion.Continue (TrustRegion.set_iter at_minimum 2),
          {| TrustRegion.hessian_is_up_to_date := true;
             TrustRegion.times_after_hessian_shaking := 0 |}) /\
  (0 <> 2)%Z.
Proof.
  split; [vm_compute; reflexivity|].
  split; [vm_compute; reflexivity|].
  split; [vm_compute; reflexivity|].
  discriminate.
Qed.

Lemma no_step_stale_hessian_resets_counter_witness :
  TrustRegion.hessian_is_up_to_date (stale 2) = false /\
  exists l' c',
    TrustRegion.no_step make_hessian unconstrained (TrustRegion.default_options 10)
      at_minimum (stale 2) = Ok (TrustRegion.Continue l', c') /\
    TrustRegion.H l' = make_hessian (TrustRegion.x at_minimum) unconstrained
                         (TrustRegion.default_options 10) /\
    TrustRegion.times_after_hessian_shaking c' = 0%Z /\
    TrustRegion.hessian_is_up_to_date c' = true /\
    l' = TrustRegion.set_H at_minimum (TrustRegion.H l').
Proof.
  split; [reflexivity|].
  apply (no_step_stale_hessian_resets_counter make_hessian unconstrained
           (TrustRegion.default_options 10) at_minimum (stale 2)).
  reflexivity.
Defined.

End Instances.

Section RatioInstance.

Import Linneq TrustRegion Quadratic1D.


End RatioInstance.

(* ================================================================== *)
(** * Further properties *)

(** ** Vectors *)

Section Algebra.

Lemma length_map2 {X Y Z : Type} (f : X -> Y -> Z) (u : list X) :
  forall v, length (map2 f u v) = Nat.min (length u) (length v).
Proof.
  induction u as [|a u IH]; intros [|b v]; simpl; try reflexivity.
  rewrite IH. reflexivity.
Qed.

Lemma length_vadd (u v : vec) : length (vadd u v) = Nat.min (length u) (length v).
Proof. apply length_map2. Qed.

Lemma length_vsub (u v : vec) : length (vsub u v) = Nat.min (length u) (length v).
Proof. apply length_map2. Qed.

Lemma length_vscale (a : Q) (v : vec) : length (vscale a v) = length v.
Proof. apply length_map. Qed.

Lemma length_vneg (v : vec) : length (vneg v) = length v.
Proof. apply length_map. Qed.

Lemma length_matvec (M : matrix) (v : vec) : length (matvec M v) = length M.
Proof. apply length_map. Qed.

Lemma length_zeros (n : nat) : length (zeros n) = n.
Proof. apply repeat_length. Qed.

Lemma vdiv_length (u : vec) :
  forall v t, vdiv u v = Ok t -> length t = Nat.min (length u) (length v).
Proof.
  induction u as [|a u IH]; intros [|b v] t Hdiv; simpl in Hdiv;
    try (inversion Hdiv; reflexivity).
  destruct (Qeq_bool b 0); [discriminate|].
  destruct (vdiv u v) as [t'|] eqn:E; [|discriminate].
  inversion Hdiv; subst. simpl. rewrite (IH v t' E). reflexivity.
Qed.

Lemma dot_comm (u : vec) : forall v, dot u v == dot v u.
Proof.
  unfold dot. induction u as [|a u IH]; intros [|b v]; simpl; try reflexivity.
  rewrite IH. ring.
Qed.

Lemma dot_vscale_r (a : Q) (u : vec) : forall v, dot u (vscale a v) == a * dot u v.
Proof.
  unfold dot, vscale. induction u as [|b u IH]; intros [|d v]; simpl; try ring.
  rewrite IH. ring.
Qed.

Lemma dot_zeros_r (u : vec) : forall n, dot u (zeros n) == 0.
Proof.
  unfold dot, zeros. induction u as [|b u IH]; intros [|n]; simpl; try reflexivity.
  rewrite IH. ring.
Qed.

Lemma dot_vadd_r (w x y : vec) :
  length x = length w -> length y = length w ->
  dot w (vadd x y) == dot w x + dot w y.
Proof. apply dot_vadd. Qed.

Lemma dot_vsub_r (w : vec) :
  forall x y, length x = length w -> length y = length w ->
  dot w (vsub x y) == dot w x - dot w y.
Proof.
  unfold dot, vsub. induction w as [|a w IH]; intros x y Hx Hy.
  - simpl. ring.
  - destruct x as [|b x]; [discriminate|]. destruct y as [|d y]; [discriminate|].
    simpl in *. rewrite IH by congruence. ring.
Qed.

End Algebra.

(* ------------------------------------------------------------------ *)
(** ** The inner solver: shapes and flags *)

Section ConjugateGradient.

Import PCG.

Variable check : vec -> Linneq.constraints -> bool.
Variable constraint_check : Linneq.constraints -> bool.
Variables (Hm : matrix) (R : vec) (c : Linneq.constraints) (delta : Q).
Variable g : vec.

Local Abbreviation n := (length g).

Hypothesis Hshape : dyn_check Hm R c g = true.

Lemma shape_rows : Forall (fun row => length row = n) Hm.
Proof.
  unfold dyn_check in Hshape.
  apply andb_true_iff in Hshape. destruct Hshape as [H1 _].
  apply andb_true_iff in H1. destruct H1 as [H1 _].
  apply andb_true_iff in H1. destruct H1 as [_ Hrows].
  apply Forall_forall. intros row Hin.
  rewrite forallb_forall in Hrows. apply Nat.eqb_eq. apply Hrows. exact Hin.
Qed.

Lemma shape_H : length Hm = n.
Proof.
  unfold dyn_check in Hshape.
  apply andb_true_iff in Hshape. destruct Hshape as [H1 _].
  apply andb_true_iff in H1. destruct H1 as [H1 _].
  apply andb_true_iff in H1. destruct H1 as [Hlen _].
  apply Nat.eqb_eq. exact Hlen.
Qed.

Lemma shape_R : length R = n.
Proof.
  unfold dyn_check in Hshape.
  apply andb_true_iff in Hshape. destruct Hshape as [H1 _].
  apply andb_true_iff in H1. destruct H1 as [_ Hlen].
  apply Nat.eqb_eq. exact Hlen.
Qed.

(** The residual update [r - alpha (H d)] keeps [r = -(g + H p)] when
    [p] moves to [p + alpha d]. *)
Lemma residual_update (a : Q) (pt d : vec) :
  length pt = n -> length d = n ->
  forall (M : matrix) (rv gv : vec),
    Forall (fun row => length row = n) M ->
    veq rv (vneg (vadd gv (matvec M pt))) ->
    veq (vsub rv (vscale a (matvec M d)))
        (vneg (vadd gv (matvec M (vadd pt (vscale a d))))).
Proof.
  intros Hp Hd. induction M as [|row M IH]; intros rv gv Hrows Heq.
  - destruct gv; simpl in *; inversion Heq; subst; constructor.
  - destruct gv as [|gi gv]; simpl in *.
    + inversion Heq; subst. constructor.
    + inversion Heq as [|ri x rv' y Hri Hrv]; subst.
      inversion Hrows as [|? ? Hrow Hrows']; subst.
      simpl. constructor.
      * rewrite (dot_vadd row pt (vscale a d)) by (rewrite ?length_vscale; congruence).
        rewrite dot_vscale_r, Hri. ring.
      * apply IH; assumption.
Qed.

Lemma residual_initial :
  forall (M : matrix) (gv : vec) (k : nat),
    length M = length gv ->
    veq (vneg gv) (vneg (vadd gv (matvec M (zeros k)))).
Proof.
  induction M as [|row M IH]; intros gv k Hlen.
  - destruct gv; [constructor|discriminate].
  - destruct gv as [|gi gv]; [discriminate|]. simpl. constructor.
    + fold (dot row (zeros k)). rewrite (dot_zeros_r row k). ring.
    + apply IH. simpl in Hlen. congruence.
Qed.

(** The variables with which the loop is entered satisfy the invariant. *)
Lemma initial_invariant (z0 : vec) :
  vdiv (vneg g) R = Ok z0 ->
  cg_invariant n g Hm R (initial g z0).
Proof.
  intro Hz. unfold cg_invariant, initial. cbn [p r z direct inner1].
  assert (Hlz : length z0 = n).
  { rewrite (vdiv_length _ _ _ Hz), length_vneg, shape_R. apply Nat.min_id. }
  split; [apply length_zeros|]. split; [apply length_vneg|].
  split; [exact Hlz|]. split; [exact Hlz|].
  split; [apply residual_initial; apply shape_H|].
  split; [exact Hz|]. split; reflexivity.
Qed.

(** What a pass that falls through computes. *)
Lemma iteration_next_state (i : nat) (s s' : cg_state) :
  iteration check Hm R c delta i s = Ok (Next s') ->
  let ww := matvec Hm (direct s) in
  let denom := dot (direct s) ww in
  let alpha := inner1 s / denom in
  let r' := vsub (r s) (vscale alpha ww) in
  0 < denom /\
  ~ inner1 s == 0 /\
  p s' = vadd (p s) (vscale alpha (direct s)) /\
  r s' = r' /\
  vdiv r' R = Ok (z s') /\
  inner1 s' = dot r' (z s') /\
  direct s' = vadd (z s') (vscale (inner1 s' / inner1 s) (direct s)).
Proof.
  unfold iteration, bind, fdiv. intro Hrun.
  destruct (max_abs (z s)); [|discriminate].
  destruct (Qlt_bool _ _); [discriminate|].
  destruct (Qle_bool _ _) eqn:Hdenom; [discriminate|].
  destruct (norm_gt _ _); [discriminate|].
  destruct (check _ _); [|discriminate].
  simpl in Hrun.
  destruct (vdiv _ _) as [z'|] eqn:Hz; [|discriminate].
  destruct (Qeq_bool _ _) eqn:Hzero; [discriminate|].
  inversion Hrun; subst; simpl.
  split; [apply Qle_bool_false; exact Hdenom|].
  split; [apply Qeq_bool_neq; exact Hzero|].
  split; [reflexivity|]. split; [reflexivity|].
  split; [reflexivity|]. split; reflexivity.
Qed.

(** The invariant is kept by every pass that falls through. *)
Lemma iteration_keeps_invariant (i : nat) (s s' : cg_state) :
  cg_invariant n g Hm R s ->
  iteration check Hm R c delta i s = Ok (Next s') ->
  cg_invariant n g Hm R s'.
Proof.
  intros (Hlp & Hlr & Hlz & Hld & Hres & Hdiv & Hin & Hrd) Hrun.
  destruct (iteration_next_state _ _ _ Hrun)
    as (Hdenom & Hnz & Ep & Er & Ez & Ei & Ed).
  set (ww := matvec Hm (direct s)) in *.
  set (denom := dot (direct s) ww) in *.
  set (alpha := inner1 s / denom) in *.
  assert (Hlww : length ww = n) by (unfold ww; rewrite length_matvec; apply shape_H).
  assert (Hlr' : length (r s') = n).
  { rewrite Er, length_vsub, length_vscale, Hlr, Hlww. apply Nat.min_id. }
  assert (Hlz' : length (z s') = n).
  { rewrite (vdiv_length _ _ _ Ez). rewrite <- Er, Hlr', shape_R. apply Nat.min_id. }
  unfold cg_invariant.
  split; [rewrite Ep, length_vadd, length_vscale, Hlp, Hld; apply Nat.min_id|].
  split; [exact Hlr'|]. split; [exact Hlz'|].
  split; [rewrite Ed, length_vadd, length_vscale, Hlz', Hld; apply Nat.min_id|].
  split; [rewrite Er, Ep; apply residual_update; try assumption; apply shape_rows|].
  split; [rewrite Er; exact Ez|].
  split; [rewrite Er; exact Ei|].
  rewrite Ed. rewrite dot_vadd_r by (rewrite ?length_vscale; congruence).
  rewrite dot_vscale_r.
  assert (Hzero : dot (r s') (direct s) == 0).
  { rewrite Er. rewrite (dot_comm (vsub _ _)).
    rewrite dot_vsub_r by (rewrite ?length_vscale; congruence).
    rewrite dot_vscale_r. rewrite (dot_comm (direct s) (r s)), Hrd.
    fold denom. unfold alpha. field.
    intro Hd. rewrite Hd in Hdenom. discriminate Hdenom. }
  rewrite Hzero, Ei. rewrite <- Er. ring.
Qed.

(** A run that returns does so from variables that satisfy the
    invariant: through the [return] of one of the passes, or through the
    [return] after the loop when all passes fell through. *)
Lemma for_range_last_state (indices : list nat) :
  forall last s out,
    cg_invariant n g Hm R s ->
    for_range check Hm R c delta indices last s = Ok out ->
    exists s',
      cg_invariant n g Hm R s' /\
      ((exists i, iteration check Hm R c delta i s' = Ok (Exit out)) \/
       (exists i, out = (p s', None, i, RESIDUAL_CONVERGENCE) /\
                  completes check Hm R c delta indices s s')).
Proof.
  induction indices as [|i rest IH]; intros last s out Hinv Hrun; simpl in Hrun.
  - exists s. split; [exact Hinv|]. right.
    destruct last as [i|]; [|discriminate]. exists i.
    inversion Hrun; subst. split; [reflexivity|constructor].
  - unfold bind in Hrun.
    destruct (iteration check Hm R c delta i s) as [[o|s1]|e] eqn:Hit; [| |discriminate].
    + inversion Hrun; subst. exists s. split; [exact Hinv|]. left. exists i. exact Hit.
    + destruct (IH (Some i) s1 out (iteration_keeps_invariant _ _ _ Hinv Hit) Hrun)
        as (s' & Hinv' & Hcases).
      exists s'. split; [exact Hinv'|].
      destruct Hcases as [Hexit|(j & Hout & Hall)]; [left; exact Hexit|].
      right. exists j. split; [exact Hout|].
      exact (completes_cons _ _ _ _ _ _ _ _ _ _ Hit Hall).
Qed.

Lemma implimentation_last_state (out : output) :
  _implimentation check constraint_check Hm R c delta g = Ok out ->
  exists z0 s',
    vdiv (vneg g) R = Ok z0 /\
    cg_invariant n g Hm R s' /\
    ((exists i, iteration check Hm R c delta i s' = Ok (Exit out)) \/
     (exists i, out = (p s', None, i, RESIDUAL_CONVERGENCE) /\
                completes check Hm R c delta (seq 0 n) (initial g z0) s')).
Proof.
  unfold _implimentation, bind. intro Hrun.
  destruct (negb (dyn_check _ _ _ _)); [discriminate|].
  destruct (negb (constraint_check c)); [discriminate|].
  destruct (vdiv (vneg g) R) as [z0|] eqn:Hz; [|discriminate].
  destruct (for_range_last_state _ _ _ _ (initial_invariant z0 Hz) Hrun)
    as (s' & Hinv & Hcases).
  exists z0, s'. auto.
Qed.

(** The arrays that the solver returns have the length of [g]. *)
Lemma implimentation_lengths (pt : vec) (d : option vec) (it : nat) (fl : PCG_Flag) :
  _implimentation check constraint_check Hm R c delta g = Ok (pt, d, it, fl) ->
  length pt = length g /\
  match d with
  | Some v => length v = length g
  | None => True
  end.
Proof.
  intro Hrun.
  destruct (implimentation_last_state _ Hrun) as (z0 & s' & _ & Hinv & Hcases).
  destruct Hinv as (Hlp & _ & _ & Hld & _).
  destruct Hcases as [(i & Hexit)|(i & Hout & _)].
  - destruct (iteration_exit _ _ _ _ _ _ _ _ Hexit) as (d' & fl' & Heq & Hd).
    inversion Heq; subst. split; [exact Hlp|].
    destruct Hd as [[_ ->]|(_ & _ & ->)]; [exact I|exact Hld].
  - inversion Hout; subst. split; [exact Hlp|exact I].
Qed.

(** X1: the arrays that the solver returns have the length of [g]: the
    step always, the direction when there is one.  The shape test that
    the decorator makes on the output cannot fail. *)
Theorem implimentation_output_shapes (pt : vec) (d : option vec) (it : nat) (fl : PCG_Flag) :
  _implimentation check constraint_check Hm R c delta g = Ok (pt, d, it, fl) ->
  length pt = length g /\
  match d with
  | Some v => length v = length g
  | None => True
  end.
Proof. apply implimentation_lengths. Qed.

End ConjugateGradient.

Lemma implimentation_flag
  (check : vec -> Linneq.constraints -> bool)
  (constraint_check : Linneq.constraints -> bool)
  (Hm : matrix) (R : vec) (c : Linneq.constraints) (delta : Q)
  (g pt : vec) (d : option vec) (it : nat) (fl : PCG.PCG_Flag) :
  PCG._implimentation check constraint_check Hm R c delta g = Ok (pt, d, it, fl) ->
  fl <> PCG.POLICY_ONLY.
Proof.
  unfold PCG._implimentation, bind. intro Hrun.
  destruct (negb (PCG.dyn_check _ _ _ _)); [discriminate|].
  destruct (negb (constraint_check c)); [discriminate|].
  destruct (vdiv _ _) as [z0|]; [|discriminate].
  revert Hrun. generalize (PCG.initial g z0) (@None nat).
  induction (seq 0 (length g)) as [|i rest IH]; intros s last Hrun; simpl in Hrun.
  - destruct last; inversion Hrun. discriminate.
  - unfold bind in Hrun.
    destruct (PCG.iteration check Hm R c delta i s) as [[o|s1]|e] eqn:Hit; [| |discriminate].
    + inversion Hrun; subst.
      destruct (iteration_exit _ _ _ _ _ _ _ _ Hit) as (d' & fl' & Heq & Hcases).
      inversion Heq; subst.
      destruct Hcases as [[Hfl _]|(_ & Hfl & _)]; [rewrite Hfl; discriminate|exact Hfl].
    + exact (IH _ _ Hrun).
Qed.

(** X5: the flag that the solver returns is one of the four inner flags,
    never POLICY_ONLY, and the direction is absent exactly when the flag
    is RESIDUAL_CONVERGENCE. *)
Theorem implimentation_flag_and_direction
  (check : vec -> Linneq.constraints -> bool)
  (constraint_check : Linneq.constraints -> bool)
  (Hm : matrix) (R : vec) (c : Linneq.constraints) (delta : Q)
  (g pt : vec) (d : option vec) (it : nat) (fl : PCG.PCG_Flag) :
  PCG._implimentation check constraint_check Hm R c delta g = Ok (pt, d, it, fl) ->
  fl <> PCG.POLICY_ONLY /\ (fl = PCG.RESIDUAL_CONVERGENCE <-> d = None).
Proof.
  intro Hrun. split; [exact (implimentation_flag _ _ _ _ _ _ _ _ _ _ _ Hrun)|].
  pose proof (implimentation_direct _ _ _ _ _ _ _ _ _ _ _ Hrun) as Hd.
  destruct fl; simpl in Hd;
    (split; intro Hx; [first [exact Hd|discriminate Hx]|first [reflexivity|contradiction]]).
Qed.

(* ------------------------------------------------------------------ *)
(** ** The policy wrapper [pcg] *)

Section PolicyFacts.

Import Linneq PCG Policy.

Variable sqrt : Q -> Q.
Variable subspace_decay :
  vec -> matrix -> vec -> vec -> Q -> constraints -> PCG_Flag -> option vec * PCG_Flag.
Variable hessian_precon : matrix -> vec.
Variable gradient_precon : vec -> vec.
Variable check : vec -> constraints -> bool.
Variable constraint_check : constraints -> bool.
Variables (g : vec) (H : matrix) (constraints : Linneq.constraints) (delta : Q).

Local Abbreviation fval := (Policy.fval g H).
Local Abbreviation follow_up := (Policy.follow_up sqrt subspace_decay g H constraints delta).
Local Abbreviation best_policy :=
  (Policy.best_policy sqrt subspace_decay check constraint_check g H constraints delta).
Local Abbreviation choose := (Policy.choose sqrt).
Local Abbreviation pcg :=
  (Policy.pcg sqrt subspace_decay hessian_precon gradient_precon check constraint_check
     g H constraints delta).
Local Abbreviation built := (built_from sqrt g H).
Local Abbreviation inner R := (_implimentation check constraint_check H R constraints delta g).

Lemma obind_done {X Y : Type} (m : outcome X) (k : X -> outcome Y) (y : Y) :
  obind m k = Done y -> exists a, m = Done a /\ k a = Done y.
Proof.
  destruct m as [a|e]; simpl; [|discriminate]. intro Hk. exists a. auto.
Qed.

Lemma lift_done {X : Type} (m : result X) (a : X) : lift m = Done a -> m = Ok a.
Proof. destruct m; simpl; intro Hm; inversion Hm; reflexivity. Qed.

(** The first test of lines 221 and 225 and the test of line 244 only
    succeed for a model value that is not larger. *)
Lemma better_le (fa fb : Q) (b : bool) :
  Qlt_bool fa fb || b = true -> (b = true -> fa == fb) -> fa <= fb.
Proof.
  intros Hor Heq. apply orb_true_iff in Hor. destruct Hor as [Hlt|Hb].
  - apply Qlt_le_weak, Qlt_bool_true. exact Hlt.
  - rewrite (Heq Hb). apply Qle_refl.
Qed.

(** The follow-up returns the step of the solver or a point of
    [subspace_decay], with its model value, which is not above that of
    the solver's step. *)
Lemma follow_up_spec (p1 : vec) (d : option vec) (fl : PCG_Flag)
      (p' : vec) (f' : Q) (fl' : PCG_Flag) :
  follow_up p1 d fl = Done (p', f', fl') ->
  f' = fval p' /\
  f' <= fval p1 /\
  (p' = p1 \/
   exists dd, subspace_decay g H p1 dd delta constraints fl = (Some p', fl')).
Proof.
  unfold Policy.follow_up.
  destruct (flag_eqb fl RESIDUAL_CONVERGENCE).
  - destruct d; [discriminate|]. intro Hrun. inversion Hrun; subst.
    split; [reflexivity|]. split; [apply Qle_refl|left; reflexivity].
  - destruct d as [dd|]; [|discriminate].
    destruct (subspace_decay g H p1 dd delta constraints fl) as [[q|] fl2] eqn:Hdecay.
    + destruct (Qlt_bool (fval q) (fval p1) || _) eqn:Hbetter;
        intro Hrun; inversion Hrun; subst.
      * split; [reflexivity|]. split.
        -- apply (better_le _ _ _ Hbetter). intro Hb.
           apply andb_true_iff in Hb. destruct Hb as [Heq _].
           apply Qeq_bool_iff in Heq. symmetry. exact Heq.
        -- right. exists dd. exact Hdecay.
      * split; [reflexivity|]. split; [apply Qle_refl|left; reflexivity].
    + intro Hrun. inversion Hrun; subst.
      split; [reflexivity|]. split; [apply Qle_refl|left; reflexivity].
Qed.

Lemma new_status_built (v : vec) (it : Z) (fl : PCG_Flag) :
  built (new_status sqrt (Some v) (Some (fval v)) it fl).
Proof. unfold built_from. simpl. split; reflexivity. Qed.

Lemma new_status_none_built (it : Z) (fl : PCG_Flag) :
  built (new_status sqrt None None it fl).
Proof. unfold built_from. simpl. split; reflexivity. Qed.

(** What [best_policy] returns: a status built by the constructor;
    its step, if any, is the solver's step, not all zero, or a point of
    [subspace_decay], and its model value is not above that of the
    solver's step. *)
Lemma best_policy_spec (R : vec) (st : PCG_Status) :
  best_policy R = Done st ->
  built st /\
  exists p1 d it fl,
    inner R = Ok (p1, d, it, fl) /\
    forall v, x st = Some v ->
      fval v <= fval p1 /\
      ((v = p1 /\ all_zero p1 = false) \/
       exists o dd fl0 fl', subspace_decay g H o dd delta constraints fl0 = (Some v, fl')).
Proof.
  unfold Policy.best_policy. intro Hrun.
  apply obind_done in Hrun. destruct Hrun as (z0 & _ & Hrun).
  destruct (subspace_decay g H (zeros (length g)) z0 delta constraints POLICY_ONLY)
    as [p0 exit0] eqn:Hp0.
  apply obind_done in Hrun. destruct Hrun as ([[[p1 d] it] fl] & Hinner & Hrun).
  apply lift_done in Hinner.
  apply obind_done in Hrun. destruct Hrun as ([[p1' f1] fl1] & Hfollow & Hrun).
  destruct (follow_up_spec _ _ _ _ _ _ Hfollow) as (Hf1 & Hle & Horigin). subst f1.
  assert (Hsecond :
            forall st',
              (if all_zero p1' then new_status sqrt None None (Z.of_nat it) fl1
               else new_status sqrt (Some p1') (Some (fval p1')) (Z.of_nat it) fl1) = st' ->
              built st' /\
              forall v, x st' = Some v ->
                fval v <= fval p1 /\
                ((v = p1 /\ all_zero p1 = false) \/
                 exists o dd fl0 fl',
                   subspace_decay g H o dd delta constraints fl0 = (Some v, fl'))).
  { intros st' Hst. destruct (all_zero p1') eqn:Hzero; subst st'.
    - split; [apply new_status_none_built|]. intros v Hv. discriminate Hv.
    - split; [apply new_status_built|]. intros v Hv. simpl in Hv. inversion Hv; subst v.
      split; [exact Hle|].
      destruct Horigin as [->|(dd & Hdecay)].
      + left. split; [reflexivity|exact Hzero].
      + right. exists p1, dd, fl, fl1. exact Hdecay. }
  destruct p0 as [q|].
  - destruct (improves sqrt (fval q) q (fval p1') p1') eqn:Hbetter.
    + inversion Hrun; subst st. split; [apply new_status_built|].
      exists p1, d, it, fl. split; [exact Hinner|].
      intros v Hv. simpl in Hv. inversion Hv; subst v. split.
      * apply Qle_trans with (fval p1'); [|exact Hle].
        apply (better_le _ _ _ Hbetter). intro Hb.
        apply andb_true_iff in Hb. destruct Hb as [Heq _].
        apply Qeq_bool_iff in Heq. exact Heq.
      * right. exists (zeros (length g)), z0, POLICY_ONLY, exit0. exact Hp0.
    + injection Hrun as Hst. destruct (Hsecond st Hst) as [Hb Hv].
      split; [exact Hb|]. exists p1, d, it, fl. split; [exact Hinner|exact Hv].
  - injection Hrun as Hst. destruct (Hsecond st Hst) as [Hb Hv].
    split; [exact Hb|]. exists p1, d, it, fl. split; [exact Hinner|exact Hv].
Qed.

(** The choice returns one of the two statuses; a status with a step
    wins over one without, and of two with a step the one that is
    returned has the model value that is not larger. *)
Lemma choose_spec (ret1 ret2 st : PCG_Status) :
  choose ret1 ret2 = Done st ->
  (st = ret1 \/ st = ret2) /\
  (x st = None -> x ret1 = None /\ x ret2 = None) /\
  (forall f f1 f2,
     PCG.fval st = Some f -> PCG.fval ret1 = Some f1 -> PCG.fval ret2 = Some f2 ->
     x ret1 <> None -> x ret2 <> None ->
     f <= f1 /\ f <= f2).
Proof.
  unfold Policy.choose.
  destruct (x ret1) as [x1|] eqn:Hx1; destruct (x ret2) as [x2|] eqn:Hx2.
  - destruct (PCG.fval ret1) as [f1|] eqn:Hf1; [|discriminate].
    destruct (PCG.fval ret2) as [f2|] eqn:Hf2; [|discriminate].
    destruct (Qlt_bool f1 f2 || _) eqn:Hbetter; intro Hrun; inversion Hrun; subst st.
    + split; [left; reflexivity|]. split; [intro Hn; congruence|].
      intros f f1' f2' Hf Hf1' Hf2' _ _.
      rewrite Hf1 in Hf. inversion Hf; subst. inversion Hf1'; subst. inversion Hf2'; subst.
      split; [apply Qle_refl|].
      apply (better_le _ _ _ Hbetter). intro Hb.
      apply andb_true_iff in Hb. destruct Hb as [Heq _].
      apply Qeq_bool_iff in Heq. exact Heq.
    + split; [right; reflexivity|]. split; [intro Hn; congruence|].
      intros f f1' f2' Hf Hf1' Hf2' _ _.
      rewrite Hf2 in Hf. inversion Hf; subst. inversion Hf1'; subst. inversion Hf2'; subst.
      split; [|apply Qle_refl].
      apply orb_false_iff in Hbetter. destruct Hbetter as [Hlt _].
      apply Qlt_bool_false in Hlt. exact Hlt.
  - intro Hrun. inversion Hrun; subst st.
    split; [left; reflexivity|]. split; [intro Hn; congruence|].
    intros f f1 f2 _ _ _ _ Hn. contradiction Hn. reflexivity.
  - intro Hrun. inversion Hrun; subst st.
    split; [right; reflexivity|]. split; [intro Hn; congruence|].
    intros f f1 f2 _ _ _ Hn _. contradiction Hn. reflexivity.
  - intro Hrun. inversion Hrun; subst st.
    split; [left; reflexivity|]. split; [auto|].
    intros f f1 f2 _ _ _ Hn _. contradiction Hn. reflexivity.
Qed.

Lemma output_check_done (st st' : PCG_Status) :
  output_check st = Done st' -> st' = st.
Proof.
  unfold Policy.output_check.
  destruct (x st); destruct (PCG.fval st); intro Hrun; inversion Hrun; reflexivity.
Qed.

(** From a status of [pcg] back to the two results of [best_policy]. *)
Lemma pcg_spec (st : PCG_Status) :
  pcg = Done st ->
  exists ret1 ret2,
    best_policy (hessian_precon H) = Done ret1 /\
    best_policy (gradient_precon g) = Done ret2 /\
    choose ret1 ret2 = Done st.
Proof.
  unfold Policy.pcg.
  destruct (negb (Policy.dyn_check g H constraints)); [discriminate|].
  destruct (negb (constraint_check constraints)); [discriminate|].
  intro Hrun.
  apply obind_done in Hrun. destruct Hrun as (ret1 & H1 & Hrun).
  apply obind_done in Hrun. destruct Hrun as (ret2 & H2 & Hrun).
  apply obind_done in Hrun. destruct Hrun as (ret & Hchoose & Hrun).
  apply output_check_done in Hrun. subst st.
  exists ret1, ret2. auto.
Qed.

Lemma pcg_built (st : PCG_Status) : pcg = Done st -> built st.
Proof.
  intro Hrun. destruct (pcg_spec st Hrun) as (ret1 & ret2 & H1 & H2 & Hchoose).
  destruct (choose_spec _ _ _ Hchoose) as ([->| ->] & _).
  - exact (proj1 (best_policy_spec _ _ H1)).
  - exact (proj1 (best_policy_spec _ _ H2)).
Qed.

(** X6: a status that [pcg] returns has [x], [fval] and [size] present
    together or absent together; when present, [fval] is the model value
    [g.T @ x + (0.5 * x).T @ H @ x] of the step and [size] is
    [sqrt (x @ x)]. *)
Theorem pcg_status_consistent (st : PCG_Status) :
  pcg = Done st ->
  match x st with
  | Some v => PCG.fval st = Some (fval v) /\ size st = Some (sqrt (dot v v))
  | None => PCG.fval st = None /\ size st = None
  end.
Proof. apply pcg_built. Qed.

(** *** The assertions of the wrapper *)

Lemma obind_assertion {X Y : Type} (m : outcome X) (k : X -> outcome Y) :
  assertion_failed m = false ->
  (forall a, m = Done a -> assertion_failed (k a) = false) ->
  assertion_failed (obind m k) = false.
Proof.
  intros Hm Hk. destruct m as [a|e]; simpl; [apply Hk; reflexivity|exact Hm].
Qed.

Lemma lift_assertion {X : Type} (m : result X) : assertion_failed (lift m) = false.
Proof. destruct m; reflexivity. Qed.

Lemma follow_up_assertion (p1 : vec) (d : option vec) (fl : PCG_Flag) :
  (if flag_eqb fl RESIDUAL_CONVERGENCE then d = None else d <> None) ->
  assertion_failed (follow_up p1 d fl) = false.
Proof.
  unfold Policy.follow_up. intro Hd.
  destruct (flag_eqb fl RESIDUAL_CONVERGENCE).
  - subst d. reflexivity.
  - destruct d as [dd|]; [|contradiction Hd; reflexivity].
    destruct (subspace_decay _ _ _ _ _ _ _) as [[q|] fl2]; [|reflexivity].
    destruct (_ || _); reflexivity.
Qed.

Lemma best_policy_assertion (R : vec) : assertion_failed (best_policy R) = false.
Proof.
  unfold Policy.best_policy.
  apply obind_assertion; [apply lift_assertion|]. intros z0 _.
  destruct (subspace_decay _ _ _ _ _ _ _) as [p0 exit0].
  apply obind_assertion; [apply lift_assertion|]. intros [[[p1 d] it] fl] Hinner.
  apply lift_done in Hinner.
  apply obind_assertion.
  - apply follow_up_assertion.
    exact (implimentation_direct _ _ _ _ _ _ _ _ _ _ _ Hinner).
  - intros [[p1' f1] fl1] _.
    destruct p0 as [q|]; [destruct (improves _ _ _ _ _)|]; reflexivity.
Qed.

Lemma built_fval (st : PCG_Status) :
  built st -> (x st = None <-> PCG.fval st = None).
Proof.
  unfold built_from. destruct (x st) as [v|].
  - intros [Hf _]. rewrite Hf. split; discriminate.
  - intros [Hf _]. rewrite Hf. split; reflexivity.
Qed.

Lemma choose_assertion (ret1 ret2 : PCG_Status) :
  built ret1 -> built ret2 -> assertion_failed (choose ret1 ret2) = false.
Proof.
  intros Hb1 Hb2. unfold Policy.choose.
  pose proof (built_fval _ Hb1) as [_ H1]. pose proof (built_fval _ Hb2) as [_ H2].
  destruct (x ret1) as [x1|]; destruct (x ret2) as [x2|]; try reflexivity.
  destruct (PCG.fval ret1); [|discriminate (H1 eq_refl)].
  destruct (PCG.fval ret2); [|discriminate (H2 eq_refl)].
  destruct (_ || _); reflexivity.
Qed.

Lemma output_check_assertion (st : PCG_Status) :
  built st -> assertion_failed (output_check st) = false.
Proof.
  intro Hb. unfold Policy.output_check. unfold built_from in Hb.
  destruct (x st) as [v|]; destruct Hb as [Hf _]; rewrite Hf; reflexivity.
Qed.

(** X7: no call of [pcg] stops at an assertion of the wrapper: the two
    on [direct] in [best_policy], the two on [fval] before the final
    comparison, and the two of the output check all hold. *)
Theorem pcg_assertions_hold : assertion_failed pcg = false.
Proof.
  unfold Policy.pcg.
  destruct (negb (Policy.dyn_check g H constraints)); [reflexivity|].
  destruct (negb (constraint_check constraints)); [reflexivity|].
  apply obind_assertion; [apply best_policy_assertion|]. intros ret1 H1.
  apply obind_assertion; [apply best_policy_assertion|]. intros ret2 H2.
  pose proof (proj1 (best_policy_spec _ _ H1)) as Hb1.
  pose proof (proj1 (best_policy_spec _ _ H2)) as Hb2.
  apply obind_assertion; [apply choose_assertion; assumption|]. intros ret Hchoose.
  apply output_check_assertion.
  destruct (choose_spec _ _ _ Hchoose) as ([->| ->] & _); assumption.
Qed.

(** X8: [pcg] returns one of the two results of [best_policy], the one
    for the Hessian preconditioner or the one for the gradient
    preconditioner.  It returns no step only when neither has one, and
    its model value is not above the model value of either. *)
Theorem pcg_returns_the_better (st : PCG_Status) :
  pcg = Done st ->
  exists ret1 ret2,
    best_policy (hessian_precon H) = Done ret1 /\
    best_policy (gradient_precon g) = Done ret2 /\
    (st = ret1 \/ st = ret2) /\
    (x st = None -> x ret1 = None /\ x ret2 = None) /\
    (forall f1, PCG.fval ret1 = Some f1 -> exists f, PCG.fval st = Some f /\ f <= f1) /\
    (forall f2, PCG.fval ret2 = Some f2 -> exists f, PCG.fval st = Some f /\ f <= f2).
Proof.
  intro Hrun. destruct (pcg_spec st Hrun) as (ret1 & ret2 & H1 & H2 & Hchoose).
  exists ret1, ret2. split; [exact H1|]. split; [exact H2|].
  pose proof (proj1 (best_policy_spec _ _ H1)) as Hb1.
  pose proof (proj1 (best_policy_spec _ _ H2)) as Hb2.
  destruct (choose_spec _ _ _ Hchoose) as (Hor & Hnone & Hle).
  split; [exact Hor|]. split; [exact Hnone|].
  assert (Hb : built st) by (destruct Hor as [->| ->]; assumption).
  assert (Hcases :
            forall f1 f2, PCG.fval ret1 = Some f1 -> PCG.fval ret2 = Some f2 ->
                          exists f, PCG.fval st = Some f /\ f <= f1 /\ f <= f2).
  { intros f1 f2 Hf1 Hf2.
    destruct (PCG.fval st) as [f|] eqn:Hf.
    - exists f. split; [reflexivity|].
      apply (Hle f f1 f2 eq_refl Hf1 Hf2).
      + intro Hn. apply (built_fval _ Hb1) in Hn. congruence.
      + intro Hn. apply (built_fval _ Hb2) in Hn. congruence.
    - apply (built_fval _ Hb) in Hf. destruct (Hnone Hf) as [Hn1 _].
      apply (built_fval _ Hb1) in Hn1. congruence. }
  split.
  - intros f1 Hf1. destruct (PCG.fval ret2) as [f2|] eqn:Hf2.
    + destruct (Hcases f1 f2 Hf1 eq_refl) as (f & Hf & Hle1 & _). exists f. auto.
    + assert (Hst : st = ret1).
      { destruct Hor as [->| ->]; [reflexivity|].
        apply (built_fval _ Hb2) in Hf2. destruct (Hnone Hf2) as [Hn1 _].
        apply (built_fval _ Hb1) in Hn1. congruence. }
      subst st. exists f1. split; [exact Hf1|apply Qle_refl].
  - intros f2 Hf2. destruct (PCG.fval ret1) as [f1|] eqn:Hf1.
    + destruct (Hcases f1 f2 eq_refl Hf2) as (f & Hf & _ & Hle2). exists f. auto.
    + assert (Hst : st = ret2).
      { destruct Hor as [->| ->]; [|reflexivity].
        apply (built_fval _ Hb1) in Hf1. destruct (Hnone Hf1) as [_ Hn2].
        apply (built_fval _ Hb2) in Hn2. congruence. }
      subst st. exists f2. split; [exact Hf2|apply Qle_refl].
Qed.

End PolicyFacts.

(* ------------------------------------------------------------------ *)
(** ** The driver: what a run keeps *)

Section DriverInvariants.

Import Linneq TrustRegion.

Variable objective : vec -> Q.
Variable make_gradient :
  vec -> constraints -> Trust_Region_Options -> Z -> ext -> Q -> Gradient.
Variable make_hessian : vec -> constraints -> Trust_Region_Options -> matrix.
Variable pcg : vec -> matrix -> constraints -> Q -> PCG.PCG_Status.
Variable check : vec -> constraints -> bool.
Variable constraint_check : constraints -> vec -> bool.
Variable constraints : Linneq.constraints.
Variable opts : Trust_Region_Options.

Local Abbreviation make_hess := (TrustRegion.make_hess make_hessian constraints opts).
Local Abbreviation no_step := (TrustRegion.no_step make_hessian constraints opts).
Local Abbreviation radius_update := (TrustRegion.radius_update make_hessian constraints opts).
Local Abbreviation acceptance := (TrustRegion.acceptance make_gradient constraints opts).
Local Abbreviation residual_check := (TrustRegion.residual_check make_hessian constraints opts).
Local Abbreviation stall_check := (TrustRegion.stall_check make_hessian constraints opts).
Local Abbreviation candidate :=
  (TrustRegion.candidate objective make_gradient make_hessian constraints opts).
Local Abbreviation loop_body :=
  (TrustRegion.loop_body objective make_gradient make_hessian pcg constraints opts).
Local Abbreviation main_loop :=
  (TrustRegion.main_loop objective make_gradient make_hessian pcg constraints opts).
Local Abbreviation loop_top :=
  (TrustRegion.loop_top objective make_gradient make_hessian pcg constraints opts).
Local Abbreviation initialise :=
  (TrustRegion.initialise objective make_gradient make_hessian check constraints opts).
Local Abbreviation trust_region_fuel :=
  (TrustRegion.trust_region_fuel objective make_gradient make_hessian pcg check
     constraint_check constraints opts).
Local Abbreviation trust_region :=
  (TrustRegion.trust_region objective make_gradient make_hessian pcg check
     constraint_check constraints opts).
Local Abbreviation fresh := {| hessian_is_up_to_date := true; times_after_hessian_shaking := 0 |}.
Local Abbreviation gives_up := (TrustRegion.gives_up opts).
Local Abbreviation mh v := (make_hessian v constraints opts).

Ltac unfold_monad :=
  unfold mbind, get, put, ret, raise in *; cbn beta iota in *.

(** *** The statements of a pass, case by case *)

Lemma no_step_cases (l : locals) (c c' : closure) (o : outcome) :
  no_step l c = Ok (o, c') ->
  (hessian_is_up_to_date c = true /\
   o = Continue (set_delta l (delta l / 4)) /\ c' = c) \/
  (hessian_is_up_to_date c = false /\
   o = Continue (set_H l (mh (x l))) /\ c' = fresh).
Proof.
  unfold TrustRegion.no_step. unfold_monad.
  destruct (hessian_is_up_to_date c) eqn:Hup.
  - intro Hrun. inversion Hrun; subst. left. auto.
  - rewrite (make_hess_stale _ _ _ _ _ Hup). cbn beta iota.
    intro Hrun. inversion Hrun; subst. right. auto.
Qed.

Lemma radius_update_cases (l l' : locals) (ratio size : Q) (c c' : closure) :
  radius_update l ratio size c = Ok (l', c') ->
  (l' = set_delta l (delta l * 2) /\ c' = c) \/
  (hessian_is_up_to_date c = true /\ l' = set_delta l (size / 4) /\ c' = c) \/
  (hessian_is_up_to_date c = false /\ l' = set_H l (mh (x l)) /\ c' = fresh) \/
  (l' = l /\ c' = c).
Proof.
  unfold TrustRegion.radius_update. unfold_monad.
  destruct (_ && _).
  - intro Hrun. inversion Hrun; subst. left. auto.
  - destruct (Qle_bool ratio _).
    + destruct (hessian_is_up_to_date c) eqn:Hup.
      * intro Hrun. inversion Hrun; subst. right. left. auto.
      * rewrite (make_hess_stale _ _ _ _ _ Hup). cbn beta iota.
        intro Hrun. inversion Hrun; subst. right. right. left. auto.
    + intro Hrun. inversion Hrun; subst. right. right. right. auto.
Qed.

Lemma acceptance_cases (l l' : locals) (new_x : vec) (new_fval : Q) (c c' : closure) :
  acceptance l new_x new_fval c = Ok (l', c') ->
  (fval l <= new_fval /\ l' = l /\ c' = c) \/
  (new_fval < fval l /\
   c' = {| hessian_is_up_to_date := false;
           times_after_hessian_shaking := times_after_hessian_shaking c |} /\
   exists old n,
     l' = set_stall
            (set_point l new_x new_fval
               (make_gradient new_x constraints opts (iter l)
                  (Fin (infnorm (grad l))) (init_grad_infnorm l))
               (shift constraints new_x))
            old n).
Proof.
  unfold TrustRegion.acceptance, TrustRegion.get_info. unfold_monad.
  destruct (Qlt_bool new_fval (fval l)) eqn:Hlt.
  - apply Qlt_bool_true in Hlt.
    destruct (match abstol_fval opts with Some _ => _ | None => _ end);
      intro Hrun; inversion Hrun; subst; right;
      (split; [exact Hlt|]); (split; [reflexivity|]); eexists; eexists; reflexivity.
  - apply Qlt_bool_false in Hlt. intro Hrun. inversion Hrun; subst. left. auto.
Qed.

Lemma residual_check_cases (l : locals) (fl : PCG.PCG_Flag) (size : Q)
      (c c' : closure) (o : Trust_Region_Result.t + locals) :
  residual_check l fl size c = Ok (o, c') ->
  (hessian_is_up_to_date c = true /\ c' = c /\
   o = inl (Trust_Region_Result.mk (x l) (iter l) (delta l) (grad l) true)) \/
  (o = inr l /\ c' = c) \/
  (hessian_is_up_to_date c = false /\ o = inr (set_H l (mh (x l))) /\ c' = fresh).
Proof.
  unfold TrustRegion.residual_check. unfold_monad.
  destruct (PCG.flag_eqb _ _).
  - destruct (hessian_is_up_to_date c) eqn:Hup.
    + destruct (Qlt_bool (infnorm _) _); [|destruct (Qlt_bool size _)];
        intro Hrun; inversion Hrun; subst; auto.
    + rewrite (make_hess_stale _ _ _ _ _ Hup). cbn beta iota.
      intro Hrun. inversion Hrun; subst. right. right. auto.
  - intro Hrun. inversion Hrun; subst. right. left. auto.
Qed.

Lemma stall_check_cases (l : locals) (c c' : closure) (o : outcome) :
  stall_check l c = Ok (o, c') ->
  (hessian_is_up_to_date c = true /\ c' = c /\
   o = Return (Trust_Region_Result.mk (x l) (iter l) (delta l) (grad l) true)) \/
  (o = Continue l /\ c' = c) \/
  (hessian_is_up_to_date c = false /\ o = Continue (set_H l (mh (x l))) /\ c' = fresh).
Proof.
  unfold TrustRegion.stall_check. unfold_monad.
  destruct (match max_stall_iter opts with Some _ => _ | None => _ end).
  - destruct (hessian_is_up_to_date c) eqn:Hup.
    + intro Hrun. inversion Hrun; subst. left. auto.
    + rewrite (make_hess_stale _ _ _ _ _ Hup). cbn beta iota.
      intro Hrun. inversion Hrun; subst. right. right. auto.
  - intro Hrun. inversion Hrun; subst. right. left. auto.
Qed.

(** *** The invariant *)

Section Kept.

Variable good : vec -> Prop.
Variable fine : Q -> Prop.
Variable x0 : vec.

(** A step of the solver leads from a good point to a good point; a
    radius stays fine when it is divided by 4, doubled, or replaced by a
    quarter of the size of a step. *)
Hypothesis step_good :
  forall l px,
    good (x l) ->
    _constr_shifted l = shift constraints (x l) ->
    PCG.x (pcg (value (grad l)) (H l) (_constr_shifted l) (delta l)) = Some px ->
    good (vadd (x l) px).
Hypothesis fine_quarter : forall d, fine d -> fine (d / 4).
Hypothesis fine_double : forall d, fine d -> fine (d * 2).
Hypothesis fine_size :
  forall gv Hv cs d sz, PCG.size (pcg gv Hv cs d) = Some sz -> fine (sz / 4).

Local Abbreviation Inv :=
  (driver_invariant objective make_gradient make_hessian constraints opts good fine x0).

Lemma inv_closure (l : locals) (c c' : closure) :
  Inv l c ->
  (hessian_is_up_to_date c' = true -> hessian_is_up_to_date c = true) ->
  Inv l c'.
Proof.
  intros (Hf & Hg & Hcs & HH & Hle & Hit & Hgood & Hfine) Hup.
  repeat (split; [assumption|]). split; [|repeat (split; [assumption|]); assumption].
  intro Hc'. apply HH. apply Hup. exact Hc'.
Qed.

Lemma inv_set_H (l : locals) (c c' : closure) :
  Inv l c -> Inv (set_H l (mh (x l))) c'.
Proof.
  intros (Hf & Hg & Hcs & HH & Hle & Hit & Hgood & Hfine).
  unfold driver_invariant. simpl.
  repeat (split; [assumption|]). split; [intros _; reflexivity|].
  repeat (split; [assumption|]). assumption.
Qed.

Lemma inv_set_delta (l : locals) (c : closure) (d : Q) :
  Inv l c -> fine d -> Inv (set_delta l d) c.
Proof.
  intros (Hf & Hg & Hcs & HH & Hle & Hit & Hgood & Hfine) Hd.
  unfold driver_invariant. simpl.
  repeat (split; [assumption|]). assumption.
Qed.

Lemma inv_next_iter (l : locals) (c : closure) :
  Inv l c -> (iter l <= max_iter opts)%Z -> Inv (set_iter l (iter l + 1)%Z) c.
Proof.
  intros (Hf & Hg & Hcs & HH & Hle & Hit & Hgood & Hfine) Hmax.
  unfold driver_invariant. simpl.
  repeat (split; [assumption|]). split; [lia|]. split; assumption.
Qed.

Lemma inv_fine (l : locals) (c : closure) : Inv l c -> fine (delta l).
Proof. intros (_ & _ & _ & _ & _ & _ & _ & Hfine). exact Hfine. Qed.

Lemma no_step_keeps (l l' : locals) (c c' : closure) :
  Inv l c -> no_step l c = Ok (Continue l', c') -> Inv l' c'.
Proof.
  intros Hinv Hrun.
  destruct (no_step_cases _ _ _ _ Hrun) as [(_ & Ho & ->)|(_ & Ho & ->)];
    inversion Ho; subst.
  - apply inv_set_delta; [exact Hinv|]. apply fine_quarter. exact (inv_fine _ _ Hinv).
  - exact (inv_set_H _ _ _ Hinv).
Qed.

Lemma radius_update_keeps (l l' : locals) (ratio size : Q) (c c' : closure) :
  Inv l c -> fine (size / 4) ->
  radius_update l ratio size c = Ok (l', c') -> Inv l' c'.
Proof.
  intros Hinv Hsize Hrun.
  destruct (radius_update_cases _ _ _ _ _ _ Hrun)
    as [(-> & ->)|[(_ & -> & ->)|[(_ & -> & ->)|(-> & ->)]]].
  - apply inv_set_delta; [exact Hinv|]. apply fine_double. exact (inv_fine _ _ Hinv).
  - apply inv_set_delta; assumption.
  - exact (inv_set_H _ _ _ Hinv).
  - exact Hinv.
Qed.

Lemma acceptance_keeps (l l' : locals) (new_x : vec) (c c' : closure) :
  Inv l c -> good new_x ->
  acceptance l new_x (objective new_x) c = Ok (l', c') -> Inv l' c'.
Proof.
  intros Hinv Hnew Hrun.
  destruct (acceptance_cases _ _ _ _ _ _ Hrun)
    as [(_ & -> & ->)|(Hlt & -> & old & k & ->)]; [exact Hinv|].
  destruct Hinv as (Hf & Hg & Hcs & HH & Hle & Hit & Hgood & Hfine).
  unfold driver_invariant. simpl.
  split; [reflexivity|]. split; [eexists; eexists; eexists; reflexivity|].
  split; [reflexivity|]. split; [discriminate|].
  split; [apply Qle_trans with (fval l); [apply Qlt_le_weak; exact Hlt|exact Hle]|].
  split; [exact Hit|]. split; assumption.
Qed.

Local Abbreviation kept :=
  (pass_keeps objective make_gradient make_hessian constraints opts good fine x0).

Lemma candidate_keeps (l : locals) (st : PCG.PCG_Status) (px : vec)
      (c c' : closure) (o : outcome) :
  Inv l c ->
  good (vadd (x l) px) ->
  (forall sz, PCG.size st = Some sz -> fine (sz / 4)) ->
  candidate l st px c = Ok (o, c') ->
  kept o c'.
Proof.
  intros Hinv Hnew Hsize. unfold TrustRegion.candidate.
  destruct (PCG.fval st) as [pf|]; [|discriminate].
  destruct (PCG.size st) as [size|]; [|discriminate].
  intro Hrun.
  apply mbind_ok in Hrun. destruct Hrun as (l1 & c1 & Hradius & Hrun).
  apply mbind_ok in Hrun. destruct Hrun as (l2 & c2 & Haccept & Hrun).
  apply mbind_ok in Hrun. destruct Hrun as (o3 & c3 & Hresidual & Hrun).
  pose proof (radius_update_keeps _ _ _ _ _ _ Hinv (Hsize size eq_refl) Hradius) as Hinv1.
  pose proof (acceptance_keeps _ _ _ _ _ Hinv1 Hnew Haccept) as Hinv2.
  destruct (residual_check_cases _ _ _ _ _ _ Hresidual)
    as [(_ & -> & ->)|[(-> & ->)|(_ & -> & ->)]].
  - unfold ret in Hrun. inversion Hrun; subst. exists l2. split; [exact Hinv2|reflexivity].
  - destruct (stall_check_cases _ _ _ _ Hrun) as [(_ & -> & ->)|[(-> & ->)|(_ & -> & ->)]].
    + exists l2. split; [exact Hinv2|reflexivity].
    + exact Hinv2.
    + exact (inv_set_H _ _ _ Hinv2).
  - pose proof (inv_set_H _ _ fresh Hinv2) as Hinv3.
    destruct (stall_check_cases _ _ _ _ Hrun) as [(_ & -> & ->)|[(-> & ->)|(Hup & _)]].
    + eexists. split; [exact Hinv3|reflexivity].
    + exact Hinv3.
    + discriminate Hup.
Qed.

Lemma loop_body_keeps (hs : Z) (l : locals) (c c' : closure) (o : outcome) :
  Inv l c ->
  loop_body hs l c = Ok (o, c') ->
  kept o c'.
Proof.
  intros Hinv Hrun. destruct (gives_up l) eqn:Hg.
  - rewrite (loop_body_gives_up _ _ _ _ _ _ _ _ _ Hg) in Hrun.
    inversion Hrun; subst. exists l. split; [exact Hinv|reflexivity].
  - unfold TrustRegion.gives_up in Hg. apply orb_false_iff in Hg. destruct Hg as [Hd Hi].
    unfold TrustRegion.loop_body in Hrun. rewrite Hd, Hi in Hrun.
    apply Z.ltb_ge in Hi.
    apply mbind_ok in Hrun. destruct Hrun as (c0 & c1 & Hget & Hrun).
    unfold get in Hget. inversion Hget; subst c0 c1.
    apply mbind_ok in Hrun. destruct Hrun as (l1 & c2 & Hrefresh & Hrun).
    assert (Hinv1 : Inv l1 c2 /\ iter l1 = iter l).
    { destruct (_ && _) eqn:Hcond.
      - apply andb_true_iff in Hcond. destruct Hcond as [_ Hup].
        apply negb_true_iff in Hup.
        unfold mbind in Hrefresh. rewrite (make_hess_stale _ _ _ _ _ Hup) in Hrefresh.
        unfold ret in Hrefresh. inversion Hrefresh; subst.
        split; [exact (inv_set_H _ _ _ Hinv)|reflexivity].
      - unfold ret in Hrefresh. inversion Hrefresh; subst. split; [exact Hinv|reflexivity]. }
    destruct Hinv1 as [Hinv1 Hit1].
    apply mbind_ok in Hrun. destruct Hrun as (c3 & c4 & Hget2 & Hrun).
    unfold get in Hget2. inversion Hget2; subst c3 c4.
    apply mbind_ok in Hrun. destruct Hrun as (u & c5 & Hput & Hrun).
    unfold put in Hput. inversion Hput; subst c5. clear Hput Hget Hget2.
    assert (Hinv2 : Inv (set_iter l1 (iter l1 + 1)%Z)
                        {| hessian_is_up_to_date := hessian_is_up_to_date c2;
                           times_after_hessian_shaking :=
                             (times_after_hessian_shaking c2 + 1)%Z |}).
    { apply inv_next_iter; [|rewrite Hit1; exact Hi].
      apply (inv_closure _ c2); [exact Hinv1|]. simpl. auto. }
    destruct (PCG.x (pcg (value (grad l1)) (H l1) (_constr_shifted l1) (delta l1)))
      as [px|] eqn:Hx.
    + apply (candidate_keeps _ _ _ _ _ _ Hinv2) in Hrun; [exact Hrun| |].
      * destruct Hinv1 as (_ & _ & Hcs & _ & _ & _ & Hgood & _).
        exact (step_good l1 px Hgood Hcs Hx).
      * intros sz Hsz. exact (fine_size _ _ _ _ _ Hsz).
    + destruct (no_step_cases _ _ _ _ Hrun) as [(_ & -> & _)|(_ & -> & _)];
        exact (no_step_keeps _ _ _ _ Hinv2 Hrun).
Qed.

Lemma initialise_keeps (l0 : locals) (c0 : closure) :
  good x0 -> fine (init_delta opts) ->
  initialise x0 (fresh_closure) = Ok (l0, c0) ->
  Inv l0 c0.
Proof.
  intros Hgood Hfine. unfold TrustRegion.initialise, TrustRegion.get_info.
  destruct (negb (check _ _)); [discriminate|].
  unfold mbind. rewrite make_hess_stale by reflexivity. unfold ret.
  intro Hrun. inversion Hrun; subst. unfold driver_invariant. simpl.
  split; [reflexivity|]. split; [eexists; eexists; eexists; reflexivity|].
  split; [reflexivity|]. split; [reflexivity|]. split; [apply Qle_refl|].
  split; [lia|]. split; assumption.
Qed.

Lemma loop_top_keeps (hs : Z) (l0 : locals) (c0 : closure) (l : locals) (c : closure) :
  Inv l0 c0 -> loop_top hs l0 c0 l c -> Inv l c.
Proof.
  intros Hinv Htop. induction Htop as [|l c l' c' Htop IH Hbody]; [exact Hinv|].
  exact (loop_body_keeps _ _ _ _ _ IH Hbody).
Qed.

(** The result of a run is made of variables that satisfy the invariant. *)
Lemma trust_region_keeps (fuel : nat) (res : Trust_Region_Result.t) (cf : closure) :
  good x0 -> fine (init_delta opts) ->
  trust_region_fuel fuel x0 = Ok (Some res, cf) ->
  exists l', Inv l' cf /\
    Trust_Region_Result.x res = x l' /\
    Trust_Region_Result.iter res = iter l' /\
    Trust_Region_Result.delta res = delta l' /\
    Trust_Region_Result.gradient res = grad l'.
Proof.
  intros Hgood Hfine Hrun.
  destruct (trust_region_last_pass _ _ _ _ _ _ _ _ _ _ _ _ Hrun)
    as (l0 & l & c & Hinit & Htop & Hbody).
  pose proof (initialise_keeps _ _ Hgood Hfine Hinit) as Hinv0.
  pose proof (loop_top_keeps _ _ _ _ _ Hinv0 Htop) as Hinv.
  destruct (loop_body_keeps _ _ _ _ _ Hinv Hbody) as (l' & Hinv' & Hres).
  exists l'. split; [exact Hinv'|]. rewrite Hres. simpl. auto.
Qed.

End Kept.

(** *** What a run guarantees *)

(** X11: the objective at the point that [trust_region] returns is not
    above the objective at the starting point. *)
Theorem trust_region_descends
        (fuel : nat) (x0 : vec) (res : Trust_Region_Result.t) (cf : closure) :
  trust_region_fuel fuel x0 = Ok (Some res, cf) ->
  objective (Trust_Region_Result.x res) <= objective x0.
Proof.
  intro Hrun.
  destruct (trust_region_keeps (fun _ => True) (fun _ => True) x0
              (fun _ _ _ _ _ => I) (fun _ _ => I) (fun _ _ => I)
              (fun _ _ _ _ _ _ => I) fuel res cf I I Hrun)
    as (l' & (Hf & _ & _ & _ & Hle & _) & Hx & _).
  rewrite Hx, <- Hf. exact Hle.
Qed.

(** X12: the gradient bundle in the result of [trust_region] was made by
    [make_gradient] at the point in the result. *)
Theorem trust_region_result_gradient
        (fuel : nat) (x0 : vec) (res : Trust_Region_Result.t) (cf : closure) :
  trust_region_fuel fuel x0 = Ok (Some res, cf) ->
  exists i e n0,
    Trust_Region_Result.gradient res =
    make_gradient (Trust_Region_Result.x res) constraints opts i e n0.
Proof.
  intro Hrun.
  destruct (trust_region_keeps (fun _ => True) (fun _ => True) x0
              (fun _ _ _ _ _ => I) (fun _ _ => I) (fun _ _ => I)
              (fun _ _ _ _ _ _ => I) fuel res cf I I Hrun)
    as (l' & (_ & Hg & _) & Hx & _ & _ & Hgrad).
  rewrite Hx, Hgrad. exact Hg.
Qed.

(** X13: the iteration count in the result of [trust_region] is not
    negative and is at most [max_iter + 1] (at most 0 when [max_iter] is
    negative). *)
Theorem trust_region_iteration_bound
        (fuel : nat) (x0 : vec) (res : Trust_Region_Result.t) (cf : closure) :
  trust_region_fuel fuel x0 = Ok (Some res, cf) ->
  (0 <= Trust_Region_Result.iter res <= Z.max 0 (max_iter opts + 1))%Z.
Proof.
  intro Hrun.
  destruct (trust_region_keeps (fun _ => True) (fun _ => True) x0
              (fun _ _ _ _ _ => I) (fun _ _ => I) (fun _ _ => I)
              (fun _ _ _ _ _ _ => I) fuel res cf I I Hrun)
    as (l' & (_ & _ & _ & _ & _ & Hit & _) & _ & Hiter & _).
  rewrite Hiter. exact Hit.
Qed.

(** X14: when the initial radius is not negative and the solver reports
    no negative size, the radius in the result of [trust_region] is not
    negative. *)
Theorem trust_region_radius_not_negative
        (fuel : nat) (x0 : vec) (res : Trust_Region_Result.t) (cf : closure) :
  0 <= init_delta opts ->
  (forall gv Hv cs d sz, PCG.size (pcg gv Hv cs d) = Some sz -> 0 <= sz) ->
  trust_region_fuel fuel x0 = Ok (Some res, cf) ->
  0 <= Trust_Region_Result.delta res.
Proof.
  intros Hinit Hsize Hrun.
  assert (Hquarter : forall d, 0 <= d -> 0 <= d / 4).
  { intros d Hd. apply Qle_shift_div_l; [reflexivity|]. rewrite Qmult_0_l. exact Hd. }
  assert (Hdouble : forall d, 0 <= d -> 0 <= d * 2).
  { intros d Hd. apply Qmult_le_0_compat; [exact Hd|discriminate]. }
  destruct (trust_region_keeps (fun _ => True) (fun d => 0 <= d) x0
              (fun _ _ _ _ _ => I) Hquarter Hdouble
              (fun gv Hv cs d sz Hsz => Hquarter sz (Hsize gv Hv cs d sz Hsz))
              fuel res cf I Hinit Hrun)
    as (l' & (_ & _ & _ & _ & _ & _ & _ & Hfine) & _ & _ & Hdelta & _).
  rewrite Hdelta. exact Hfine.
Qed.

(** *** The part of a pass that handles a step *)

Lemma radius_update_defined (l : locals) (ratio size : Q) (c : closure) :
  exists l' c', radius_update l ratio size c = Ok (l', c').
Proof.
  unfold TrustRegion.radius_update. unfold_monad.
  destruct (_ && _); [eexists; eexists; reflexivity|].
  destruct (Qle_bool ratio _); [|eexists; eexists; reflexivity].
  destruct (hessian_is_up_to_date c) eqn:Hup.
  - eexists. eexists. reflexivity.
  - rewrite (make_hess_stale _ _ _ _ _ Hup). cbn beta iota. eexists. eexists. reflexivity.
Qed.

Lemma acceptance_defined (l : locals) (new_x : vec) (new_fval : Q) (c : closure) :
  exists l' c', acceptance l new_x new_fval c = Ok (l', c').
Proof.
  unfold TrustRegion.acceptance, TrustRegion.get_info. unfold_monad.
  destruct (Qlt_bool new_fval (fval l)); [|eexists; eexists; reflexivity].
  match goal with |- context [if ?b then _ else _] => destruct b end;
    eexists; eexists; reflexivity.
Qed.

Lemma residual_check_defined (l : locals) (fl : PCG.PCG_Flag) (size : Q) (c : closure) :
  exists o c', residual_check l fl size c = Ok (o, c').
Proof.
  unfold TrustRegion.residual_check. unfold_monad.
  destruct (PCG.flag_eqb fl _); [|eexists; eexists; reflexivity].
  destruct (hessian_is_up_to_date c) eqn:Hup.
  - destruct (Qlt_bool (infnorm _) _); [eexists; eexists; reflexivity|].
    destruct (Qlt_bool size _); eexists; eexists; reflexivity.
  - rewrite (make_hess_stale _ _ _ _ _ Hup). cbn beta iota. eexists. eexists. reflexivity.
Qed.

Lemma stall_check_defined (l : locals) (c : closure) :
  exists o c', stall_check l c = Ok (o, c').
Proof.
  unfold TrustRegion.stall_check. unfold_monad.
  match goal with |- context [if ?b then _ else _] => destruct b end;
    [|eexists; eexists; reflexivity].
  destruct (hessian_is_up_to_date c) eqn:Hup.
  - eexists. eexists. reflexivity.
  - rewrite (make_hess_stale _ _ _ _ _ Hup). cbn beta iota. eexists. eexists. reflexivity.
Qed.

(** The only exceptions of the part of the loop body that handles a step
    are the two assertions on the status. *)
Lemma candidate_outcome (l : locals) (st : PCG.PCG_Status) (px : vec) (c : closure) :
  (exists o c', candidate l st px c = Ok (o, c')) \/
  ((PCG.fval st = None \/ PCG.size st = None) /\
   status_assertion_failed (candidate l st px c) = true).
Proof.
  unfold TrustRegion.candidate.
  destruct (PCG.fval st) as [pf|]; [|right; split; [left|]; reflexivity].
  destruct (PCG.size st) as [size|]; [|right; split; [right|]; reflexivity].
  left.
  match goal with |- context [radius_update ?a ?b ?d] =>
    destruct (radius_update_defined a b d c) as (l1 & c1 & H1) end.
  destruct (acceptance_defined l1 (vadd (x l) px) (objective (vadd (x l) px)) c1)
    as (l2 & c2 & H2).
  destruct (residual_check_defined l2 (PCG.flag st) size c2) as (o3 & c3 & H3).
  unfold mbind at 1. rewrite H1. unfold mbind at 1. rewrite H2.
  unfold mbind at 1. rewrite H3.
  destruct o3 as [res|l3].
  - eexists. eexists. reflexivity.
  - apply stall_check_defined.
Qed.

(** *** A solver that finds no step *)

Lemma loop_body_without_step (hs : Z) (l : locals) (c c' : closure)
      (res : Trust_Region_Result.t) :
  (forall gv Hv cs d, PCG.x (pcg gv Hv cs d) = None) ->
  loop_body hs l c = Ok (Return res, c') ->
  Trust_Region_Result.success res = false.
Proof.
  intros Hnone Hrun. destruct (gives_up l) eqn:Hg.
  - rewrite (loop_body_gives_up _ _ _ _ _ _ _ _ _ Hg) in Hrun.
    inversion Hrun; subst. reflexivity.
  - unfold TrustRegion.gives_up in Hg. apply orb_false_iff in Hg. destruct Hg as [Hd Hi].
    unfold TrustRegion.loop_body in Hrun. rewrite Hd, Hi in Hrun.
    apply mbind_ok in Hrun. destruct Hrun as (c0 & c1 & _ & Hrun).
    apply mbind_ok in Hrun. destruct Hrun as (l1 & c2 & _ & Hrun).
    apply mbind_ok in Hrun. destruct Hrun as (c3 & c4 & _ & Hrun).
    apply mbind_ok in Hrun. destruct Hrun as (u & c5 & _ & Hrun).
    rewrite Hnone in Hrun.
    destruct (no_step_cases _ _ _ _ Hrun) as [(_ & Ho & _)|(_ & Ho & _)]; discriminate Ho.
Qed.

(** X17: when the solver never finds a step, [trust_region] returns the
    starting point and reports failure. *)
Theorem trust_region_without_step
        (fuel : nat) (x0 : vec) (res : Trust_Region_Result.t) (cf : closure) :
  (forall gv Hv cs d, PCG.x (pcg gv Hv cs d) = None) ->
  trust_region_fuel fuel x0 = Ok (Some res, cf) ->
  Trust_Region_Result.x res = x0 /\ Trust_Region_Result.success res = false.
Proof.
  intros Hnone Hrun. split.
  - assert (Hstep : forall l px, x l = x0 ->
              _constr_shifted l = shift constraints (x l) ->
              PCG.x (pcg (value (grad l)) (H l) (_constr_shifted l) (delta l)) = Some px ->
              vadd (x l) px = x0).
    { intros l px _ _ Hx. rewrite Hnone in Hx. discriminate Hx. }
    destruct (trust_region_keeps (fun v => v = x0) (fun _ => True) x0
                Hstep (fun _ _ => I) (fun _ _ => I)
                (fun _ _ _ _ _ _ => I) fuel res cf eq_refl I Hrun)
      as (l' & (_ & _ & _ & _ & _ & _ & Hgood & _) & Hx & _).
    rewrite Hx. exact Hgood.
  - destruct (trust_region_last_pass _ _ _ _ _ _ _ _ _ _ _ _ Hrun)
      as (l0 & l & c & _ & _ & Hbody).
    exact (loop_body_without_step _ _ _ _ _ Hnone Hbody).
Qed.

(** *** The cached values *)

(** X21: at the top of every pass of the main loop the cached values
    belong to the current point: [fval] is the objective at [x],
    [_constr_shifted] is the bundle shifted to [x], and [H] is the
    Hessian made at [x] whenever [hessian_is_up_to_date] is set; and
    [fval] is not above the objective at the start. *)
Theorem trust_region_cached_values
        (x0 : vec) (l0 : locals) (c0 : closure) (l : locals) (c : closure) :
  initialise x0 (fresh_closure) = Ok (l0, c0) ->
  loop_top (hessian_shaking opts x0) l0 c0 l c ->
  fval l = objective (x l) /\
  _constr_shifted l = shift constraints (x l) /\
  (hessian_is_up_to_date c = true -> H l = make_hessian (x l) constraints opts) /\
  fval l <= objective x0.
Proof.
  intros Hinit Htop.
  pose proof (initialise_keeps (fun _ => True) (fun _ => True) x0 l0 c0 I I Hinit)
    as Hinv0.
  destruct (loop_top_keeps (fun _ => True) (fun _ => True) x0
              (fun _ _ _ _ _ => I) (fun _ _ => I) (fun _ _ => I)
              (fun _ _ _ _ _ _ => I) _ _ _ _ _ Hinv0 Htop)
    as (Hf & _ & Hcs & HH & Hle & _).
  auto.
Qed.

End DriverInvariants.

(* ------------------------------------------------------------------ *)
(** ** The descent ratio *)

(** X19: the ratio of lines 189-193 lies between 0 and 1, whatever the
    change of the objective and the model value. *)
Theorem ratio_of_range (reduce pcg_fval : Q) :
  0 <= TrustRegion.ratio_of reduce pcg_fval <= 1.
Proof.
  unfold TrustRegion.ratio_of.
  destruct (Qle_bool 0 reduce) eqn:Hsign; [split; discriminate|].
  destruct (Qle_bool reduce pcg_fval) eqn:Hmodel; [split; discriminate|].
  apply Qle_bool_false in Hsign, Hmodel.
  assert (Hneg : 0 < - pcg_fval) by Lqa.lra.
  assert (Heq : reduce / pcg_fval == (- reduce) / (- pcg_fval)).
  { field. intro Hz. rewrite Hz in Hneg. revert Hneg. apply Qle_not_lt. discriminate. }
  rewrite Heq. split.
  - apply Qle_shift_div_l; [exact Hneg|]. Lqa.lra.
  - apply Qle_shift_div_r; [exact Hneg|]. Lqa.lra.
Qed.

(* ------------------------------------------------------------------ *)
(** ** The wrapper's statuses in the driver *)

Section StatusInDriver.

Import Linneq PCG.

Variable sqrt : Q -> Q.
Variable subspace_decay :
  vec -> matrix -> vec -> vec -> Q -> constraints -> PCG_Flag -> option vec * PCG_Flag.
Variable hessian_precon : matrix -> vec.
Variable gradient_precon : vec -> vec.
Variable check : vec -> constraints -> bool.
Variable constraint_check : constraints -> bool.

Variable objective : vec -> Q.
Variable make_gradient :
  vec -> constraints -> TrustRegion.Trust_Region_Options -> Z -> ext -> Q ->
  TrustRegion.Gradient.
Variable make_hessian : vec -> constraints -> TrustRegion.Trust_Region_Options -> matrix.
Variable constraints : Linneq.constraints.
Variable opts : TrustRegion.Trust_Region_Options.

(** X20: a status that [pcg] returns with a step passes the two
    assertions of trust_region.py:180-181: the part of the loop body
    that handles the step runs to its end. *)
Theorem pcg_status_passes_driver_assertions
        (g : vec) (H : matrix) (cs : Linneq.constraints) (delta : Q)
        (st : PCG_Status) (px : vec) (l : TrustRegion.locals) (c : TrustRegion.closure) :
  Policy.pcg sqrt subspace_decay hessian_precon gradient_precon check constraint_check
    g H cs delta = Policy.Done st ->
  x st = Some px ->
  exists o c',
    TrustRegion.candidate objective make_gradient make_hessian constraints opts
      l st px c = Ok (o, c').
Proof.
  intros Hrun Hx.
  pose proof (pcg_built _ _ _ _ _ _ _ _ _ _ _ Hrun) as Hbuilt.
  unfold built_from in Hbuilt. rewrite Hx in Hbuilt. destruct Hbuilt as [Hf Hs].
  destruct (candidate_outcome objective make_gradient make_hessian constraints opts
              l st px c) as [Hok|[[Hnone|Hnone] _]].
  - exact Hok.
  - rewrite Hf in Hnone. discriminate Hnone.
  - rewrite Hs in Hnone. discriminate Hnone.
Qed.

End StatusInDriver.

(* ------------------------------------------------------------------ *)
(** ** Instances of the further properties *)

Section FurtherInstances.

Import Linneq Quadratic1D Planar.

Lemma infinity_norm_nonneg (v : vec) : 0 <= infinity_norm v.
Proof.
  induction v as [|a v IH]; simpl.
  - apply Qle_refl.
  - apply Qle_trans with (Qabs a); [apply Qabs_nonneg|apply Q.le_max_l].
Qed.

Lemma quadratic1d_sizes (gv : vec) (Hv : matrix) (cs : constraints) (d sz : Q) :
  PCG.size (Quadratic1D.pcg gv Hv cs d) = Some sz -> 0 <= sz.
Proof.
  unfold Quadratic1D.pcg.
  destruct (PCG._implimentation _ _ _ _ _ _ _) as [[[[p1 dd] it] fl]|e];
    [destruct (forallb _ p1)|]; simpl; intro Hsz; try discriminate Hsz.
  inversion Hsz. apply infinity_norm_nonneg.
Qed.

(** With the constraint [p1 + p2 <= 2] the trial point [(1, 2)] is
    refused: the step is zero and the direction is returned. *)
Lemma implimentation_output_shapes_witness :
  PCG.dyn_check identity [1; 1] box [-1; -2] = true /\
  PCG._implimentation check constraint_check identity [1; 1] box 10 [-1; -2]
    = Ok ([0; 0], Some [1; 2], 0%nat, PCG.VIOLATE_CONSTRAINTS) /\
  length [0; 0] = length [-1; -2] /\ length [1; 2] = length [-1; -2].
Proof.
  split; [vm_compute; reflexivity|]. split; [vm_compute; reflexivity|].
  apply (implimentation_output_shapes check constraint_check identity [1; 1] box 10
           [-1; -2] eq_refl [0; 0] (Some [1; 2]) 0%nat PCG.VIOLATE_CONSTRAINTS).
  vm_compute; reflexivity.
Defined.

Lemma implimentation_flag_and_direction_witness :
  PCG._implimentation check constraint_check identity [1; 1] box 10 [-1; -2]
    = Ok ([0; 0], Some [1; 2], 0%nat, PCG.VIOLATE_CONSTRAINTS) /\
  PCG.VIOLATE_CONSTRAINTS <> PCG.POLICY_ONLY /\
  (PCG.VIOLATE_CONSTRAINTS = PCG.RESIDUAL_CONVERGENCE <-> Some [1; 2] = None).
Proof.
  split; [vm_compute; reflexivity|].
  apply (implimentation_flag_and_direction check constraint_check identity [1; 1] box 10
           [-1; -2] [0; 0] (Some [1; 2]) 0%nat PCG.VIOLATE_CONSTRAINTS).
  vm_compute; reflexivity.
Defined.

(** Under [box] both calls of [_implimentation] return the zero step and
    it is the follow-up along the direction that finds [(1/2, 1)]. *)
Lemma pcg_status_consistent_witness :
  Planar.pcg [-1; -2] identity box 10 = Policy.Done half_step /\
  PCG.fval half_step = Some (Policy.fval [-1; -2] identity [1 # 2; 2 # 2]) /\
  PCG.size half_step = Some (Planar.sqrt (dot [1 # 2; 2 # 2] [1 # 2; 2 # 2])).
Proof.
  split; [vm_compute; reflexivity|].
  apply (pcg_status_consistent Planar.sqrt subspace_decay hessian_precon gradient_precon
           check constraint_check [-1; -2] identity box 10 half_step).
  vm_compute; reflexivity.
Defined.

Lemma pcg_returns_the_better_witness :
  Planar.pcg [-1] [[1]] bounded 10 = Policy.Done half_step_1d /\
  exists ret1 ret2,
    Policy.best_policy Planar.sqrt subspace_decay check constraint_check
      [-1] [[1]] bounded 10 (hessian_precon [[1]]) = Policy.Done ret1 /\
    Policy.best_policy Planar.sqrt subspace_decay check constraint_check
      [-1] [[1]] bounded 10 (gradient_precon [-1]) = Policy.Done ret2 /\
    (half_step_1d = ret1 \/ half_step_1d = ret2) /\
    (PCG.x half_step_1d = None -> PCG.x ret1 = None /\ PCG.x ret2 = None) /\
    (forall f1, PCG.fval ret1 = Some f1 ->
                exists f, PCG.fval half_step_1d = Some f /\ f <= f1) /\
    (forall f2, PCG.fval ret2 = Some f2 ->
                exists f, PCG.fval half_step_1d = Some f /\ f <= f2).
Proof.
  split; [vm_compute; reflexivity|].
  apply (pcg_returns_the_better Planar.sqrt subspace_decay hessian_precon gradient_precon
           check constraint_check [-1] [[1]] bounded 10 half_step_1d).
  vm_compute; reflexivity.
Defined.

(** The run from [x = 1] with the stall detector armed ends at the
    minimiser after one pass. *)
Lemma trust_region_descends_witness :
  let res := TrustRegion.Trust_Region_Result.mk [0] 1 2
               {| TrustRegion.value := [0]; TrustRegion.infnorm := 0 |} true in
  trust_region stall_options [1] = Ok (Some res, current 0) /\
  objective [0] <= objective [1].
Proof.
  intro res. split; [vm_compute; reflexivity|].
  apply (trust_region_descends objective make_gradient make_hessian Quadratic1D.pcg check
           (fun c _ => constraint_check c) unconstrained stall_options
           (TrustRegion.enough_fuel stall_options) [1] res (current 0)).
  vm_compute; reflexivity.
Defined.

Lemma trust_region_result_gradient_witness :
  let res := TrustRegion.Trust_Region_Result.mk [0] 1 2
               {| TrustRegion.value := [0]; TrustRegion.infnorm := 0 |} true in
  trust_region stall_options [1] = Ok (Some res, current 0) /\
  exists i e n0,
    {| TrustRegion.value := [0]; TrustRegion.infnorm := 0 |}
    = make_gradient [0] unconstrained stall_options i e n0.
Proof.
  intro res. split; [vm_compute; reflexivity|].
  apply (trust_region_result_gradient objective make_gradient make_hessian
           Quadratic1D.pcg check (fun c _ => constraint_check c) unconstrained
           stall_options (TrustRegion.enough_fuel stall_options) [1] res (current 0)).
  vm_compute; reflexivity.
Defined.

Lemma trust_region_iteration_bound_witness :
  let res := TrustRegion.Trust_Region_Result.mk [0] 1 2
               {| TrustRegion.value := [0]; TrustRegion.infnorm := 0 |} true in
  trust_region stall_options [1] = Ok (Some res, current 0) /\
  (0 <= 1 <= Z.max 0 (TrustRegion.max_iter stall_options + 1))%Z.
Proof.
  intro res. split; [vm_compute; reflexivity|].
  apply (trust_region_iteration_bound objective make_gradient make_hessian
           Quadratic1D.pcg check (fun c _ => constraint_check c) unconstrained
           stall_options (TrustRegion.enough_fuel stall_options) [1] res (current 0)).
  vm_compute; reflexivity.
Defined.

Lemma trust_region_radius_not_negative_witness :
  let res := TrustRegion.Trust_Region_Result.mk [0] 1 2
               {| TrustRegion.value := [0]; TrustRegion.infnorm := 0 |} true in
  0 <= TrustRegion.init_delta stall_options /\
  (forall gv Hv cs d sz, PCG.size (Quadratic1D.pcg gv Hv cs d) = Some sz -> 0 <= sz) /\
  trust_region stall_options [1] = Ok (Some res, current 0) /\
  0 <= 2.
Proof.
  intro res. split; [vm_compute; discriminate|].
  split; [exact quadratic1d_sizes|]. split; [vm_compute; reflexivity|].
  apply (trust_region_radius_not_negative objective make_gradient make_hessian
           Quadratic1D.pcg check (fun c _ => constraint_check c) unconstrained
           stall_options (TrustRegion.enough_fuel stall_options) [1] res (current 0)).
  - vm_compute; discriminate.
  - exact quadratic1d_sizes.
  - vm_compute; reflexivity.
Defined.

(** With [max_iter = 3] and a solver that never finds a step the radius
    is divided by 4 in each of four passes and the fifth gives up. *)
Lemma trust_region_without_step_witness :
  let res := TrustRegion.Trust_Region_Result.mk [1] 4 (1 # 256)
               {| TrustRegion.value := [1]; TrustRegion.infnorm := 1 |} false in
  (forall gv Hv cs d, PCG.x (never gv Hv cs d) = None) /\
  TrustRegion.trust_region objective make_gradient make_hessian never check
    (fun c _ => constraint_check c) unconstrained (TrustRegion.default_options 3) [1]
  = Ok (Some res, current 4) /\
  [1] = [1] /\ false = false.
Proof.
  intro res. split; [reflexivity|]. split; [vm_compute; reflexivity|].
  apply (trust_region_without_step objective make_gradient make_hessian never check
           (fun c _ => constraint_check c) unconstrained (TrustRegion.default_options 3)
           (TrustRegion.enough_fuel (TrustRegion.default_options 3)) [1] res (current 4)).
  - reflexivity.
  - vm_compute; reflexivity.
Defined.

(** The run from [x = 1] with [max_iter = 1] at the top of its third
    pass. *)
Lemma trust_region_cached_values_witness :
  TrustRegion.initialise objective make_gradient make_hessian check unconstrained
    (TrustRegion.default_options 1) [1] TrustRegion.fresh_closure
  = Ok (run_start, current 0) /\
  TrustRegion.loop_top objective make_gradient make_hessian Quadratic1D.pcg unconstrained
    (TrustRegion.default_options 1)
    (TrustRegion.hessian_shaking (TrustRegion.default_options 1) [1])
    run_start (current 0) run_pass2 (current 1) /\
  TrustRegion.fval run_pass2 = objective (TrustRegion.x run_pass2) /\
  TrustRegion._constr_shifted run_pass2 = shift unconstrained (TrustRegion.x run_pass2) /\
  (TrustRegion.hessian_is_up_to_date (current 1) = true ->
   TrustRegion.H run_pass2
   = make_hessian (TrustRegion.x run_pass2) unconstrained (TrustRegion.default_options 1)) /\
  TrustRegion.fval run_pass2 <= objective [1].
Proof.
  split; [vm_compute; reflexivity|]. split; [exact third_pass_is_entered|].
  apply (trust_region_cached_values objective make_gradient make_hessian Quadratic1D.pcg
           check unconstrained (TrustRegion.default_options 1) [1]
           run_start (current 0) run_pass2 (current 1)).
  - vm_compute; reflexivity.
  - exact third_pass_is_entered.
Defined.

(** The status of the wrapper under [x <= 1/2], handed to the driver at
    the start of the run from [x = 1]. *)
Lemma pcg_status_passes_driver_assertions_witness :
  Planar.pcg [-1] [[1]] bounded 10 = Policy.Done half_step_1d /\
  PCG.x half_step_1d = Some [1 # 2] /\
  exists o c',
    TrustRegion.candidate objective make_gradient make_hessian bounded
      (TrustRegion.default_options 10) run_start half_step_1d [1 # 2] (current 0)
    = Ok (o, c').
Proof.
  split; [vm_compute; reflexivity|]. split; [reflexivity|].
  apply (pcg_status_passes_driver_assertions Planar.sqrt subspace_decay hessian_precon
           gradient_precon check constraint_check objective make_gradient make_hessian
           bounded (TrustRegion.default_options 10) [-1] [[1]] bounded 10
           half_step_1d [1 # 2] run_start (current 0)).
  - vm_compute; reflexivity.
  - reflexivity.
Defined.

End FurtherInstances.

(* ================================================================== *)
(** * The program in binary64 *)

(** ** The order of floats *)

(** The comparison of two finite floats in canonical form is the
    comparison of the rationals they stand for. *)
Section Order.

Import F64.

Local Abbreviation mag := magnitude.

Lemma digits2_pos_bounds (m : positive) :
  (2 ^ (Z.pos (SpecFloat.digits2_pos m) - 1) <= Z.pos m
   < 2 ^ Z.pos (SpecFloat.digits2_pos m))%Z.
Proof.
  induction m as [m IH|m IH|]; cbn [SpecFloat.digits2_pos].
  - rewrite Pos2Z.inj_succ. change (Z.pos m~1) with (2 * Z.pos m + 1)%Z.
    replace (Z.succ (Z.pos (SpecFloat.digits2_pos m)) - 1)%Z
      with (Z.succ (Z.pos (SpecFloat.digits2_pos m) - 1)) by lia.
    rewrite !Z.pow_succ_r by lia. lia.
  - rewrite Pos2Z.inj_succ. change (Z.pos m~0) with (2 * Z.pos m)%Z.
    replace (Z.succ (Z.pos (SpecFloat.digits2_pos m)) - 1)%Z
      with (Z.succ (Z.pos (SpecFloat.digits2_pos m) - 1)) by lia.
    rewrite !Z.pow_succ_r by lia. lia.
  - simpl. lia.
Qed.

Lemma bounded_digits (m : positive) (e : Z) :
  SpecFloat.bounded prec emax m e = true ->
  (Z.pos m < 2 ^ 53 /\ (-1074 <= e) /\ (-1074 < e -> 2 ^ 52 <= Z.pos m))%Z.
Proof.
  unfold SpecFloat.bounded, SpecFloat.canonical_mantissa, SpecFloat.fexp, SpecFloat.emin,
    prec, emax.
  intro Hb. apply andb_true_iff in Hb. destruct Hb as [Hc _].
  apply Z.eqb_eq in Hc.
  pose proof (digits2_pos_bounds m) as [Hlo Hhi].
  set (d := Z.pos (SpecFloat.digits2_pos m)) in *.
  assert (Hd : (d <= 53)%Z) by lia.
  split; [|split].
  - apply Z.lt_le_trans with (2 ^ d)%Z; [exact Hhi|].
    apply Z.pow_le_mono_r; lia.
  - lia.
  - intro He. assert (Hd53 : d = 53%Z) by lia.
    rewrite Hd53 in Hlo. exact Hlo.
Qed.

Lemma two_power_pos (e : Z) : 0 < 2 ^ e.
Proof. apply Qpower_0_lt. reflexivity. Qed.

Lemma mag_pos (m : positive) (e : Z) : 0 < mag m e.
Proof.
  unfold magnitude. apply Qmult_lt_0_compat; [|apply two_power_pos].
  unfold Qlt. simpl. lia.
Qed.

Lemma mag_lt (m1 m2 : positive) (e1 e2 : Z) :
  SpecFloat.bounded prec emax m1 e1 = true ->
  SpecFloat.bounded prec emax m2 e2 = true ->
  (e1 < e2)%Z ->
  mag m1 e1 < mag m2 e2.
Proof.
  intros H1 H2 He.
  destruct (bounded_digits _ _ H1) as (Hm1 & He1 & _).
  destruct (bounded_digits _ _ H2) as (_ & _ & Hm2).
  specialize (Hm2 ltac:(lia)).
  unfold magnitude.
  replace e2 with (e1 + (e2 - e1))%Z by lia.
  rewrite Qpower_plus by discriminate.
  rewrite <- (Zpower_Qpower 2 (e2 - e1)) by lia.
  rewrite (Qmult_comm (2 ^ e1)), Qmult_assoc, <- inject_Z_mult.
  apply Qmult_lt_r; [apply two_power_pos|].
  rewrite <- Zlt_Qlt.
  assert (Hk : (2 <= 2 ^ (e2 - e1))%Z).
  { change 2%Z with (2 ^ 1)%Z at 1. apply Z.pow_le_mono_r; lia. }
  nia.
Qed.

Lemma compare_mag (m1 m2 : positive) (e1 e2 : Z) :
  SpecFloat.bounded prec emax m1 e1 = true ->
  SpecFloat.bounded prec emax m2 e2 = true ->
  (mag m1 e1 ?= mag m2 e2) =
  match (e1 ?= e2)%Z with
  | Lt => Lt
  | Gt => Gt
  | Eq => Pos.compare m1 m2
  end.
Proof.
  intros H1 H2.
  destruct (Z.compare_spec e1 e2) as [He|He|He].
  - subst e2. destruct (Pos.compare_spec m1 m2) as [Hm|Hm|Hm].
    + subst m2. apply (proj1 (Qeq_alt _ _)). reflexivity.
    + apply (proj1 (Qlt_alt _ _)). unfold magnitude. apply Qmult_lt_r; [apply two_power_pos|].
      rewrite <- Zlt_Qlt. lia.
    + apply (proj1 (Qgt_alt _ _)). unfold magnitude. apply Qmult_lt_r; [apply two_power_pos|].
      rewrite <- Zlt_Qlt. lia.
  - apply (proj1 (Qlt_alt _ _)). apply mag_lt; assumption.
  - apply (proj1 (Qgt_alt _ _)). apply mag_lt; assumption.
Qed.

Lemma Qcompare_opp (a b : Q) : (- a ?= - b) = CompOpp (a ?= b).
Proof.
  unfold Qcompare. simpl. rewrite !Z.mul_opp_l, Z.compare_opp.
  rewrite Z.compare_antisym. reflexivity.
Qed.

Lemma neg_mag (m : positive) (e : Z) : inject_Z (Z.neg m) * 2 ^ e == - mag m e.
Proof.
  unfold magnitude. change (Z.neg m) with (- Z.pos m)%Z. rewrite inject_Z_opp. ring.
Qed.

Lemma compare_to_Q (a b : float) (qa qb : Q) :
  to_Q a = Some qa -> to_Q b = Some qb ->
  SpecFloat.SFcompare a b = Some (qa ?= qb).
Proof.
  destruct a as [sa|sa| |sa ma ea]; try discriminate;
    destruct b as [sb|sb| |sb mb eb]; try discriminate; simpl.
  - intros Ha Hb. inversion Ha; inversion Hb; subst. reflexivity.
  - destruct (SpecFloat.bounded prec emax mb eb) eqn:Bb; [|discriminate].
    intros Ha Hb. inversion Ha; inversion Hb; subst. f_equal.
    pose proof (mag_pos mb eb) as Hpos.
    destruct sb.
    + symmetry. apply (proj1 (Qgt_alt _ _)). rewrite neg_mag. lra.
    + symmetry. apply (proj1 (Qlt_alt _ _)). exact Hpos.
  - destruct (SpecFloat.bounded prec emax ma ea) eqn:Ba; [|discriminate].
    intros Ha Hb. inversion Ha; inversion Hb; subst. f_equal.
    pose proof (mag_pos ma ea) as Hpos.
    destruct sa.
    + symmetry. apply (proj1 (Qlt_alt _ _)). rewrite neg_mag. lra.
    + symmetry. apply (proj1 (Qgt_alt _ _)). exact Hpos.
  - destruct (SpecFloat.bounded prec emax ma ea) eqn:Ba; [|discriminate].
    destruct (SpecFloat.bounded prec emax mb eb) eqn:Bb; [|discriminate].
    intros Ha Hb. inversion Ha; inversion Hb; subst. f_equal.
    pose proof (mag_pos ma ea) as Hpa. pose proof (mag_pos mb eb) as Hpb.
    destruct sa, sb.
    + rewrite !neg_mag, Qcompare_opp, (compare_mag _ _ _ _ Ba Bb).
      destruct (ea ?= eb)%Z; reflexivity.
    + symmetry. apply (proj1 (Qlt_alt _ _)). rewrite neg_mag. fold (mag mb eb). lra.
    + symmetry. apply (proj1 (Qgt_alt _ _)). rewrite neg_mag. fold (mag ma ea). lra.
    + fold (mag ma ea) (mag mb eb). rewrite (compare_mag _ _ _ _ Ba Bb).
      destruct (ea ?= eb)%Z; reflexivity.
Qed.

End Order.

(* ------------------------------------------------------------------ *)
(** ** The feasibility test on floats that stand for rationals *)

Section Transfer.


Lemma leb_represents (a b : F64.float) (qa qb : Q) :
  represents a qa -> represents b qb -> F64.leb a b = Qle_bool qa qb.
Proof.
  unfold represents. intros Ha Hb.
  destruct (F64.to_Q a) as [qa'|] eqn:Ea; [|contradiction].
  destruct (F64.to_Q b) as [qb'|] eqn:Eb; [|contradiction].
  unfold F64.leb, SpecFloat.SFleb. rewrite (compare_to_Q _ _ _ _ Ea Eb).
  rewrite <- Ha, <- Hb.
  destruct (qa' ?= qb') eqn:Hc; symmetry.
  - apply Qle_bool_iff. apply Qle_alt. rewrite Hc. discriminate.
  - apply Qle_bool_iff. apply Qle_alt. rewrite Hc. discriminate.
  - destruct (Qle_bool qa' qb') eqn:Hle; [|reflexivity].
    apply Qle_bool_iff in Hle. apply Qle_alt in Hle. contradiction.
Qed.

Lemma represents_finite (a : F64.float) (q : Q) :
  represents a q -> exists s, a = SpecFloat.S754_zero s \/ exists m e, a = SpecFloat.S754_finite s m e.
Proof.
  unfold represents. destruct a as [s|s| |s m e]; simpl; try contradiction; intros _.
  - exists s. left. reflexivity.
  - exists s. right. eauto.
Qed.

Lemma leb_bound_lower (l a : F64.float) (e : Linneq.ext) (q : Q) :
  represents_bound l e -> represents a q -> F64.leb l a = Linneq.ext_le_fin e q.
Proof.
  intros Hl Ha. destruct e as [|ql|]; simpl in *.
  - subst l. destruct (represents_finite _ _ Ha) as (s & [->|(m & ex & ->)]); reflexivity.
  - exact (leb_represents _ _ _ _ Hl Ha).
  - subst l. destruct (represents_finite _ _ Ha) as (s & [->|(m & ex & ->)]); reflexivity.
Qed.

Lemma leb_bound_upper (a u : F64.float) (q : Q) (e : Linneq.ext) :
  represents a q -> represents_bound u e -> F64.leb a u = Linneq.fin_le_ext q e.
Proof.
  intros Ha Hu. destruct e as [|qu|]; simpl in *.
  - subst u. destruct (represents_finite _ _ Ha) as (s & [->|(m & ex & ->)]); reflexivity.
  - exact (leb_represents _ _ _ _ Ha Hu).
  - subst u. destruct (represents_finite _ _ Ha) as (s & [->|(m & ex & ->)]); reflexivity.
Qed.

Lemma forallb2_transfer {X Y X' Y' : Type} (f : X -> Y -> bool) (f' : X' -> Y' -> bool)
      (P : X -> X' -> Prop) (S : Y -> Y' -> Prop) :
  (forall a b a' b', P a a' -> S b b' -> f a b = f' a' b') ->
  forall u u', Forall2 P u u' ->
  forall v v', Forall2 S v v' ->
  Linneq.forallb2 f u v = Linneq.forallb2 f' u' v'.
Proof.
  intros Hf u u' Hu. induction Hu as [|a a' u u' Ha Hu IH]; intros v v' Hv.
  - reflexivity.
  - destruct Hv as [|b b' v v' Hb Hv]; [reflexivity|].
    simpl. rewrite (Hf _ _ _ _ Ha Hb), (IH _ _ Hv). reflexivity.
Qed.

(** On floats that stand for rationals the float test is the exact one. *)
Lemma check_transfer (p : F64.fvec) (pq : vec) (c : FLinneq.constraints)
      (cq : Linneq.constraints) :
  exact_vec p pq ->
  exact_vec (F64.matvec (FLinneq.A c) p) (matvec (Linneq.A cq) pq) ->
  exact_vec (FLinneq.b c) (Linneq.b cq) ->
  Forall2 represents_bound (FLinneq.lb c) (Linneq.lb cq) ->
  Forall2 represents_bound (FLinneq.ub c) (Linneq.ub cq) ->
  FLinneq.check p c = Linneq.check pq cq.
Proof.
  intros Hp HA Hb Hlb Hub. unfold FLinneq.check, Linneq.check.
  rewrite (forallb2_transfer F64.leb Qle_bool represents represents leb_represents _ _ HA _ _ Hb).
  rewrite (forallb2_transfer F64.leb Linneq.ext_le_fin represents_bound represents
             leb_bound_lower _ _ Hlb _ _ Hp).
  rewrite (forallb2_transfer F64.leb Linneq.fin_le_ext represents represents_bound
             leb_bound_upper _ _ Hp _ _ Hub).
  reflexivity.
Qed.

End Transfer.

(* ------------------------------------------------------------------ *)
(** ** The shifted constraint bundle *)

(** C6, as the code has it: [get_info] computes the shifted bundle
    [(A, b - A @ x, lb - x, ub - x)] in float64.  When none of the
    operations involved rounds (the floats [x + p], [b - A @ x],
    [lb - x], [ub - x], [A @ (x + p)] and [A @ p] stand for the exact
    results), [x + p] satisfies [A (x+p) <= b] and [lb <= x+p <= ub]
    exactly when [p] satisfies the shifted bundle. *)
Theorem shifted_feasibility_without_rounding
        (c : FLinneq.constraints) (x p : F64.fvec)
        (cq : Linneq.constraints) (xq pq : vec) :
  Linneq.shape_ok (length xq) cq = true ->
  length pq = length xq ->
  exact_bundle c cq ->
  exact_vec x xq ->
  exact_vec p pq ->
  exact_vec (F64.vadd x p) (vadd xq pq) ->
  exact_vec (F64.matvec (FLinneq.A c) (F64.vadd x p)) (matvec (Linneq.A cq) (vadd xq pq)) ->
  exact_vec (F64.matvec (FLinneq.A c) p) (matvec (Linneq.A cq) pq) ->
  exact_bundle (FLinneq.shift c x) (Linneq.shift cq xq) ->
  (FLinneq.check (F64.vadd x p) c = true <-> FLinneq.check p (FLinneq.shift c x) = true).
Proof.
  intros Hshape Hlen (_ & Hb & Hlb & Hub) _ Hp Hsum Hrows Hrows' (_ & Hb' & Hlb' & Hub').
  rewrite (check_transfer _ _ _ _ Hsum Hrows Hb Hlb Hub).
  rewrite (check_transfer p pq (FLinneq.shift c x) (Linneq.shift cq xq) Hp Hrows' Hb' Hlb' Hub').
  rewrite (check_shift cq xq pq Hshape Hlen). reflexivity.
Qed.

(** In the plane, with small integers: nothing is rounded. *)
Lemma shifted_feasibility_without_rounding_witness :
  let x := [Rounding.one; Rounding.one] in
  let p := [Rounding.one; Rounding.one] in
  Linneq.shape_ok (length [1; 1]) Quadratic1D.planar = true /\
  length [1; 1] = length [1; 1] /\
  exact_bundle Rounding.planar Quadratic1D.planar /\
  exact_vec x [1; 1] /\
  exact_vec p [1; 1] /\
  exact_vec (F64.vadd x p) (vadd [1; 1] [1; 1]) /\
  exact_vec (F64.matvec (FLinneq.A Rounding.planar) (F64.vadd x p))
    (matvec (Linneq.A Quadratic1D.planar) (vadd [1; 1] [1; 1])) /\
  exact_vec (F64.matvec (FLinneq.A Rounding.planar) p)
    (matvec (Linneq.A Quadratic1D.planar) [1; 1]) /\
  exact_bundle (FLinneq.shift Rounding.planar x) (Linneq.shift Quadratic1D.planar [1; 1]) /\
  (FLinneq.check (F64.vadd x p) Rounding.planar = true <->
   FLinneq.check p (FLinneq.shift Rounding.planar x) = true).
Proof.
  intros x p.
  assert (Hb : exact_bundle Rounding.planar Quadratic1D.planar).
  { repeat split; repeat constructor; vm_compute; reflexivity. }
  assert (Hx : exact_vec x [1; 1]) by (repeat constructor; vm_compute; reflexivity).
  assert (Hsum : exact_vec (F64.vadd x p) (vadd [1; 1] [1; 1]))
    by (repeat constructor; vm_compute; reflexivity).
  assert (Hrows : exact_vec (F64.matvec (FLinneq.A Rounding.planar) (F64.vadd x p))
                    (matvec (Linneq.A Quadratic1D.planar) (vadd [1; 1] [1; 1])))
    by (repeat constructor; vm_compute; reflexivity).
  assert (Hrows' : exact_vec (F64.matvec (FLinneq.A Rounding.planar) p)
                     (matvec (Linneq.A Quadratic1D.planar) [1; 1]))
    by (repeat constructor; vm_compute; reflexivity).
  assert (Hs : exact_bundle (FLinneq.shift Rounding.planar x)
                 (Linneq.shift Quadratic1D.planar [1; 1])).
  { repeat split; repeat constructor; vm_compute; reflexivity. }
  split; [reflexivity|]. split; [reflexivity|]. split; [exact Hb|].
  split; [exact Hx|]. split; [exact Hx|]. split; [exact Hsum|].
  split; [exact Hrows|]. split; [exact Hrows'|]. split; [exact Hs|].
  apply (shifted_feasibility_without_rounding Rounding.planar x p
           Quadratic1D.planar [1; 1] [1; 1]).
  - reflexivity.
  - reflexivity.
  - exact Hb.
  - exact Hx.
  - exact Hx.
  - exact Hsum.
  - exact Hrows.
  - exact Hrows'.
  - exact Hs.
Defined.

(** C6 as the spec states it fails on the bundle that the program
    computes.  With [lb = 0.1], [x = 0.7] and [p = -0.6] the difference
    [lb - x] rounds to [-0.6], so the shifted bundle accepts [p]; the sum
    [x + p] is [0.09999999999999998], below [lb], and the rationals that
    these floats stand for violate the bound as well. *)
Lemma shifted_bundle_accepts_infeasible_step :
  let x := [Rounding.seven_tenths] in
  let p := [F64.neg Rounding.six_tenths] in
  exact_bundle Rounding.above_tenth Rounding.above_tenth_exactly /\
  exact_vec x [Rounding.seven_tenths_exactly] /\
  exact_vec p [- Rounding.six_tenths_exactly] /\
  FLinneq.lb (FLinneq.shift Rounding.above_tenth x) = p /\
  FLinneq.check p (FLinneq.shift Rounding.above_tenth x) = true /\
  FLinneq.check (F64.vadd x p) Rounding.above_tenth = false /\
  Linneq.check (vadd [Rounding.seven_tenths_exactly] [- Rounding.six_tenths_exactly])
    Rounding.above_tenth_exactly = false /\
  ~ (FLinneq.check (F64.vadd x p) Rounding.above_tenth = true <->
     FLinneq.check p (FLinneq.shift Rounding.above_tenth x) = true).
Proof.
  intros x p.
  split; [repeat split; repeat constructor; vm_compute; reflexivity|].
  split; [repeat constructor; vm_compute; reflexivity|].
  split; [repeat constructor; vm_compute; reflexivity|].
  split; [vm_compute; reflexivity|].
  split; [vm_compute; reflexivity|].
  split; [vm_compute; reflexivity|].
  split; [vm_compute; reflexivity|].
  intros [_ Hback].
  assert (Hyes : FLinneq.check p (FLinneq.shift Rounding.above_tenth x) = true)
    by (vm_compute; reflexivity).
  apply Hback in Hyes. vm_compute in Hyes. discriminate Hyes.
Qed.

(* ------------------------------------------------------------------ *)
(** ** The radius test of the inner solver *)

Section RadiusTest.

Import F64 FPCG.

Variable check : fvec -> FLinneq.constraints -> bool.
Variable constraint_check : FLinneq.constraints -> bool.
Variables (Hm : fmatrix) (R : fvec) (c : FLinneq.constraints) (delta : float).

Lemma iteration_exit_point (i : nat) (s : cg_state) (out : output) :
  iteration check Hm R c delta i s = Ok (Exit out) -> fst (fst (fst out)) = p s.
Proof.
  unfold iteration, bind, pdiv. intro Hrun.
  destruct (max_abs (z s)); [|discriminate].
  destruct (ltb _ sqrt_eps); [inversion Hrun; reflexivity|].
  destruct (leb _ pos_zero); [inversion Hrun; reflexivity|].
  destruct (eqb _ pos_zero); [discriminate|].
  destruct (ltb delta _); [inversion Hrun; reflexivity|].
  destruct (check _ _); cbn [negb] in Hrun; [|inversion Hrun; reflexivity].
  destruct (eqb (inner1 s) pos_zero); discriminate.
Qed.

Lemma iteration_next_point (i : nat) (s s' : cg_state) :
  iteration check Hm R c delta i s = Ok (Next s') ->
  ltb delta (norm (p s')) = false /\ check (p s') c = true.
Proof.
  unfold iteration, bind, pdiv. intro Hrun.
  destruct (max_abs (z s)); [|discriminate].
  destruct (ltb _ sqrt_eps); [discriminate|].
  destruct (leb _ pos_zero); [discriminate|].
  destruct (eqb _ pos_zero); [discriminate|].
  destruct (ltb delta _) eqn:Hnorm; [discriminate|].
  destruct (check _ _) eqn:Hchk; [|discriminate].
  cbn [negb] in Hrun.
  destruct (eqb (inner1 s) pos_zero); [discriminate|].
  inversion Hrun; subst; simpl. split; assumption.
Qed.

Lemma for_range_point (P : fvec -> Prop) :
  (forall v, ltb delta (norm v) = false -> check v c = true -> P v) ->
  forall indices last s out,
    P (p s) ->
    for_range check Hm R c delta indices last s = Ok out ->
    P (fst (fst (fst out))).
Proof.
  intros Hacc. induction indices as [|i rest IH]; intros last s out Hp Hrun; simpl in Hrun.
  - destruct last; inversion Hrun; subst; exact Hp.
  - unfold bind in Hrun.
    destruct (iteration check Hm R c delta i s) as [[o|s1]|e] eqn:Hit; [| |discriminate].
    + inversion Hrun; subst. rewrite (iteration_exit_point _ _ _ Hit). exact Hp.
    + apply (IH (Some i) s1 out); [|exact Hrun].
      destruct (iteration_next_point _ _ _ Hit) as [Hn Hc].
      apply Hacc; assumption.
Qed.

Lemma fdot_zeros (n : nat) : dot (zeros n) (zeros n) = pos_zero.
Proof.
  unfold dot, zeros. induction n as [|n IH]; [reflexivity|].
  simpl. exact IH.
Qed.

Lemma positive_not_below_zero (d : float) : ltb pos_zero d = true -> ltb d pos_zero = false.
Proof.
  unfold ltb, SpecFloat.SFltb, pos_zero.
  destruct d as [s|s| |s m e]; try destruct s; simpl; congruence.
Qed.

(** C1, as the code has it: for [delta > 0], whichever of the four exit
    flags is returned, the returned step is the zero vector or a trial
    point on which the test of pcg.py:125,
    [numpy.linalg.norm(pnew) > delta] in float64, was false; so that
    test is false on the returned step.  The exact norm of the step can
    still exceed [delta] where [p.dot(p)] rounds or underflows. *)
Theorem implimentation_radius_test
        (g pt : fvec) (d : option fvec) (it : nat) (fl : PCG.PCG_Flag) :
  ltb pos_zero delta = true ->
  _implimentation check constraint_check Hm R c delta g = Ok (pt, d, it, fl) ->
  ltb delta (norm pt) = false.
Proof.
  intros Hdelta Hrun.
  unfold _implimentation, bind in Hrun.
  destruct (negb (dyn_check _ _ _ _)); [discriminate|].
  destruct (negb (_ && _)); [discriminate|].
  destruct (negb (constraint_check c)); [discriminate|].
  destruct (negb (is_finite delta)); [discriminate|].
  destruct (for_range _ _ _ _ _ _ _ _) as [out|] eqn:Hloop; [|discriminate].
  destruct (output_check out); [|discriminate].
  inversion Hrun; subst out.
  apply (for_range_point (fun v => ltb delta (norm v) = false)) in Hloop.
  - exact Hloop.
  - intros v Hn _. exact Hn.
  - simpl. unfold norm. rewrite fdot_zeros. change (sqrt pos_zero) with pos_zero.
    apply positive_not_below_zero. exact Hdelta.
Qed.

End RadiusTest.

(** With [g = (-1, -2^-30)], [H] the identity and [delta = 1] the
    solver returns [p = (1, 2^-30)]: the square of its norm,
    [1 + 2^-60], rounds to 1 and the test of line 125 does not fire. *)
Lemma implimentation_radius_test_witness :
  let g := [F64.neg Rounding.one; F64.neg Rounding.small] in
  let p := [Rounding.one; Rounding.small] in
  F64.ltb F64.pos_zero Rounding.one = true /\
  FPCG._implimentation FLinneq.check Rounding.constraint_check Rounding.identity
    [Rounding.one; Rounding.one] Rounding.free2 Rounding.one g
    = Ok (p, None, 1%nat, PCG.RESIDUAL_CONVERGENCE) /\
  F64.ltb Rounding.one (F64.norm p) = false.
Proof.
  intros g p.
  split; [reflexivity|]. split; [vm_compute; reflexivity|].
  apply (implimentation_radius_test FLinneq.check Rounding.constraint_check
           Rounding.identity [Rounding.one; Rounding.one] Rounding.free2 Rounding.one
           g p None 1%nat PCG.RESIDUAL_CONVERGENCE).
  - reflexivity.
  - vm_compute; reflexivity.
Defined.

(** C1 as the spec states it fails on the program.  At the input above
    the returned step [(1, 2^-30)] has norm [sqrt (1 + 2^-60) > 1 = delta].
    With [g = (-2^-600)], [H = (1)], [R = (2^-600)] and [delta = 2^-700]
    the solver returns [p = (2^-600)]: the square [2^-1200] underflows to
    zero, and the step is [2^100] times as long as the radius. *)
Lemma implimentation_step_outside_radius :
  (F64.ltb F64.pos_zero Rounding.one = true /\
   FPCG._implimentation FLinneq.check Rounding.constraint_check Rounding.identity
     [Rounding.one; Rounding.one] Rounding.free2 Rounding.one
     [F64.neg Rounding.one; F64.neg Rounding.small]
     = Ok ([Rounding.one; Rounding.small], None, 1%nat, PCG.RESIDUAL_CONVERGENCE) /\
   represents Rounding.one 1 /\
   exact_vec [Rounding.one; Rounding.small] [1; 2 ^ (-30)] /\
   Rlt (Q2R 1) (norm2 [1; 2 ^ (-30)])) /\
  (F64.ltb F64.pos_zero Rounding.tinier = true /\
   FPCG._implimentation FLinneq.check Rounding.constraint_check [[Rounding.one]]
     [Rounding.tiny] Rounding.free1 Rounding.tinier [F64.neg Rounding.tiny]
     = Ok ([Rounding.tiny], None, 0%nat, PCG.RESIDUAL_CONVERGENCE) /\
   represents Rounding.tinier (2 ^ (-700)) /\
   exact_vec [Rounding.tiny] [2 ^ (-600)] /\
   Rlt (Q2R (2 ^ (-700))) (norm2 [2 ^ (-600)])).
Proof.
  split.
  - split; [reflexivity|]. split; [vm_compute; reflexivity|].
    split; [vm_compute; reflexivity|].
    split; [repeat constructor; vm_compute; reflexivity|].
    apply norm_gt_sqrt. vm_compute. reflexivity.
  - split; [reflexivity|]. split; [vm_compute; reflexivity|].
    split; [vm_compute; reflexivity|].
    split; [repeat constructor; vm_compute; reflexivity|].
    apply norm_gt_sqrt. vm_compute. reflexivity.
Qed.
